(** * A paging simulator: FIFO and LRU(t) page replacement

    Shallow embedding of [sim_paging.h], [sim_pag_fifo.c] and
    [sim_pag_lru.c].  The simulated system is the C structure [ssystem];
    every C function that receives [ssystem* S] becomes a computation in a
    small state monad over that structure.  A computation has no result
    where the C program has no defined behaviour (an array indexed outside
    its bounds, a division by zero); what the program prints is collected
    as a list of events.  The functions that show results only read the
    structure; they are computations that yield the lines they print. *)

From Stdlib Require Import ZArith Lia Ascii.
From stdpp Require Import base tactics option list list_numbers sets.

Local Open Scope Z_scope.

(** ** Machine integers *)

(** [int] and [unsigned] are 32 bits wide.  Values are kept in [Z]; the
    wrap-around of each type is written out where a C operation can leave
    its range. *)

Definition UINT_MAX : Z := 4294967295.
Definition INT_MAX : Z := 2147483647.
Definition INT_MIN : Z := -2147483648.

(** Conversion to [unsigned]: reduction modulo 2^32. *)
Definition to_unsigned (z : Z) : Z := z mod 4294967296.

(** Conversion to [int], and the result of [int] arithmetic: the two's
    complement representative in [INT_MIN .. INT_MAX].  An [int] operation
    that leaves this range is taken to wrap, as the machine instruction
    does; the theorems say where they need a counter to stay in range. *)
Definition to_int (z : Z) : Z := (z + 2147483648) mod 4294967296 - 2147483648.

(** ** Data model *)

(** An entry of the page table ([spage]). *)
Record spage := mk_spage {
  present : Z;     (* char: 1 = loaded in a frame *)
  frame : Z;       (* int: frame where it is loaded *)
  modified : Z;    (* char: 1 = must be written back *)
  referenced : Z;  (* char: for FIFO 2nd chance *)
  timestamp : Z    (* unsigned: time mark of last reference *)
}.

(** An entry of the frames table ([sframe]). *)
Record sframe := mk_sframe {
  page : Z;  (* int: number of the page loaded, if any *)
  next : Z   (* int: next frame in the list *)
}.

(** The state of the whole system ([ssystem]). *)
Record ssystem := mk_ssystem {
  pagsz : Z;
  numpags : Z;
  pgt : list spage;
  lru : Z;
  clock : Z;
  numframes : Z;
  frt : list sframe;
  listfree : Z;
  listoccupied : Z;
  numrefsread : Z;
  numrefswrite : Z;
  numpagefaults : Z;
  numpgwriteback : Z;
  numillegalrefs : Z;
  detailed : Z
}.

(** Field assignments. *)

Definition set_present (v : Z) (e : spage) : spage :=
  mk_spage v (frame e) (modified e) (referenced e) (timestamp e).
Definition set_frame (v : Z) (e : spage) : spage :=
  mk_spage (present e) v (modified e) (referenced e) (timestamp e).
Definition set_modified (v : Z) (e : spage) : spage :=
  mk_spage (present e) (frame e) v (referenced e) (timestamp e).
Definition set_referenced (v : Z) (e : spage) : spage :=
  mk_spage (present e) (frame e) (modified e) v (timestamp e).
Definition set_timestamp (v : Z) (e : spage) : spage :=
  mk_spage (present e) (frame e) (modified e) (referenced e) v.

Definition set_page (v : Z) (fe : sframe) : sframe := mk_sframe v (next fe).
Definition set_next (v : Z) (fe : sframe) : sframe := mk_sframe (page fe) v.

Definition with_pgt (v : list spage) (S : ssystem) : ssystem :=
  mk_ssystem (pagsz S) (numpags S) v (lru S) (clock S) (numframes S) (frt S)
    (listfree S) (listoccupied S) (numrefsread S) (numrefswrite S)
    (numpagefaults S) (numpgwriteback S) (numillegalrefs S) (detailed S).
Definition with_lru (v : Z) (S : ssystem) : ssystem :=
  mk_ssystem (pagsz S) (numpags S) (pgt S) v (clock S) (numframes S) (frt S)
    (listfree S) (listoccupied S) (numrefsread S) (numrefswrite S)
    (numpagefaults S) (numpgwriteback S) (numillegalrefs S) (detailed S).
Definition with_clock (v : Z) (S : ssystem) : ssystem :=
  mk_ssystem (pagsz S) (numpags S) (pgt S) (lru S) v (numframes S) (frt S)
    (listfree S) (listoccupied S) (numrefsread S) (numrefswrite S)
    (numpagefaults S) (numpgwriteback S) (numillegalrefs S) (detailed S).
Definition with_frt (v : list sframe) (S : ssystem) : ssystem :=
  mk_ssystem (pagsz S) (numpags S) (pgt S) (lru S) (clock S) (numframes S) v
    (listfree S) (listoccupied S) (numrefsread S) (numrefswrite S)
    (numpagefaults S) (numpgwriteback S) (numillegalrefs S) (detailed S).
Definition with_listfree (v : Z) (S : ssystem) : ssystem :=
  mk_ssystem (pagsz S) (numpags S) (pgt S) (lru S) (clock S) (numframes S) (frt S)
    v (listoccupied S) (numrefsread S) (numrefswrite S)
    (numpagefaults S) (numpgwriteback S) (numillegalrefs S) (detailed S).
Definition with_listoccupied (v : Z) (S : ssystem) : ssystem :=
  mk_ssystem (pagsz S) (numpags S) (pgt S) (lru S) (clock S) (numframes S) (frt S)
    (listfree S) v (numrefsread S) (numrefswrite S)
    (numpagefaults S) (numpgwriteback S) (numillegalrefs S) (detailed S).
Definition with_numrefsread (v : Z) (S : ssystem) : ssystem :=
  mk_ssystem (pagsz S) (numpags S) (pgt S) (lru S) (clock S) (numframes S) (frt S)
    (listfree S) (listoccupied S) v (numrefswrite S)
    (numpagefaults S) (numpgwriteback S) (numillegalrefs S) (detailed S).
Definition with_numrefswrite (v : Z) (S : ssystem) : ssystem :=
  mk_ssystem (pagsz S) (numpags S) (pgt S) (lru S) (clock S) (numframes S) (frt S)
    (listfree S) (listoccupied S) (numrefsread S) v
    (numpagefaults S) (numpgwriteback S) (numillegalrefs S) (detailed S).
Definition with_numpagefaults (v : Z) (S : ssystem) : ssystem :=
  mk_ssystem (pagsz S) (numpags S) (pgt S) (lru S) (clock S) (numframes S) (frt S)
    (listfree S) (listoccupied S) (numrefsread S) (numrefswrite S)
    v (numpgwriteback S) (numillegalrefs S) (detailed S).
Definition with_numpgwriteback (v : Z) (S : ssystem) : ssystem :=
  mk_ssystem (pagsz S) (numpags S) (pgt S) (lru S) (clock S) (numframes S) (frt S)
    (listfree S) (listoccupied S) (numrefsread S) (numrefswrite S)
    (numpagefaults S) v (numillegalrefs S) (detailed S).
Definition with_numillegalrefs (v : Z) (S : ssystem) : ssystem :=
  mk_ssystem (pagsz S) (numpags S) (pgt S) (lru S) (clock S) (numframes S) (frt S)
    (listfree S) (listoccupied S) (numrefsread S) (numrefswrite S)
    (numpagefaults S) (numpgwriteback S) v (detailed S).

(** ** Output *)

(** One constructor per [printf] of the simulation functions, carrying the
    values printed; [err_clock_overflow] is the warning written to
    [stderr]. *)
Inductive event :=
| out_access (op : ascii) (virtual_addr pg fr offset : Z)
| out_page_fault (pg : Z)
| out_choose_fifo (victim_page victim_frame : Z)
| out_choose_lru (victim ts fr : Z)
| out_writeback (victim : Z)
| out_replace (victim newpage fr : Z)
| out_lodge (pg fr : Z)
| err_clock_overflow.

(** ** The simulation monad *)

Definition Sim (A : Type) : Type := ssystem → option (A * ssystem * list event).

Global Instance sim_ret : MRet Sim := λ A a S, Some (a, S, []).

Global Instance sim_bind : MBind Sim :=
  λ A B f m S,
    match m S with
    | None => None
    | Some (a, S1, o1) =>
        match f a S1 with
        | None => None
        | Some (b, S2, o2) => Some (b, S2, o1 ++ o2)
        end
    end.

(** No defined behaviour. *)
Definition undefined {A} : Sim A := λ _, None.

Definition gets {A} (f : ssystem → A) : Sim A := λ S, Some (f S, S, []).
Definition modify (f : ssystem → ssystem) : Sim unit := λ S, Some (tt, f S, []).
Definition emit (e : event) : Sim unit := λ S, Some (tt, S, [e]).

(** [if (c) m] without [else]. *)
Definition when (c : bool) (m : Sim unit) : Sim unit := if c then m else mret tt.

(** The truth value of a C scalar. *)
Definition truthy (z : Z) : bool := negb (z =? 0).

(** Arrays are indexed by [int]; an index outside the array has no defined
    behaviour. *)
Definition zget {A} (l : list A) (i : Z) : option A :=
  if 0 <=? i then l !! Z.to_nat i else None.

(** [a[i] = x], for an index already known to be inside the array. *)
Definition zset {A} (l : list A) (i : Z) (x : A) : list A := <[Z.to_nat i := x]> l.

Definition load_pgt (i : Z) : Sim spage :=
  λ S, match zget (pgt S) i with
       | Some e => Some (e, S, [])
       | None => None
       end.

Definition store_pgt (i : Z) (f : spage → spage) : Sim unit :=
  λ S, match zget (pgt S) i with
       | Some e => Some (tt, with_pgt (zset (pgt S) i (f e)) S, [])
       | None => None
       end.

Definition load_frt (i : Z) : Sim sframe :=
  λ S, match zget (frt S) i with
       | Some fe => Some (fe, S, [])
       | None => None
       end.

Definition store_frt (i : Z) (f : sframe → sframe) : Sim unit :=
  λ S, match zget (frt S) i with
       | Some fe => Some (tt, with_frt (zset (frt S) i (f fe)) S, [])
       | None => None
       end.

(** [x / y] and [x % y] on [unsigned] operands. *)
Definition udiv (x y : Z) : Sim Z :=
  if y =? 0 then undefined else mret (x / y).
Definition umod (x y : Z) : Sim Z :=
  if y =? 0 then undefined else mret (x mod y).

(** [for (i = from; i < to; i++) body(i)], unrolled over the values [i]
    takes. *)
Fixpoint for_each (l : list Z) (body : Z → Sim unit) : Sim unit :=
  match l with
  | [] => mret tt
  | i :: l' => body i ;; for_each l' body
  end.

(** ** [sim_paging.h] and the code shared by both translation units *)

Module Header.

(** The all-zero page-table entry written by [memset]. *)
Definition zero_page : spage := mk_spage 0 0 0 0 0.

(** [memset(S->pgt, 0, sizeof(spage) * S->numpags)]: defined when the table
    has at least [numpags] entries. *)
Definition memset_pgt : Sim unit :=
  λ S, if (0 <=? numpags S) && (numpags S <=? Z.of_nat (length (pgt S)))
       then Some (tt, with_pgt (replicate (Z.to_nat (numpags S)) zero_page
                                  ++ drop (Z.to_nat (numpags S)) (pgt S)) S, [])
       else None.

(** [init_tables], the same text in both translation units. *)
Definition init_tables : Sim unit :=
  memset_pgt ;;
  modify (with_lru (-1)) ;;
  modify (with_clock 0) ;;
  n ← gets numframes ;
  for_each (seqZ 0 (to_int (n - 1)))
    (λ i, store_frt i (set_page (-1)) ;; store_frt i (set_next (to_int (i + 1)))) ;;
  (let i := Z.max 0 (to_int (n - 1)) in
   store_frt i (set_page (-1)) ;;
   store_frt i (set_next 0) ;;
   modify (with_listfree i)) ;;
  modify (with_listoccupied (-1)).

Section Kernel.

(** The functions each replacement policy implements. *)
Variable reference_page : Z → ascii → Sim unit.
Variable choose_page_to_be_replaced : Sim Z.
Variable replace_page : Z → Z → Sim unit.
Variable occupy_free_frame : Z → Z → Sim unit.

Definition handle_page_fault (virtual_addr : Z) : Sim unit :=
  modify (λ S, with_numpagefaults (to_int (numpagefaults S + 1)) S) ;;
  sz ← gets pagsz ;
  q ← udiv virtual_addr (to_unsigned sz) ;
  let page := to_int q in
  d ← gets detailed ;
  when (truthy d) (emit (out_page_fault page)) ;;
  lf ← gets listfree ;
  if negb (lf =? -1) then
    let last := lf in
    fl ← load_frt last ;
    let frame := next fl in
    (if frame =? last then
       modify (with_listfree (-1))
     else
       ff ← load_frt frame ;
       store_frt last (set_next (next ff))) ;;
    occupy_free_frame frame page
  else
    victim ← choose_page_to_be_replaced ;
    replace_page victim page.

Definition sim_mmu (virtual_addr : Z) (op : ascii) : Sim Z :=
  sz ← gets pagsz ;
  q ← udiv virtual_addr (to_unsigned sz) ;
  r ← umod virtual_addr (to_unsigned sz) ;
  let page := to_int q in
  let offset := to_int r in
  np ← gets numpags ;
  if (page <? 0) || (page >=? np) then
    modify (λ S, with_numillegalrefs (to_int (numillegalrefs S + 1)) S) ;;
    mret UINT_MAX
  else
    e ← load_pgt page ;
    when (negb (truthy (present e))) (handle_page_fault virtual_addr) ;;
    e' ← load_pgt page ;
    let frame := frame e' in
    sz' ← gets pagsz ;
    let physical_addr := to_unsigned (to_int (to_int (frame * sz') + offset)) in
    reference_page page op ;;
    d ← gets detailed ;
    when (truthy d) (emit (out_access op virtual_addr page frame offset)) ;;
    mret physical_addr.

End Kernel.

End Header.

(** ** The functions that show results *)

(** One constructor per [printf] of [print_page_table],
    [print_frames_table] and [print_replacement_report], carrying the values
    printed.  Where the two translation units print the same call with
    another format string, each has a constructor of its own. *)
Inductive line :=
| pt_title
| pt_heading_fifo
| pt_heading_lru
| pt_number (i : Z)
| pt_loaded (pres fr modif : Z)
| pt_loaded_stamp (pres fr modif ts : Z)
| pt_absent_fifo (pres : Z)
| pt_absent_lru (pres : Z)
| pt_rule
| ft_title
| ft_heading
| ft_number (i : Z)
| ft_loaded (pg pres modif : Z)
| ft_order (pos : Z)
| ft_empty
| ft_rule
| fl_heading
| fl_free (f : Z)
| fl_loaded (f pg pres modif : Z)
| fl_error (f pg pres : Z)
| rr_title
| rr_policy_fifo
| rr_policy_lru
| rr_occupied
| rr_frame (fr pg : Z) (next_victim : bool)
| rr_clock (c : Z)
| rr_min (ts : Z)
| rr_max (ts : Z)
| rr_rule
| rr_faults (n : Z).

(** These functions receive [ssystem* S] and assign nothing through it:
    they are computations that read the system and print.  As before, a
    computation has no result where the C program has no defined
    behaviour. *)
Definition Report (A : Type) : Type := ssystem → option (A * list line).

Global Instance report_ret : MRet Report := λ A a S, Some (a, []).

Global Instance report_bind : MBind Report :=
  λ A B f m S,
    match m S with
    | None => None
    | Some (a, o1) =>
        match f a S with
        | None => None
        | Some (b, o2) => Some (b, o1 ++ o2)
        end
    end.

Definition no_result {A} : Report A := λ _, None.
Definition ask {A} (f : ssystem → A) : Report A := λ S, Some (f S, []).
Definition say (l : line) : Report unit := λ _, Some (tt, [l]).

Definition read_pgt (i : Z) : Report spage :=
  λ S, match zget (pgt S) i with
       | Some e => Some (e, [])
       | None => None
       end.

Definition read_frt (i : Z) : Report sframe :=
  λ S, match zget (frt S) i with
       | Some fe => Some (fe, [])
       | None => None
       end.

(** [for (i = from; i < to; i++) body(i)] in a report. *)
Fixpoint for_rows (l : list Z) (body : Z → Report unit) : Report unit :=
  match l with
  | [] => mret tt
  | i :: l' => body i ;; for_rows l' body
  end.

(** ** [sim_pag_fifo.c] *)

Module FIFO.

Definition init_tables : Sim unit := Header.init_tables.

Definition reference_page (page : Z) (op : ascii) : Sim unit :=
  if Ascii.eqb op "R" then
    modify (λ S, with_numrefsread (to_int (numrefsread S + 1)) S)
  else if Ascii.eqb op "W" then
    store_pgt page (set_modified 1) ;;
    modify (λ S, with_numrefswrite (to_int (numrefswrite S + 1)) S)
  else mret tt.

Definition choose_page_to_be_replaced : Sim Z :=
  lo ← gets listoccupied ;
  fl ← load_frt lo ;
  let victim_frame := next fl in
  fv ← load_frt victim_frame ;
  let victim_page := page fv in
  d ← gets detailed ;
  when (truthy d) (emit (out_choose_fifo victim_page victim_frame)) ;;
  mret victim_page.

Definition replace_page (victim newpage : Z) : Sim unit :=
  ev ← load_pgt victim ;
  let frame := frame ev in
  d ← gets detailed ;
  when (truthy d)
    (ev ← load_pgt victim ;
     when (truthy (modified ev)) (emit (out_writeback victim)) ;;
     emit (out_replace victim newpage frame)) ;;
  ev ← load_pgt victim ;
  when (truthy (modified ev))
    (modify (λ S, with_numpgwriteback (to_int (numpgwriteback S + 1)) S)) ;;
  store_pgt victim (set_present 0) ;;
  store_pgt victim (set_frame (-1)) ;;
  store_pgt victim (set_modified 0) ;;
  store_pgt newpage (set_present 1) ;;
  store_pgt newpage (set_frame frame) ;;
  store_pgt newpage (set_modified 0) ;;
  store_pgt newpage (set_referenced 0) ;;
  store_pgt newpage (set_timestamp 0) ;;
  store_frt frame (set_page newpage) ;;
  modify (with_listoccupied frame).

Definition occupy_free_frame (frame page : Z) : Sim unit :=
  store_pgt page (set_present 1) ;;
  store_pgt page (set_frame frame) ;;
  store_pgt page (set_modified 0) ;;
  store_pgt page (set_referenced 0) ;;
  store_pgt page (set_timestamp 0) ;;
  store_frt frame (set_page page) ;;
  lo ← gets listoccupied ;
  (if lo =? -1 then
     store_frt frame (set_next frame) ;;
     modify (with_listoccupied frame)
   else
     fl ← load_frt lo ;
     store_frt frame (set_next (next fl)) ;;
     store_frt lo (set_next frame) ;;
     modify (with_listoccupied frame)) ;;
  d ← gets detailed ;
  when (truthy d) (emit (out_lodge page frame)).

Definition handle_page_fault : Z → Sim unit :=
  Header.handle_page_fault choose_page_to_be_replaced replace_page occupy_free_frame.

Definition sim_mmu : Z → ascii → Sim Z :=
  Header.sim_mmu reference_page choose_page_to_be_replaced replace_page
    occupy_free_frame.

Definition print_page_table : Report unit :=
  say pt_title ;;
  say pt_heading_fifo ;;
  np ← ask numpags ;
  for_rows (seqZ 0 np)
    (λ i,
       say (pt_number i) ;;
       e ← read_pgt i ;
       if truthy (present e)
       then say (pt_loaded (present e) (frame e) (modified e))
       else say (pt_absent_fifo (present e))) ;;
  say pt_rule.

(** The loop [while (frame != i && pos <= S->numframes)] that counts the
    position of frame [i] in the list of occupied frames.  [pos] grows with
    every turn, so [numframes] turns are all the loop can make. *)
Fixpoint seek (turns : nat) (i fr pos : Z) : Report Z :=
  n ← ask numframes ;
  if negb (fr =? i) && (pos <=? n) then
    match turns with
    | O => no_result
    | S k =>
        ff ← read_frt fr ;
        seek k i (next ff) (to_int (pos + 1))
    end
  else mret pos.

Definition print_frames_table : Report unit :=
  say ft_title ;;
  say ft_heading ;;
  n ← ask numframes ;
  for_rows (seqZ 0 n)
    (λ i,
       say (ft_number i) ;;
       fi ← read_frt i ;
       if 0 <=? page fi then
         let pg := page fi in
         e ← read_pgt pg ;
         say (ft_loaded pg (present e) (modified e)) ;;
         lo ← ask listoccupied ;
         fl ← read_frt lo ;
         pos ← seek (Z.to_nat n) i (next fl) 1 ;
         say (ft_order pos)
       else say ft_empty) ;;
  say ft_rule.

(** The [do ... while (frame != first && count < S->numframes)] of the
    report, entered with [turns] turns left: [count] grows with every turn,
    so the body runs [numframes] times at most (once when that is less). *)
Fixpoint list_frames (turns : nat) (fr count : Z) : Report unit :=
  match turns with
  | O => no_result
  | S k =>
      ff ← read_frt fr ;
      lo ← ask listoccupied ;
      fl ← read_frt lo ;
      say (rr_frame fr (page ff) (fr =? next fl)) ;;
      let fr' := next ff in
      let count' := to_int (count + 1) in
      n ← ask numframes ;
      if negb (fr' =? next fl) && (count' <? n)
      then list_frames k fr' count'
      else mret tt
  end.

Definition print_replacement_report : Report unit :=
  say rr_title ;;
  say rr_policy_fifo ;;
  lo ← ask listoccupied ;
  (if negb (lo =? -1) then
     say rr_occupied ;;
     fl ← read_frt lo ;
     n ← ask numframes ;
     list_frames (Datatypes.S (Z.to_nat n)) (next fl) 0
   else mret tt) ;;
  say rr_rule ;;
  pf ← ask numpagefaults ;
  say (rr_faults pf).

End FIFO.

(** ** [sim_pag_lru.c] *)

Module LRU.

Definition init_tables : Sim unit := Header.init_tables.

Definition reference_page (page : Z) (op : ascii) : Sim unit :=
  (if Ascii.eqb op "R" then
     modify (λ S, with_numrefsread (to_int (numrefsread S + 1)) S)
   else
     modify (λ S, with_numrefswrite (to_int (numrefswrite S + 1)) S)) ;;
  when (Ascii.eqb op "W") (store_pgt page (set_modified 1)) ;;
  c ← gets clock ;
  store_pgt page (set_timestamp c) ;;
  modify (λ S, with_clock (to_unsigned (clock S + 1)) S) ;;
  c' ← gets clock ;
  when (c' =? 0) (emit err_clock_overflow).

(** The scan [for (i = 0; i < S->numpags; i++)] with its two locals. *)
Fixpoint scan (l : list Z) (victim min_timestamp : Z) : Sim (Z * Z) :=
  match l with
  | [] => mret (victim, min_timestamp)
  | i :: l' =>
      e ← load_pgt i ;
      if truthy (present e) && (timestamp e <? min_timestamp)
      then scan l' i (timestamp e)
      else scan l' victim min_timestamp
  end.

Definition choose_page_to_be_replaced : Sim Z :=
  np ← gets numpags ;
  r ← scan (seqZ 0 np) (-1) UINT_MAX ;
  let victim := fst r in
  d ← gets detailed ;
  when (truthy d)
    (ev ← load_pgt victim ;
     emit (out_choose_lru victim (timestamp ev) (frame ev))) ;;
  mret victim.

Definition replace_page (victim newpage : Z) : Sim unit :=
  ev ← load_pgt victim ;
  let frame := frame ev in
  ev ← load_pgt victim ;
  when (truthy (modified ev))
    (d ← gets detailed ;
     when (truthy d) (emit (out_writeback victim)) ;;
     modify (λ S, with_numpgwriteback (to_int (numpgwriteback S + 1)) S)) ;;
  d ← gets detailed ;
  when (truthy d) (emit (out_replace victim newpage frame)) ;;
  store_pgt victim (set_present 0) ;;
  store_pgt newpage (set_present 1) ;;
  store_pgt newpage (set_frame frame) ;;
  store_pgt newpage (set_modified 0) ;;
  store_frt frame (set_page newpage).

Definition occupy_free_frame (frame page : Z) : Sim unit :=
  d ← gets detailed ;
  when (truthy d) (emit (out_lodge page frame)) ;;
  store_pgt page (set_present 1) ;;
  store_pgt page (set_frame frame) ;;
  store_pgt page (set_modified 0) ;;
  store_pgt page (set_referenced 0) ;;
  store_pgt page (set_timestamp 0) ;;
  store_frt frame (set_page page).

Definition handle_page_fault : Z → Sim unit :=
  Header.handle_page_fault choose_page_to_be_replaced replace_page occupy_free_frame.

Definition sim_mmu : Z → ascii → Sim Z :=
  Header.sim_mmu reference_page choose_page_to_be_replaced replace_page
    occupy_free_frame.

Definition print_page_table : Report unit :=
  say pt_title ;;
  say pt_heading_lru ;;
  np ← ask numpags ;
  for_rows (seqZ 0 np)
    (λ i,
       say (pt_number i) ;;
       e ← read_pgt i ;
       if truthy (present e)
       then say (pt_loaded_stamp (present e) (frame e) (modified e) (timestamp e))
       else say (pt_absent_lru (present e))) ;;
  say pt_rule.

Definition print_frames_table : Report unit :=
  say fl_heading ;;
  n ← ask numframes ;
  for_rows (seqZ 0 n)
    (λ f,
       ff ← read_frt f ;
       let p := page ff in
       if p =? -1 then say (fl_free f)
       else
         e ← read_pgt p ;
         if truthy (present e)
         then say (fl_loaded f p (present e) (modified e))
         else say (fl_error f p (present e))).

(** The loop of the report over the page table, with its two locals. *)
Fixpoint span (l : list Z) (min_timestamp max_timestamp : Z) : Report (Z * Z) :=
  match l with
  | [] => mret (min_timestamp, max_timestamp)
  | i :: l' =>
      e ← read_pgt i ;
      if truthy (present e) then
        span l'
          (if timestamp e <? min_timestamp then timestamp e else min_timestamp)
          (if timestamp e >? max_timestamp then timestamp e else max_timestamp)
      else span l' min_timestamp max_timestamp
  end.

Definition print_replacement_report : Report unit :=
  say rr_title ;;
  say rr_policy_lru ;;
  c ← ask clock ;
  say (rr_clock c) ;;
  np ← ask numpags ;
  r ← span (seqZ 0 np) UINT_MAX 0 ;
  (if negb (fst r =? UINT_MAX)
   then say (rr_min (fst r)) ;; say (rr_max (snd r))
   else mret tt) ;;
  say rr_rule ;;
  pf ← ask numpagefaults ;
  say (rr_faults pf).

End LRU.

(** * Specification vocabulary *)

(** The predicates, ghost lists and sample systems the theorems below are
    stated with.  None of them stands in for a function of the program:
    each closed form given here for an effect of the code ([initial_frame],
    [fifo_referenced], [lru_referenced], the sample states) is proved below
    to be what the embedded function computes. *)

(** ** Lists threaded through the frames table *)

(** The successor of frame [f] in whichever list it belongs to. *)
Definition next_of (frt : list sframe) (f : Z) : option Z := next <$> zget frt f.

(** The page loaded in frame [f]. *)
Definition page_at (frt : list sframe) (f : Z) : option Z := page <$> zget frt f.

(** [chain frt x l z]: starting at frame [x], the [next] fields visit the
    frames of [l] in order, and the last frame visited points to [z]. *)
Fixpoint chain (frt : list sframe) (x : Z) (l : list Z) (z : Z) : Prop :=
  match l with
  | [] => next_of frt x = Some z
  | y :: l' => next_of frt x = Some y ∧ chain frt y l' z
  end.

(** [ring frt l tail]: the circular list whose last element is [tail] holds
    the frames of [l], oldest first; the empty list is [tail = -1]. *)
Definition ring (frt : list sframe) (l : list Z) (tail : Z) : Prop :=
  match l with
  | [] => tail = -1
  | h :: t => chain frt h t h ∧ NoDup l ∧ last l = Some tail
  end.

(** The traversal the report functions make: from the frame after [tail]
    round to [tail], at most [fuel] frames. *)
Fixpoint walk (frt : list sframe) (fuel : nat) (tail cur : Z) : list Z :=
  match fuel with
  | O => []
  | S k =>
      cur :: (if cur =? tail then []
              else match zget frt cur with
                   | Some fe => walk frt k tail (next fe)
                   | None => []
                   end)
  end.

(** The frames of the circular list whose last element is [tail], first
    element first. *)
Definition circular_list (frt : list sframe) (tail : Z) : list Z :=
  if tail =? -1 then []
  else match zget frt tail with
       | Some fe => walk frt (length frt) tail (next fe)
       | None => []
       end.

(** ** Well-formed systems *)

(** What the driver that allocates the tables has to provide: a positive
    page size, tables of the announced sizes, at least one frame. *)
Record config_ok (S : ssystem) : Prop := {
  cfg_pagsz : 0 < pagsz S ≤ INT_MAX;
  cfg_numpags : numpags S ≤ INT_MAX;
  cfg_pgt : Z.of_nat (length (pgt S)) = numpags S;
  cfg_numframes : 0 < numframes S ≤ INT_MAX;
  cfg_frt : Z.of_nat (length (frt S)) = numframes S
}.

(** The settings no simulation function assigns. *)
Definition same_setup (S S' : ssystem) : Prop :=
  pagsz S' = pagsz S ∧ numpags S' = numpags S ∧ numframes S' = numframes S ∧
  detailed S' = detailed S ∧
  length (pgt S') = length (pgt S) ∧ length (frt S') = length (frt S).

(** The five statistics counters. *)
Definition counters (S : ssystem) : Z * Z * Z * Z * Z :=
  (numrefsread S, numrefswrite S, numpagefaults S, numpgwriteback S,
   numillegalrefs S).

(** The page table and the frames table describe the same residency: a
    present page names the frame that holds it, and a frame that holds a
    page is named by that page, which is present. *)
Definition resident (pgt : list spage) (frt : list sframe) : Prop :=
  (∀ p e, zget pgt p = Some e → present e ≠ 0 →
          page_at frt (frame e) = Some p) ∧
  (∀ f q, page_at frt f = Some q → q ≠ -1 →
          ∃ e, zget pgt q = Some e ∧ present e ≠ 0 ∧ frame e = f).

(** The free list holds the frames of [l], exactly those without a page. *)
Definition free_is (frt : list sframe) (tail : Z) (l : list Z) : Prop :=
  ring frt l tail ∧ ∀ f q, page_at frt f = Some q → (f ∈ l ↔ q = -1).

(** The list of occupied frames (FIFO) holds the frames of [l], oldest
    first, exactly those with a page. *)
Definition occupied_is (frt : list sframe) (tail : Z) (l : list Z) : Prop :=
  ring frt l tail ∧ ∀ f q, page_at frt f = Some q → (f ∈ l ↔ q ≠ -1).

(** The frames a report would list as free, and as occupied. *)
Definition free_frames (S : ssystem) : list Z :=
  circular_list (frt S) (listfree S).

(** [S->frt[f].page >= 0], the test of the frames report. *)
Definition holds_page (frt : list sframe) (f : Z) : bool :=
  match zget frt f with
  | Some fe => 0 <=? page fe
  | None => false
  end.

Definition occupied_frames (S : ssystem) : list Z :=
  filter (λ f, holds_page (frt S) f) (seqZ 0 (numframes S)).

(** The invariant of a FIFO run, with the contents of both lists. *)
Definition fifo_state (S : ssystem) (lfree locc : list Z) : Prop :=
  config_ok S ∧ resident (pgt S) (frt S) ∧
  free_is (frt S) (listfree S) lfree ∧
  occupied_is (frt S) (listoccupied S) locc.

(** The invariant of an LRU run; LRU keeps no list of occupied frames. *)
Definition lru_state (S : ssystem) (lfree : list Z) : Prop :=
  config_ok S ∧ resident (pgt S) (frt S) ∧ free_is (frt S) (listfree S) lfree.

(** Some present page has a timestamp the scan of
    [choose_page_to_be_replaced] can go below. *)
Definition lru_candidate (S : ssystem) : Prop :=
  ∃ p e, zget (pgt S) p = Some e ∧ present e ≠ 0 ∧ timestamp e < UINT_MAX.

(** ** Addresses *)

(** The page index and the offset [sim_mmu] and [handle_page_fault] compute
    from a virtual address. *)
Definition page_index (S : ssystem) (virtual_addr : Z) : Z :=
  to_int (virtual_addr / to_unsigned (pagsz S)).

Definition page_offset (S : ssystem) (virtual_addr : Z) : Z :=
  to_int (virtual_addr mod to_unsigned (pagsz S)).

(** The physical address computed from the entry of the page. *)
Definition physical (S : ssystem) (e : spage) (virtual_addr : Z) : Z :=
  to_unsigned (to_int (to_int (frame e * pagsz S) + page_offset S virtual_addr)).

(** The line [sim_mmu] prints in detailed mode. *)
Definition access_line (S S' : ssystem) (e : spage) (va : Z) (op : ascii)
  : list event :=
  if truthy (detailed S')
  then [out_access op va (page_index S va) (frame e) (page_offset S va)]
  else [].

(** ** Effects in closed form *)

(** The body of the loop of [init_tables]. *)
Definition init_body (i : Z) : Sim unit :=
  store_frt i (set_page (-1)) ≫= λ _, store_frt i (set_next (to_int (i + 1))).

(** The frames table [init_tables] builds: frame [i] points to [i + 1], the
    last frame back to frame 0. *)
Definition initial_frame (n : Z) (i : Z) : sframe :=
  mk_sframe (-1) (if decide (i = n - 1) then 0 else i + 1).

(** The system after [reference_page] on page [p], whose entry is [e]. *)
Definition fifo_referenced (S : ssystem) (p : Z) (op : ascii) (e : spage) : ssystem :=
  if Ascii.eqb op "R" then with_numrefsread (to_int (numrefsread S + 1)) S
  else if Ascii.eqb op "W" then
    with_numrefswrite (to_int (numrefswrite S + 1))
      (with_pgt (zset (pgt S) p (set_modified 1 e)) S)
  else S.

Definition lru_referenced (S : ssystem) (p : Z) (op : ascii) (e : spage) : ssystem :=
  with_clock (to_unsigned (clock S + 1))
    (with_pgt
       (zset (pgt S) p
          (set_timestamp (clock S)
             (if Ascii.eqb op "W" then set_modified 1 e else e)))
       (if Ascii.eqb op "R"
        then with_numrefsread (to_int (numrefsread S + 1)) S
        else with_numrefswrite (to_int (numrefswrite S + 1)) S)).

(** What [reference_page] does to the entry of the page under FIFO. *)
Definition fifo_touch (op : ascii) (e : spage) : spage :=
  if Ascii.eqb op "R" then e
  else if Ascii.eqb op "W" then set_modified 1 e else e.

(** And under LRU, at clock value [c]. *)
Definition lru_touch (c : Z) (op : ascii) (e : spage) : spage :=
  set_timestamp c (if Ascii.eqb op "W" then set_modified 1 e else e).

(** ** Runs *)

(** The states a run goes through: [init_tables] on the tables the driver
    allocated, then any number of translations. *)
Inductive reachable (init : Sim unit) (mmu : Z → ascii → Sim Z) : ssystem → Prop :=
| reach_init S0 S out :
    config_ok S0 → init S0 = Some (tt, S, out) → reachable init mmu S
| reach_step S va op pa S' out :
    reachable init mmu S → 0 ≤ va ≤ UINT_MAX →
    mmu va op S = Some (pa, S', out) → reachable init mmu S'.

Definition fifo_reachable : ssystem → Prop :=
  reachable FIFO.init_tables FIFO.sim_mmu.

Definition lru_reachable : ssystem → Prop :=
  reachable LRU.init_tables LRU.sim_mmu.

(** A trace of accesses, one translation after the other. *)
Fixpoint trace (mmu : Z → ascii → Sim Z) (l : list (Z * ascii)) : Sim unit :=
  match l with
  | [] => mret tt
  | (va, op) :: l' => mmu va op ≫= λ _, trace mmu l'
  end.

(** The states of an LRU run, with the number of translations made so
    far. *)
Inductive lru_run : nat → ssystem → Prop :=
| run_init S0 S out :
    config_ok S0 → LRU.init_tables S0 = Some (tt, S, out) → lru_run 0 S
| run_step n S va op pa S' out :
    lru_run n S → 0 ≤ va ≤ UINT_MAX →
    LRU.sim_mmu va op S = Some (pa, S', out) → lru_run (Datatypes.S n) S'.

(** Timestamps tell the references apart: every present page was stamped
    before the current clock value, and no two carry the same stamp. *)
Definition lru_ordered (S : ssystem) : Prop :=
  (∀ p e, zget (pgt S) p = Some e → present e ≠ 0 → 0 ≤ timestamp e < clock S) ∧
  (∀ p q e1 e2,
     zget (pgt S) p = Some e1 → present e1 ≠ 0 →
     zget (pgt S) q = Some e2 → present e2 ≠ 0 →
     timestamp e1 = timestamp e2 → p = q).

(** ** Effects of a translation *)

(** The entry a translation leaves for its page, and the entries it leaves
    alone: [e0] is the entry before the reference is recorded. *)
Definition settled (pgt pgt' : list spage) (p : Z) (e e' e0 : spage) : Prop :=
  zget pgt' p = Some e' ∧ present e0 ≠ 0 ∧
  modified e0 = (if decide (present e = 0) then 0 else modified e) ∧
  ∀ q eq, q ≠ p → zget pgt' q = Some eq → present eq ≠ 0 → zget pgt q = Some eq.

(** Computations that, started in quiet mode, stay in quiet mode and emit
    nothing but the events [ok] admits. *)
Definition silent (ok : event → Prop) {A} (m : Sim A) : Prop :=
  ∀ S a S' out,
    detailed S = 0 → m S = Some (a, S', out) → detailed S' = 0 ∧ Forall ok out.

(** ** Reports *)

(** The lines of the FIFO report for the frames of [l], the frame [first]
    marked as the next victim. *)
Definition frame_lines (frt : list sframe) (first : Z) (l : list Z) : list line :=
  (λ f, rr_frame f (default (-1) (page_at frt f)) (f =? first)) <$> l.

(** Whether a line of the page table report shows a frame. *)
Definition shows_frame (ln : line) : bool :=
  match ln with
  | pt_loaded _ _ _ | pt_loaded_stamp _ _ _ _ => true
  | _ => false
  end.

(** [S->pgt[p].present] as a test, and the frame the entry names. *)
Definition is_loaded (pgt : list spage) (p : Z) : bool :=
  match zget pgt p with
  | Some e => truthy (present e)
  | None => false
  end.

Definition frame_of (pgt : list spage) (p : Z) : Z :=
  default 0 (frame <$> zget pgt p).

(** ** Sample systems *)

(** A system with four pages of 100 bytes and two frames, as the driver
    hands it to [init_tables]. *)
Definition small_system : ssystem :=
  mk_ssystem 100 4 (replicate 4 Header.zero_page) 0 0 2
    (replicate 2 (mk_sframe 0 0)) 0 0 0 0 0 0 0 0.

(** The last tick before the clock wraps. *)
Definition clock_at_max : ssystem :=
  with_clock UINT_MAX
    (with_pgt [mk_spage 1 0 0 0 7; Header.zero_page; Header.zero_page; Header.zero_page]
       small_system).

(** A system whose counters still hold the figures of an earlier run. *)
Definition used_system : ssystem :=
  with_numrefsread 5 (with_numrefswrite 4 (with_numpagefaults 3
    (with_numpgwriteback 2 (with_numillegalrefs 1 small_system)))).

(** The FIFO system of [small_system] after [init_tables], after a read of
    page 0, and after a further read of page 1 has taken the second frame. *)
Definition fifo_started : ssystem :=
  mk_ssystem 100 4 (replicate 4 Header.zero_page)
    (-1) 0 2 [mk_sframe (-1) 1; mk_sframe (-1) 0] 1 (-1) 0 0 0 0 0 0.

Definition fifo_one : ssystem :=
  mk_ssystem 100 4
    [mk_spage 1 0 0 0 0; Header.zero_page; Header.zero_page; Header.zero_page]
    (-1) 0 2 [mk_sframe 0 0; mk_sframe (-1) 1] 1 0 1 0 1 0 0 0.

Definition fifo_full : ssystem :=
  mk_ssystem 100 4
    [mk_spage 1 0 0 0 0; mk_spage 1 1 0 0 0; Header.zero_page; Header.zero_page]
    (-1) 0 2 [mk_sframe 0 1; mk_sframe 1 0] (-1) 1 2 0 2 0 0 0.

(** One frame, four pages of 100 bytes, counters cleared by the driver. *)
Definition one_frame_system : ssystem :=
  mk_ssystem 100 4 (replicate 4 Header.zero_page) 0 0 1
    (replicate 1 (mk_sframe 0 0)) 0 0 0 0 0 0 0 0.

(** The LRU system of [one_frame_system] after [init_tables] and [n] reads
    of address 0.  The clock is [unsigned] and wraps at 2^32; the counter of
    reads is an [int], shown at the value the increment of a two's
    complement machine leaves in it. *)
Definition after_reads (n : Z) : ssystem :=
  mk_ssystem 100 4
    [mk_spage 1 0 0 0 (to_unsigned (n - 1)); Header.zero_page; Header.zero_page;
     Header.zero_page]
    (-1) (to_unsigned n) 1 [mk_sframe 0 0] (-1) (-1) (to_int n) 0 1 0 0 0.

(** After 2^32 reads of page 0 its timestamp is [UINT_MAX] and the clock is
    back at zero. *)
Definition saturated : ssystem := after_reads 4294967296.

(** The LRU system of [small_system] after [init_tables] and the accesses
    R0, W1, R0: page 1 is the less recently referenced. *)
Definition lru_busy : ssystem :=
  mk_ssystem 100 4
    [mk_spage 1 0 0 0 2; mk_spage 1 1 1 0 1; Header.zero_page; Header.zero_page]
    (-1) 3 2 [mk_sframe 0 1; mk_sframe 1 1] (-1) (-1) 2 1 2 0 0 0.

(** A system configured without frames. *)
Definition no_frames_system : ssystem :=
  mk_ssystem 100 4 (replicate 4 Header.zero_page) 0 0 0 [] 0 0 0 0 0 0 0 0.

(** * Verification *)

(** ** Machine integers *)

Lemma to_int_small z : INT_MIN ≤ z ≤ INT_MAX → to_int z = z.
Proof.
  unfold to_int, INT_MIN, INT_MAX. intros H.
  rewrite Z.mod_small by lia. lia.
Qed.

Lemma to_unsigned_small z : 0 ≤ z ≤ UINT_MAX → to_unsigned z = z.
Proof. unfold to_unsigned, UINT_MAX. intros H. apply Z.mod_small. lia. Qed.

Lemma to_unsigned_range z : 0 ≤ to_unsigned z ≤ UINT_MAX.
Proof.
  unfold to_unsigned, UINT_MAX.
  pose proof (Z.mod_pos_bound z 4294967296). lia.
Qed.

Lemma to_int_range z : INT_MIN ≤ to_int z ≤ INT_MAX.
Proof.
  unfold to_int, INT_MIN, INT_MAX.
  pose proof (Z.mod_pos_bound (z + 2147483648) 4294967296). lia.
Qed.

(** ** Arrays *)

Section Arrays.
Context {A : Type}.
Implicit Types (l : list A) (i j : Z) (x y : A).

Lemma zget_Some l i x :
  zget l i = Some x ↔ 0 ≤ i ∧ l !! Z.to_nat i = Some x.
Proof.
  unfold zget. destruct (Z.leb_spec 0 i); [tauto|].
  split; [discriminate|]. intros [? _]. lia.
Qed.

Lemma zget_range l i x : zget l i = Some x → 0 ≤ i < Z.of_nat (length l).
Proof.
  rewrite zget_Some. intros [? H%lookup_lt_Some]. lia.
Qed.

Lemma zget_is_Some l i : 0 ≤ i < Z.of_nat (length l) → is_Some (zget l i).
Proof.
  intros H. unfold zget. destruct (Z.leb_spec 0 i); [|lia].
  apply lookup_lt_is_Some. lia.
Qed.

Lemma zget_None l i : ¬ 0 ≤ i < Z.of_nat (length l) → zget l i = None.
Proof.
  intros H. destruct (zget l i) eqn:E; [|done].
  apply zget_range in E. lia.
Qed.

Lemma length_zset l i x : length (zset l i x) = length l.
Proof. unfold zset. apply length_insert. Qed.

Lemma zget_zset_eq l i x y : zget l i = Some y → zget (zset l i x) i = Some x.
Proof.
  intros H. pose proof (zget_range _ _ _ H).
  apply zget_Some. split; [lia|].
  apply list_lookup_insert_eq. lia.
Qed.

Lemma zget_zset_same l i x :
  0 ≤ i < Z.of_nat (length l) → zget (zset l i x) i = Some x.
Proof.
  intros H. destruct (zget_is_Some l i H) as [y Hy]. by eapply zget_zset_eq.
Qed.

Lemma zget_zset_ne l i j x : 0 ≤ i → i ≠ j → zget (zset l i x) j = zget l j.
Proof.
  intros Hi Hne. unfold zget, zset.
  destruct (Z.leb_spec 0 j); [|done].
  apply list_lookup_insert_ne. lia.
Qed.

Lemma zget_zset l i j x y :
  zget l i = Some y →
  zget (zset l i x) j = if decide (i = j) then Some x else zget l j.
Proof.
  intros H. case_decide as E.
  - subst j. by eapply zget_zset_eq.
  - apply zget_zset_ne; [|done]. apply zget_range in H. lia.
Qed.

Lemma zget_zset_in l i j x :
  0 ≤ i < Z.of_nat (length l) →
  zget (zset l i x) j = if decide (j = i) then Some x else zget l j.
Proof.
  intros [y Hy]%zget_is_Some. rewrite (zget_zset _ _ _ _ _ Hy).
  by repeat case_decide.
Qed.

Lemma zset_zset l i x y : zset (zset l i x) i y = zset l i y.
Proof. unfold zset. apply list_insert_insert_eq. Qed.

Lemma zset_id l i x : zget l i = Some x → zset l i x = l.
Proof. rewrite zget_Some. intros [_ H]. unfold zset. by apply list_insert_id. Qed.
End Arrays.

Global Arguments zget : simpl never.
Global Arguments zset : simpl never.
Global Arguments to_int : simpl never.
Global Arguments to_unsigned : simpl never.

(** ** Circular lists threaded through the frames table *)

Section Rings.
Implicit Types (frt : list sframe) (l : list Z) (x y z : Z).

Lemma next_of_Some frt x y :
  next_of frt x = Some y ↔ ∃ fe, zget frt x = Some fe ∧ next fe = y.
Proof.
  unfold next_of. destruct (zget frt x) as [fe|]; simpl; split.
  - intros [= <-]. eauto.
  - intros (? & [= <-] & <-). done.
  - done.
  - intros (? & ? & _). done.
Qed.

Lemma chain_ext frt frt' x l z :
  (∀ y, y ∈ x :: l → next_of frt' y = next_of frt y) →
  chain frt x l z → chain frt' x l z.
Proof.
  revert x. induction l as [|y l IH]; intros x Hext; simpl.
  - rewrite Hext by set_solver. done.
  - rewrite Hext by set_solver. intros [? ?]. split; [done|].
    apply IH; [|done]. intros; apply Hext. set_solver.
Qed.

Lemma chain_in_range frt x l z y :
  chain frt x l z → y ∈ x :: l → is_Some (zget frt y).
Proof.
  revert x. induction l as [|w l IH]; intros x; simpl.
  - intros (fe & ? & _)%next_of_Some ?. assert (y = x) as -> by set_solver. eauto.
  - intros [(fe & ? & _)%next_of_Some ?] [->|?]%elem_of_cons; eauto.
Qed.

Lemma chain_snoc frt x l z w :
  chain frt x l z → next_of frt z = Some w → chain frt x (l ++ [z]) w.
Proof.
  revert x. induction l as [|y l IH]; intros x; simpl; [done|].
  intros [? ?] ?. auto.
Qed.

Lemma chain_last frt x l z k :
  chain frt x l z → last (x :: l) = Some k → next_of frt k = Some z.
Proof.
  revert x. induction l as [|y l IH]; intros x; simpl.
  - intros ? [= ->]. done.
  - intros [_ ?] ?. eauto.
Qed.

(** Redirecting the [next] field of the last frame of a chain. *)
Lemma chain_set_last frt frt' x l z z' k :
  chain frt x l z → NoDup (x :: l) → last (x :: l) = Some k →
  next_of frt' k = Some z' →
  (∀ y, y ∈ x :: l → y ≠ k → next_of frt' y = next_of frt y) →
  chain frt' x l z'.
Proof.
  revert x. induction l as [|y l IH]; intros x; simpl.
  - intros _ _ [= ->] ? _. done.
  - intros [Hx Hc] Hnd Hlast Hk Hext.
    apply NoDup_cons in Hnd as [Hxl Hnd].
    assert (k ∈ y :: l) by (apply last_Some_elem_of; by rewrite <- Hlast).
    split.
    + rewrite Hext; [done|set_solver|]. intros ->. done.
    + apply IH; auto. intros; apply Hext; [set_solver|done].
Qed.

Lemma walk_chain frt fuel tail x l z :
  chain frt x l z → NoDup (x :: l) → last (x :: l) = Some tail →
  (length l < fuel)%nat →
  walk frt fuel tail x = x :: l.
Proof.
  revert x fuel. induction l as [|y l IH]; intros x [|fuel]; simpl; try lia.
  - intros _ _ [= ->] _. by rewrite Z.eqb_refl.
  - intros [(fe & Hfe & <-)%next_of_Some Hc] Hnd Hlast Hlen.
    apply NoDup_cons in Hnd as [Hxl Hnd].
    assert (tail ∈ next fe :: l) by (apply last_Some_elem_of; by rewrite <- Hlast).
    destruct (Z.eqb_spec x tail) as [->|_]; [done|].
    rewrite Hfe. f_equal. apply IH; auto. lia.
Qed.

Lemma ring_in_range frt l tail y :
  ring frt l tail → y ∈ l → is_Some (zget frt y).
Proof.
  destruct l as [|h t]; simpl; [set_solver|].
  intros [Hc _]. by eapply chain_in_range.
Qed.

Lemma ring_tail frt l tail :
  ring frt l tail → l ≠ [] → tail ∈ l.
Proof.
  destruct l as [|h t]; [done|]. intros (_ & _ & Hl) _.
  by apply last_Some_elem_of.
Qed.

Lemma ring_NoDup frt l tail : ring frt l tail → NoDup l.
Proof. destruct l; [constructor|]. by intros (_ & ? & _). Qed.

(** The tail pointer is [-1] or a frame of the list. *)
Lemma ring_tail_cases frt l tail :
  ring frt l tail → tail = -1 ∧ l = [] ∨ tail ∈ l.
Proof.
  destruct l as [|h t]; [by left|]. intros Hr. right.
  by apply (ring_tail _ _ _ Hr).
Qed.

Lemma ring_tail_not_in frt l tail frt' l' tail' :
  ring frt l tail → ring frt' l' tail' →
  (∀ x, x ∈ l → x ∈ l' → False) →
  tail ∉ l'.
Proof.
  intros Hr Hr' Hdisj Hin.
  destruct (ring_tail_cases _ _ _ Hr) as [[-> _]|Htl].
  - destruct (ring_in_range _ _ _ _ Hr' Hin) as [fe Hfe%zget_range]. lia.
  - eauto.
Qed.

Lemma ring_length frt l tail :
  ring frt l tail → (length l ≤ length frt)%nat.
Proof.
  intros Hr.
  assert (Hsub : l ⊆+ seqZ 0 (Z.of_nat (length frt))).
  { apply NoDup_submseteq.
    - destruct l; [constructor|]. apply Hr.
    - intros y Hy. destruct (ring_in_range _ _ _ _ Hr Hy) as [fe Hfe].
      apply zget_range in Hfe. apply elem_of_seqZ. lia. }
  apply submseteq_length in Hsub. rewrite length_seqZ in Hsub. lia.
Qed.

(** The traversal of a well-formed circular list yields its frames. *)
Lemma circular_list_ring frt l tail :
  ring frt l tail → circular_list frt tail = l.
Proof.
  intros Hr. pose proof (ring_length _ _ _ Hr) as Hlen.
  unfold circular_list. destruct l as [|h t]; simpl in Hr.
  - subst. done.
  - destruct Hr as (Hc & Hnd & Hlast).
    assert (Htl : tail ∈ h :: t) by (by apply last_Some_elem_of).
    destruct (chain_in_range _ _ _ _ _ Hc Htl) as [fe Hfe].
    pose proof (zget_range _ _ _ Hfe).
    destruct (Z.eqb_spec tail (-1)) as [|_]; [lia|]. rewrite Hfe.
    assert (next fe = h) as ->.
    { pose proof (chain_last _ _ _ _ _ Hc Hlast) as Hn.
      unfold next_of in Hn. rewrite Hfe in Hn. by injection Hn. }
    simpl in Hlen. destruct (length frt) as [|m] eqn:E; [lia|].
    rewrite <- E. eapply walk_chain; eauto. lia.
Qed.
End Rings.

(** ** Well-formed systems *)

Section FrameTable.
Implicit Types (frt : list sframe) (fe : sframe) (i x : Z).

Lemma next_of_zset frt i fe x :
  0 ≤ i < Z.of_nat (length frt) →
  next_of (zset frt i fe) x = if decide (x = i) then Some (next fe) else next_of frt x.
Proof.
  intros [fe0 H]%zget_is_Some. unfold next_of. rewrite (zget_zset _ _ _ _ _ H).
  by repeat case_decide.
Qed.

Lemma page_at_zset frt i fe x :
  0 ≤ i < Z.of_nat (length frt) →
  page_at (zset frt i fe) x = if decide (x = i) then Some (page fe) else page_at frt x.
Proof.
  intros [fe0 H]%zget_is_Some. unfold page_at. rewrite (zget_zset _ _ _ _ _ H).
  by repeat case_decide.
Qed.

Lemma page_at_Some frt x q :
  page_at frt x = Some q ↔ ∃ fe, zget frt x = Some fe ∧ page fe = q.
Proof.
  unfold page_at. destruct (zget frt x) as [fe|]; simpl; split.
  - intros [= <-]. eauto.
  - intros (? & [= <-] & <-). done.
  - done.
  - intros (? & ? & _). done.
Qed.

Lemma page_at_is_Some frt x : is_Some (page_at frt x) ↔ is_Some (zget frt x).
Proof. unfold page_at. by rewrite fmap_is_Some. Qed.

Lemma next_of_is_Some frt x : is_Some (next_of frt x) ↔ is_Some (zget frt x).
Proof. unfold next_of. by rewrite fmap_is_Some. Qed.
End FrameTable.

Section RingOperations.
Implicit Types (frt : list sframe) (l t : list Z) (h x tail : Z).

Lemma ring_ext frt frt' l tail :
  (∀ x, x ∈ l → next_of frt' x = next_of frt x) →
  ring frt l tail → ring frt' l tail.
Proof.
  destruct l as [|h t]; simpl; [done|].
  intros Hext (Hc & ? & ?). split_and!; try done.
  by apply (chain_ext frt).
Qed.

(** The frame after the tail is the head. *)
Lemma ring_head frt h t tail :
  ring frt (h :: t) tail → next_of frt tail = Some h.
Proof. intros (Hc & _ & Hl). by eapply chain_last. Qed.

Lemma ring_second frt h y t tail :
  ring frt (h :: y :: t) tail → next_of frt h = Some y.
Proof. intros ([? _] & _ & _). done. Qed.

Lemma ring_singleton frt h tail : ring frt [h] tail → tail = h.
Proof. intros (_ & _ & [= ->]). done. Qed.

Lemma ring_tail_not_head frt h y t tail :
  ring frt (h :: y :: t) tail → tail ≠ h.
Proof.
  intros (_ & Hnd & Hl) ->. apply NoDup_cons in Hnd as [Hh _].
  apply Hh. apply last_Some_elem_of. by rewrite <- Hl.
Qed.

(** Taking the head out of a list by redirecting the tail. *)
Lemma ring_pop frt frt' h y t tail :
  ring frt (h :: y :: t) tail →
  next_of frt' tail = Some y →
  (∀ x, x ∈ y :: t → x ≠ tail → next_of frt' x = next_of frt x) →
  ring frt' (y :: t) tail.
Proof.
  intros ([Hh Hc] & Hnd & Hl) Htail Hext.
  apply NoDup_cons in Hnd as [_ Hnd]. simpl.
  split_and!; [|done|done].
  eapply chain_set_last; eauto.
Qed.

(** Appending a frame after the tail. *)
Lemma ring_push frt frt' l tail h :
  ring frt l tail → h ∉ l →
  next_of frt' h = Some (default h (head l)) →
  (l ≠ [] → next_of frt' tail = Some h) →
  (∀ x, x ∈ l → x ≠ tail → next_of frt' x = next_of frt x) →
  ring frt' (l ++ [h]) h.
Proof.
  destruct l as [|a l]; simpl.
  - intros _ _ Hh _ _. split_and!; [done|apply NoDup_singleton|done].
  - intros (Hc & Hnd & Hl) Hnotin Hh Htail Hext. split_and!.
    + apply chain_snoc; [|done].
      eapply chain_set_last; eauto.
    + change (NoDup ((a :: l) ++ [h])). apply NoDup_app. split_and!.
      * done.
      * intros x Hx ->%list_elem_of_singleton. done.
      * apply NoDup_singleton.
    + change (last ((a :: l) ++ [h]) = Some h). apply last_snoc.
Qed.

(** Moving the tail pointer one frame on: the head becomes the newest. *)
Lemma ring_rotate frt h t tail :
  ring frt (h :: t) tail → ring frt (t ++ [h]) h.
Proof.
  destruct t as [|y t]; simpl.
  - intros (? & ? & _). done.
  - intros ([Hh Hc] & Hnd & _). split_and!.
    + by apply chain_snoc.
    + change (NoDup ((y :: t) ++ [h])).
      eapply NoDup_Permutation_proper; [|exact Hnd].
      by rewrite <- Permutation_cons_append.
    + change (last ((y :: t) ++ [h]) = Some h). apply last_snoc.
Qed.
End RingOperations.

Global Arguments ring : simpl never.
Global Arguments chain : simpl never.

(** Read [next] and [page] through the stores made to the frames table. *)
Ltac frt_simpl :=
  rewrite ?next_of_zset, ?page_at_zset by (rewrite ?length_zset; lia);
  cbn [next page set_next set_page].

(** ** Residency under the updates the fault handler makes *)

Section Residency.
Implicit Types (pgt : list spage) (frt : list sframe).

(** Updates that keep [present] and [frame] of every entry. *)
Lemma resident_touch pgt pgt' frt frt' :
  resident pgt frt →
  (∀ p e', zget pgt' p = Some e' →
     ∃ e, zget pgt p = Some e ∧ present e = present e' ∧ frame e = frame e') →
  (∀ p e, zget pgt p = Some e →
     ∃ e', zget pgt' p = Some e' ∧ present e' = present e ∧ frame e' = frame e) →
  (∀ f, page_at frt' f = page_at frt f) →
  resident pgt' frt'.
Proof.
  intros [H1 H2] Hback Hforth Hfrt. split.
  - intros p e' He' Hpr. destruct (Hback _ _ He') as (e & He & Hp & Hf).
    rewrite Hfrt, <- Hf. apply H1; [done|congruence].
  - intros f q Hq Hne. rewrite Hfrt in Hq.
    destruct (H2 _ _ Hq Hne) as (e & He & Hp & Hf).
    destruct (Hforth _ _ He) as (e' & He' & Hp' & Hf').
    exists e'. split_and!; [done|congruence|congruence].
Qed.

(** Loading page [p] into the free frame [h]. *)
Lemma resident_install pgt pgt' frt frt' p h e' :
  resident pgt frt →
  0 ≤ p → (∀ e, zget pgt p = Some e → present e = 0) →
  page_at frt h = Some (-1) →
  (∀ q, zget pgt' q = if decide (q = p) then Some e' else zget pgt q) →
  present e' ≠ 0 → frame e' = h →
  (∀ f, page_at frt' f = if decide (f = h) then Some p else page_at frt f) →
  resident pgt' frt'.
Proof.
  intros [H1 H2] Hp Habs Hfree Hpgt Hpr' Hfr' Hfrt. split.
  - intros q e. rewrite Hpgt, Hfrt. case_decide as Hq.
    + intros [= <-] _. subst. by rewrite decide_True.
    + intros He Hpr. pose proof (H1 _ _ He Hpr) as Hat.
      rewrite decide_False; [done|]. intros Heq. rewrite Heq, Hfree in Hat.
      apply zget_range in He. injection Hat. lia.
  - intros f q. rewrite Hfrt. case_decide as Hf.
    + intros [= <-] _. exists e'. rewrite Hpgt, decide_True by done. by subst.
    + intros Hq Hne. destruct (H2 _ _ Hq Hne) as (e & He & Hpr & Hfe).
      exists e. rewrite Hpgt. rewrite decide_False; [done|].
      intros ->. apply Habs in He. done.
Qed.

(** Replacing the present page [v], held in frame [h], by page [p]. *)
Lemma resident_replace pgt pgt' frt frt' v p h ev ev' e' :
  resident pgt frt →
  zget pgt v = Some ev → present ev ≠ 0 → frame ev = h →
  0 ≤ p → (∀ e, zget pgt p = Some e → present e = 0) →
  (∀ q, zget pgt' q =
          if decide (q = p) then Some e'
          else if decide (q = v) then Some ev' else zget pgt q) →
  present ev' = 0 → present e' ≠ 0 → frame e' = h →
  (∀ f, page_at frt' f = if decide (f = h) then Some p else page_at frt f) →
  resident pgt' frt'.
Proof.
  intros [H1 H2] Hv Hprv Hfrv Hp Habs Hpgt Hev' Hpr' Hfr' Hfrt.
  pose proof (H1 _ _ Hv Hprv) as Hath. rewrite Hfrv in Hath. split.
  - intros q e. rewrite Hpgt, Hfrt. case_decide as Hq.
    + intros [= <-] _. subst. by rewrite decide_True.
    + case_decide as Hqv.
      * intros [= <-]. done.
      * intros He Hpr. pose proof (H1 _ _ He Hpr) as Hat.
        rewrite decide_False; [done|]. intros Heq. congruence.
  - intros f q. rewrite Hfrt. case_decide as Hf.
    + intros [= <-] _. exists e'. rewrite Hpgt, decide_True by done. by subst.
    + intros Hq Hne. destruct (H2 _ _ Hq Hne) as (e & He & Hpr & Hfe).
      exists e. rewrite Hpgt.
      rewrite decide_False; [|intros ->; apply Habs in He; done].
      rewrite decide_False; [done|]. intros ->. congruence.
Qed.
End Residency.

(** ** Running the simulation functions *)

Lemma sim_bind_Some {A B} (m : Sim A) (f : A → Sim B) S b S2 o :
  (m ≫= f) S = Some (b, S2, o) ↔
  ∃ a S1 o1 o2, m S = Some (a, S1, o1) ∧ f a S1 = Some (b, S2, o2) ∧ o = o1 ++ o2.
Proof.
  unfold mbind, sim_bind. split.
  - destruct (m S) as [[[a S1] o1]|]; [|done].
    destruct (f a S1) as [[[b' S2'] o2]|] eqn:E; [|done].
    intros [= -> -> <-]. by exists a, S1, o1, o2.
  - intros (a & S1 & o1 & o2 & -> & -> & ->). done.
Qed.

Lemma sim_bind_eq {A B} (m : Sim A) (f : A → Sim B) S a S1 o1 :
  m S = Some (a, S1, o1) →
  (m ≫= f) S = match f a S1 with
               | None => None
               | Some (b, S2, o2) => Some (b, S2, o1 ++ o2)
               end.
Proof. intros H. unfold mbind, sim_bind. by rewrite H. Qed.

Global Arguments FIFO.reference_page : simpl never.
Global Arguments FIFO.choose_page_to_be_replaced : simpl never.
Global Arguments FIFO.replace_page : simpl never.
Global Arguments FIFO.occupy_free_frame : simpl never.
Global Arguments LRU.reference_page : simpl never.
Global Arguments LRU.choose_page_to_be_replaced : simpl never.
Global Arguments LRU.replace_page : simpl never.
Global Arguments LRU.occupy_free_frame : simpl never.

(** Unfold the monad and evaluate, reading back the entries just stored. *)
Ltac sim_unfold :=
  unfold mbind, sim_bind, mret, sim_ret, load_pgt, store_pgt, load_frt,
    store_frt, gets, modify, when, emit, udiv, umod, undefined.

Ltac note_ranges :=
  repeat match goal with
  | H : zget ?l ?i = Some _ |- _ =>
      lazymatch goal with
      | _ : 0 ≤ i < Z.of_nat (length l) |- _ => fail
      | _ => pose proof (zget_range _ _ _ H)
      end
  end.

Ltac sim_step :=
  cbn;
  repeat match goal with
  | |- context [zget (zset ?l ?i ?x) ?i] =>
      rewrite (zget_zset_same l i x) by (rewrite ?length_zset; lia)
  | |- context [zset (zset ?l ?i ?x) ?i ?y] => rewrite (zset_zset l i x y)
  | H : zget ?l ?i = _ |- context [zget ?l ?i] => rewrite H
  | H : truthy ?x = _ |- context [truthy ?x] => rewrite H
  | H : ?i ≠ ?j |- context [zget (zset ?l ?i ?x) ?j] =>
      rewrite (zget_zset_ne l i j x) by (done || lia)
  | H : ?j ≠ ?i |- context [zget (zset ?l ?i ?x) ?j] =>
      rewrite (zget_zset_ne l i j x) by (done || lia)
  end.

Ltac sim_run := sim_unfold; repeat (progress sim_step).

(** The same, splitting on the truth values tested on the way. *)
Ltac sim_cases :=
  note_ranges;
  repeat (sim_run;
          match goal with
          | |- context [truthy ?x] => destruct (truthy x) eqn:?
          end);
  sim_run.

Lemma config_pagsz S : config_ok S → to_unsigned (pagsz S) = pagsz S.
Proof.
  intros [? _ _ _ _]. apply to_unsigned_small.
  unfold INT_MAX, UINT_MAX in *. lia.
Qed.

Lemma page_index_legal S va :
  config_ok S → 0 ≤ va ≤ UINT_MAX →
  page_index S va = to_int (va / pagsz S) ∧
  page_offset S va = va mod pagsz S ∧
  (((page_index S va <? 0) || (page_index S va >=? numpags S)) = false ↔
     0 ≤ va / pagsz S < numpags S).
Proof.
  intros Hc Hva. unfold page_index, page_offset. rewrite (config_pagsz _ Hc).
  destruct Hc as [Hsz Hnp _ _ _]. unfold INT_MAX, UINT_MAX in *.
  assert (0 ≤ va / pagsz S ≤ va).
  { split; [apply Z.div_pos; lia|]. apply Z.div_le_upper_bound; nia. }
  pose proof (Z.mod_pos_bound va (pagsz S)).
  split_and!.
  - done.
  - apply to_int_small. unfold INT_MIN, INT_MAX. lia.
  - rewrite orb_false_iff, Z.ltb_ge, Z.geb_leb, Z.leb_gt.
    destruct (decide (va / pagsz S ≤ INT_MAX)) as [Hle|Hgt].
    + rewrite to_int_small by (unfold INT_MIN, INT_MAX in *; lia). lia.
    + unfold INT_MAX in *. unfold to_int.
      replace ((va / pagsz S + 2147483648) mod 4294967296)
        with (va / pagsz S + 2147483648 - 4294967296).
      * lia.
      * apply Z.mod_unique with (q := 1); lia.
Qed.

(** ** The fault handler and the MMU, for any policy *)

Section KernelFacts.
Variable choose_page_to_be_replaced : Sim Z.
Variable replace_page : Z → Z → Sim unit.
Variable occupy_free_frame : Z → Z → Sim unit.

Let handle_page_fault :=
  Header.handle_page_fault choose_page_to_be_replaced replace_page occupy_free_frame.

(** With a free frame the handler unlinks the head of the free list and
    hands it to [occupy_free_frame]. *)
Lemma hpf_free_branch S va h t :
  config_ok S → 
  ring (frt S) (h :: t) (listfree S) →
  ∃ S1 o1,
    (handle_page_fault va S =
       match occupy_free_frame h (page_index S va) S1 with
       | Some (b, S2, o2) => Some (b, S2, o1 ++ o2)
       | None => None
       end) ∧
    (S1 = with_listfree (listfree S1)
            (with_frt (frt S1)
               (with_numpagefaults (to_int (numpagefaults S + 1)) S))) ∧
    length (frt S1) = length (frt S) ∧
    (∀ x, page_at (frt S1) x = page_at (frt S) x) ∧
    (∀ x, x ≠ listfree S → next_of (frt S1) x = next_of (frt S) x) ∧
    ring (frt S1) t (listfree S1).
Proof.
  intros Hc Hr.
  pose proof (ring_head _ _ _ _ Hr) as (fl & Hfl & Hn)%next_of_Some.
  assert (Hh : is_Some (zget (frt S) h)).
  { eapply ring_in_range; [exact Hr|set_solver]. }
  destruct Hh as [fh Hfh]. note_ranges.
  assert (Hsz : (to_unsigned (pagsz S) =? 0) = false).
  { rewrite (config_pagsz _ Hc). destruct Hc. lia. }
  assert (Hlf : (listfree S =? -1) = false) by lia.
  unfold handle_page_fault, Header.handle_page_fault.
  destruct (truthy (detailed S)) eqn:Hd.
  all: sim_run; rewrite Hsz; sim_run; rewrite Hlf; sim_run; rewrite Hn.
  all: destruct t as [|y t].
  1,3: pose proof (ring_singleton _ _ _ Hr) as Heq; rewrite Heq, Z.eqb_refl;
       sim_run.
  1,2: exists (with_listfree (-1)
                 (with_numpagefaults (to_int (numpagefaults S + 1)) S)),
         (if truthy (detailed S) then [out_page_fault (page_index S va)] else []).
  1,2: rewrite Hd; split;
       [unfold page_index;
        destruct (occupy_free_frame _ _ _) as [[[b S2] o2]|]; reflexivity|].
  1,2: by cbn.
  all: pose proof (ring_tail_not_head _ _ _ _ _ Hr) as Hne.
  all: pose proof (ring_second _ _ _ _ _ Hr) as Hy.
  all: pose proof Hy as (fh' & Hfh' & Hny)%next_of_Some.
  all: assert (fh' = fh) as -> by congruence.
  all: rewrite (proj2 (Z.eqb_neq _ _)) by lia; sim_run; rewrite Hny.
  all: exists (with_frt (zset (frt S) (listfree S) (set_next y fl))
                 (with_numpagefaults (to_int (numpagefaults S + 1)) S)),
         (if truthy (detailed S) then [out_page_fault (page_index S va)] else []).
  all: rewrite Hd; split;
       [unfold page_index;
        destruct (occupy_free_frame _ _ _) as [[[b S2] o2]|]; reflexivity|].
  all: cbn.
  all: refine (conj _ (conj _ (conj _ (conj _ _))));
       [done|by rewrite length_zset| | |].
  1,4: intros x; frt_simpl; case_decide; [subst|done];
       unfold page_at; by rewrite Hfl.
  1,3: intros x ?; frt_simpl; by rewrite decide_False.
  all: eapply ring_pop; [exact Hr| |].
  1,3: frt_simpl; by rewrite decide_True.
  all: intros x _ ?; frt_simpl; by rewrite decide_False.
Qed.

(** Without one it replaces the page [choose_page_to_be_replaced] names. *)
Lemma hpf_evict_branch S va :
  config_ok S → listfree S = -1 →
  ∃ o1,
    handle_page_fault va S =
      match (victim ← choose_page_to_be_replaced ;
             replace_page victim (page_index S va))
              (with_numpagefaults (to_int (numpagefaults S + 1)) S) with
      | Some (b, S2, o2) => Some (b, S2, o1 ++ o2)
      | None => None
      end.
Proof.
  intros Hc Hlf.
  assert (Hsz : (to_unsigned (pagsz S) =? 0) = false).
  { rewrite (config_pagsz _ Hc). destruct Hc. lia. }
  unfold handle_page_fault, Header.handle_page_fault.
  destruct (truthy (detailed S)) eqn:Hd.
  all: sim_run; rewrite Hsz; sim_run; rewrite Hlf; sim_run.
  all: exists (if truthy (detailed S) then [out_page_fault (page_index S va)] else []).
  all: rewrite Hd; unfold page_index.
  all: destruct (choose_page_to_be_replaced _) as [[[v S2] o2]|]; [|reflexivity].
  all: destruct (replace_page _ _ _) as [[[b S3] o3]|]; reflexivity.
Qed.

Variable reference_page : Z → ascii → Sim unit.

Let sim_mmu :=
  Header.sim_mmu reference_page choose_page_to_be_replaced replace_page
    occupy_free_frame.

Lemma sim_mmu_illegal S va op :
  config_ok S → 0 ≤ va ≤ UINT_MAX →
  ¬ 0 ≤ va / pagsz S < numpags S →
  sim_mmu va op S =
    Some (UINT_MAX, with_numillegalrefs (to_int (numillegalrefs S + 1)) S, []).
Proof.
  intros Hc Hva Hill.
  destruct (page_index_legal S va Hc Hva) as (_ & _ & Hlegal).
  assert (Hsz : (to_unsigned (pagsz S) =? 0) = false).
  { rewrite (config_pagsz _ Hc). destruct Hc. lia. }
  unfold sim_mmu, Header.sim_mmu. sim_run. rewrite Hsz. sim_run.
  fold (page_index S va).
  apply proj1 in Hlegal.
  destruct ((page_index S va <? 0) || (page_index S va >=? numpags S)).
  - done.
  - destruct Hill. by apply Hlegal.
Qed.

Lemma sim_mmu_present S va op e :
  config_ok S → 0 ≤ va ≤ UINT_MAX →
  zget (pgt S) (page_index S va) = Some e → present e ≠ 0 →
  sim_mmu va op S =
    match reference_page (page_index S va) op S with
    | Some (_, S', o) => Some (physical S e va, S', o ++ access_line S S' e va op)
    | None => None
    end.
Proof.
  intros Hc Hva He Hpr.
  destruct (page_index_legal S va Hc Hva) as (Hp & _ & Hlegal).
  assert (Hsz : (to_unsigned (pagsz S) =? 0) = false).
  { rewrite (config_pagsz _ Hc). destruct Hc. lia. }
  assert (Hin : ((page_index S va <? 0) || (page_index S va >=? numpags S)) = false).
  { apply zget_range in He. destruct Hc. lia. }
  assert (Ht : truthy (present e) = true).
  { unfold truthy. by rewrite (proj2 (Z.eqb_neq _ _)). }
  unfold sim_mmu, Header.sim_mmu. sim_run. rewrite Hsz. sim_run.
  fold (page_index S va) (page_offset S va). rewrite Hin. sim_run.
  unfold physical, access_line.
  destruct (reference_page _ _ _) as [[[[] S'] o]|]; [|done].
  sim_run. destruct (truthy (detailed S')); sim_run; by rewrite ?app_nil_r.
Qed.

Lemma sim_mmu_absent S va op e :
  config_ok S → 0 ≤ va ≤ UINT_MAX →
  zget (pgt S) (page_index S va) = Some e → present e = 0 →
  sim_mmu va op S =
    match handle_page_fault va S with
    | Some (_, S1, o1) =>
        match zget (pgt S1) (page_index S va) with
        | Some e' =>
            match reference_page (page_index S va) op S1 with
            | Some (_, S', o) =>
                Some (to_unsigned
                        (to_int (to_int (frame e' * pagsz S1) + page_offset S va)),
                      S', o1 ++ o ++ access_line S S' e' va op)
            | None => None
            end
        | None => None
        end
    | None => None
    end.
Proof.
  intros Hc Hva He Hpr.
  destruct (page_index_legal S va Hc Hva) as (Hp & _ & Hlegal).
  assert (Hsz : (to_unsigned (pagsz S) =? 0) = false).
  { rewrite (config_pagsz _ Hc). destruct Hc. lia. }
  assert (Hin : ((page_index S va <? 0) || (page_index S va >=? numpags S)) = false).
  { apply zget_range in He. destruct Hc. lia. }
  assert (Ht : truthy (present e) = false).
  { unfold truthy. by rewrite Hpr. }
  unfold sim_mmu, Header.sim_mmu. sim_run. rewrite Hsz. sim_run.
  fold (page_index S va) (page_offset S va). rewrite Hin. sim_run.
  fold handle_page_fault.
  destruct (handle_page_fault va S) as [[[[] S1] o1]|]; [|done].
  sim_run. destruct (zget (pgt S1) _) as [e'|]; [|done]. sim_run.
  unfold physical, access_line.
  destruct (reference_page _ _ _) as [[[[] S'] o]|]; [|done].
  sim_run. destruct (truthy (detailed S')); sim_run; by rewrite ?app_nil_r.
Qed.
End KernelFacts.

(** ** The FIFO policy functions *)

Lemma fifo_choose_spec S h t fh :
  ring (frt S) (h :: t) (listoccupied S) → zget (frt S) h = Some fh →
  ∃ out, FIFO.choose_page_to_be_replaced S = Some (page fh, S, out).
Proof.
  intros Hr Hh. pose proof (ring_head _ _ _ _ Hr) as (fl & Hfl & Hn)%next_of_Some.
  unfold FIFO.choose_page_to_be_replaced. sim_run. rewrite Hn. sim_run.
  destruct (truthy _); sim_run; eauto.
Qed.

Lemma fifo_replace_spec S v p ev e fe :
  zget (pgt S) v = Some ev → zget (pgt S) p = Some e → v ≠ p →
  zget (frt S) (frame ev) = Some fe →
  ∃ out, FIFO.replace_page v p S =
    Some (tt,
          with_listoccupied (frame ev)
            (with_frt (zset (frt S) (frame ev) (set_page p fe))
               (with_pgt (zset (zset (pgt S) v
                                  (mk_spage 0 (-1) 0 (referenced ev) (timestamp ev)))
                            p (mk_spage 1 (frame ev) 0 0 0))
                  (with_numpgwriteback
                     (if truthy (modified ev) then to_int (numpgwriteback S + 1)
                      else numpgwriteback S) S))), out).
Proof.
  intros Hv Hp Hne Hf. unfold FIFO.replace_page. sim_run.
  sim_cases; eauto.
Qed.

Lemma fifo_occupy_spec S f p e fe o :
  zget (pgt S) p = Some e → zget (frt S) f = Some fe →
  ring (frt S) o (listoccupied S) → f ∉ o →
  ∃ frt' out,
    FIFO.occupy_free_frame f p S =
      Some (tt, with_listoccupied f
                  (with_frt frt'
                     (with_pgt (zset (pgt S) p (mk_spage 1 f 0 0 0)) S)), out) ∧
    length frt' = length (frt S) ∧
    (∀ x, page_at frt' x = if decide (x = f) then Some p else page_at (frt S) x) ∧
    (∀ x, x ≠ f → x ≠ listoccupied S → next_of frt' x = next_of (frt S) x) ∧
    ring frt' (o ++ [f]) f.
Proof.
  intros Hp Hf Hr Hfo. unfold FIFO.occupy_free_frame.
  note_ranges.
  destruct (truthy (detailed S)) eqn:Hd.
  all: destruct o as [|a o].
  1,3: pose proof Hr as Hlo; unfold ring in Hlo; sim_run; rewrite Hlo; sim_run.
  1,2: eexists _, _; split; [reflexivity|].
  1,2: refine (conj _ (conj _ (conj _ _)));
       [by rewrite length_zset|intros x; by frt_simpl|
         intros x ? ?; frt_simpl; by rewrite decide_False|].
  1,2: apply (ring_push (frt S) _ [] (listoccupied S)); [done|done| |done|set_solver].
  1,2: frt_simpl; by rewrite decide_True.
  all: pose proof (ring_head _ _ _ _ Hr) as (fo & Hfo' & Hn)%next_of_Some.
  all: assert (listoccupied S ≠ f) by
         (intros <-; apply Hfo; by eapply (ring_tail _ _ _ Hr)).
  all: note_ranges.
  all: sim_run; rewrite (proj2 (Z.eqb_neq _ _)) by lia; sim_run.
  all: eexists _, _; split; [reflexivity|].
  all: refine (conj _ (conj _ (conj _ _))); [by rewrite !length_zset| | |].
  1,4: intros x; frt_simpl; repeat case_decide; subst; try done;
       unfold page_at; by rewrite Hfo'.
  1,3: intros x ? ?; frt_simpl; by rewrite !decide_False.
  all: apply (ring_push (frt S) _ (a :: o) (listoccupied S) f); [done|done| | |].
  1,4: frt_simpl; rewrite decide_False, decide_True by done; simpl; by rewrite Hn.
  1,3: intros _; frt_simpl; by rewrite decide_True.
  all: intros x Hx ?; frt_simpl; rewrite !decide_False; [done| |done];
       intros ->; done.
Qed.

(** ** Page faults under FIFO *)

Lemma same_setup_config S S' : same_setup S S' → config_ok S → config_ok S'.
Proof.
  intros (? & ? & ? & ? & ? & ?) [? ? ? ? ?].
  split; congruence.
Qed.

Lemma same_setup_refl S : same_setup S S.
Proof. by repeat split. Qed.

Lemma same_setup_trans S1 S2 S3 :
  same_setup S1 S2 → same_setup S2 S3 → same_setup S1 S3.
Proof.
  intros (? & ? & ? & ? & ? & ?) (? & ? & ? & ? & ? & ?).
  repeat split; congruence.
Qed.

Lemma free_is_page frt lf l x :
  free_is frt lf l → x ∈ l → page_at frt x = Some (-1).
Proof.
  intros [Hr Hm] Hx. destruct (ring_in_range _ _ _ _ Hr Hx) as [fe Hfe].
  assert (Hq : page_at frt x = Some (page fe)) by (unfold page_at; by rewrite Hfe).
  rewrite Hq. f_equal. by apply (Hm _ _ Hq).
Qed.

Lemma occupied_is_page frt lo o x :
  occupied_is frt lo o → x ∈ o → ∃ q, page_at frt x = Some q ∧ q ≠ -1.
Proof.
  intros [Hr Hm] Hx. destruct (ring_in_range _ _ _ _ Hr Hx) as [fe Hfe].
  assert (Hq : page_at frt x = Some (page fe)) by (unfold page_at; by rewrite Hfe).
  exists (page fe). split; [done|]. by apply (Hm _ _ Hq).
Qed.

Lemma free_occupied_disjoint frt lf lo l o x :
  free_is frt lf l → occupied_is frt lo o → x ∈ l → x ∈ o → False.
Proof.
  intros Hf Ho Hl Hx. pose proof (free_is_page _ _ _ _ Hf Hl) as H1.
  destruct (occupied_is_page _ _ _ _ Ho Hx) as (q & H2 & Hne). congruence.
Qed.

Lemma fifo_fault_free S va h t o e :
  fifo_state S (h :: t) o → 0 ≤ va ≤ UINT_MAX →
  zget (pgt S) (page_index S va) = Some e → present e = 0 →
  ∃ S' out,
    FIFO.handle_page_fault va S = Some (tt, S', out) ∧
    fifo_state S' t (o ++ [h]) ∧
    same_setup S S' ∧
    pgt S' = zset (pgt S) (page_index S va) (mk_spage 1 h 0 0 0) ∧
    (∀ x, page_at (frt S') x =
            if decide (x = h) then Some (page_index S va) else page_at (frt S) x) ∧
    clock S' = clock S ∧
    counters S' = (numrefsread S, numrefswrite S, to_int (numpagefaults S + 1),
                   numpgwriteback S, numillegalrefs S).
Proof.
  intros (Hc & Hres & Hfree & Hocc) Hva He Hpr.
  set (p := page_index S va) in *.
  destruct (hpf_free_branch FIFO.choose_page_to_be_replaced FIFO.replace_page
              FIFO.occupy_free_frame S va h t Hc (proj1 Hfree))
    as (S1 & o1 & Hrun & HS1 & Hlen1 & Hpage1 & Hnext1 & Hring1).
  fold p in Hrun.
  assert (Hlf : listfree S ∈ h :: t) by (eapply ring_tail; [apply Hfree|done]).
  assert (Hh : h ∈ h :: t) by set_solver.
  assert (Hho : h ∉ o).
  { intros Hx. exact (free_occupied_disjoint _ _ _ _ _ _ Hfree Hocc Hh Hx). }
  assert (Hht : h ∉ t).
  { pose proof (ring_NoDup _ _ _ (proj1 Hfree)) as Hnd.
    by apply NoDup_cons in Hnd as [? _]. }
  assert (Hlot : listoccupied S ∉ t).
  { eapply (ring_tail_not_in _ o _ _ t); [apply Hocc|exact Hring1|].
    intros x Hxo Hxt. apply (free_occupied_disjoint _ _ _ _ _ x Hfree Hocc); set_solver. }
  assert (Hpgt1 : pgt S1 = pgt S) by (by rewrite HS1).
  assert (Hlo1 : listoccupied S1 = listoccupied S) by (by rewrite HS1).
  destruct (ring_in_range _ _ _ _ (proj1 Hfree) Hh) as [fh Hfh].
  assert (Hfh1 : is_Some (zget (frt S1) h)).
  { apply zget_is_Some. apply zget_range in Hfh. lia. }
  destruct Hfh1 as [fh1 Hfh1].
  assert (Hro1 : ring (frt S1) o (listoccupied S1)).
  { rewrite Hlo1. eapply ring_ext; [|apply Hocc].
    intros x Hx. apply Hnext1. intros ->.
    exact (free_occupied_disjoint _ _ _ _ _ _ Hfree Hocc Hlf Hx). }
  assert (He1 : zget (pgt S1) p = Some e) by (by rewrite Hpgt1).
  destruct (fifo_occupy_spec S1 h p e fh1 o He1 Hfh1 Hro1 Hho)
    as (frt' & o2 & Hocc2 & Hlen2 & Hpage2 & Hnext2 & Hring2).
  rewrite Hocc2 in Hrun. eexists _, _. split; [exact Hrun|].
  assert (Hpage : ∀ x, page_at frt' x =
                       if decide (x = h) then Some p else page_at (frt S) x).
  { intros x. rewrite Hpage2. case_decide; [done|apply Hpage1]. }
  assert (Hp0 : 0 ≤ p) by (apply zget_range in He; lia).
  rewrite HS1. unfold fifo_state, same_setup, counters. cbn.
  refine (conj _ (conj _ (conj _ (conj _ (conj _ _)))));
    [|repeat split; rewrite ?length_zset; congruence|done|exact Hpage|done|done].
  split_and!.
  - split; cbn; rewrite ?length_zset; try apply Hc; destruct Hc; congruence.
  - eapply (resident_install _ _ _ _ p h); try exact Hres; eauto.
    + intros e0 He0. congruence.
    + by eapply free_is_page.
    + intros q. by rewrite zget_zset_in by (apply zget_range in He; lia).
    + done.
    + done.
  - split.
    + eapply ring_ext; [|exact Hring1]. intros x Hx. apply Hnext2.
      * intros ->. done.
      * rewrite Hlo1. intros ->. done.
    + intros f q. rewrite Hpage. case_decide as Hf.
      * intros [= <-]. subst f. split; [done|lia].
      * intros Hq. rewrite <- (proj2 Hfree _ _ Hq). set_solver.
  - split; [done|].
    intros f q. rewrite Hpage. case_decide as Hf.
    + intros [= <-]. subst f. split; [lia|set_solver].
    + intros Hq. rewrite <- (proj2 Hocc _ _ Hq). set_solver.
Qed.

Lemma fifo_fault_evict S va h t e :
  fifo_state S [] (h :: t) → 0 ≤ va ≤ UINT_MAX →
  zget (pgt S) (page_index S va) = Some e → present e = 0 →
  ∃ fh ev S' out,
    zget (frt S) h = Some fh ∧ zget (pgt S) (page fh) = Some ev ∧
    present ev ≠ 0 ∧ frame ev = h ∧
    FIFO.handle_page_fault va S = Some (tt, S', out) ∧
    S' = with_listoccupied h
           (with_frt (zset (frt S) h (set_page (page_index S va) fh))
              (with_pgt
                 (zset (zset (pgt S) (page fh)
                          (mk_spage 0 (-1) 0 (referenced ev) (timestamp ev)))
                    (page_index S va) (mk_spage 1 h 0 0 0))
                 (with_numpgwriteback
                    (if truthy (modified ev) then to_int (numpgwriteback S + 1)
                     else numpgwriteback S)
                    (with_numpagefaults (to_int (numpagefaults S + 1)) S)))) ∧
    fifo_state S' [] (t ++ [h]).
Proof.
  intros (Hc & Hres & Hfree & Hocc) Hva He Hpr.
  set (p := page_index S va) in *.
  assert (Hlf : listfree S = -1) by apply Hfree.
  destruct (hpf_evict_branch FIFO.choose_page_to_be_replaced FIFO.replace_page
              FIFO.occupy_free_frame S va Hc Hlf) as (o1 & Hrun).
  fold p in Hrun.
  assert (Hh : h ∈ h :: t) by set_solver.
  destruct (occupied_is_page _ _ _ _ Hocc Hh) as (v & Hv & Hvne).
  pose proof Hv as (fh & Hfh & Hpv)%page_at_Some.
  destruct (proj2 Hres _ _ Hv Hvne) as (ev & Hev & Hprv & Hfrv).
  assert (Hvp : v ≠ p) by (intros ->; congruence).
  set (S1 := with_numpagefaults (to_int (numpagefaults S + 1)) S) in *.
  destruct (fifo_choose_spec S1 h t fh (proj1 Hocc) Hfh) as (o2 & Hch).
  rewrite Hpv in Hch.
  assert (Hfh' : zget (frt S1) (frame ev) = Some fh) by (by rewrite Hfrv).
  destruct (fifo_replace_spec S1 v p ev e fh Hev He Hvp Hfh') as (o3 & Hrp).
  unfold mbind, sim_bind in Hrun. rewrite Hch, Hrp in Hrun.
  eexists fh, ev, _, (o1 ++ o2 ++ o3). rewrite Hpv.
  refine (conj _ (conj _ (conj _ (conj _ (conj _ (conj eq_refl _))))));
    try done.
  { unfold FIFO.handle_page_fault. rewrite Hrun. by rewrite Hfrv. }
  assert (Hp0 : 0 ≤ p) by (apply zget_range in He; lia).
  note_ranges.
  assert (Hpage : ∀ x, page_at (zset (frt S) h (set_page p fh)) x =
                       if decide (x = h) then Some p else page_at (frt S) x).
  { intros x. by frt_simpl. }
  assert (Hnext : ∀ x, next_of (zset (frt S) h (set_page p fh)) x = next_of (frt S) x).
  { intros x. frt_simpl. case_decide; [subst|done]. unfold next_of. by rewrite Hfh. }
  unfold fifo_state. cbn. split_and!.
  - destruct Hc. split; cbn; rewrite ?length_zset; done.
  - eapply (resident_replace _ _ _ _ v p h ev
              (mk_spage 0 (-1) 0 (referenced ev) (timestamp ev))
              (mk_spage 1 h 0 0 0)); try exact Hres; try done.
    + intros e0 He0. congruence.
    + intros q. by rewrite !zget_zset_in by (rewrite ?length_zset; lia).
  - split; [done|]. intros f q. rewrite Hpage. case_decide.
    + intros [= <-]. split; [set_solver|lia].
    + apply Hfree.
  - split.
    + eapply ring_ext; [|eapply ring_rotate, Hocc]. intros x _. apply Hnext.
    + intros f q. rewrite Hpage. case_decide as Hf.
      * intros [= <-]. subst f. split; [lia|set_solver].
      * intros Hq. rewrite <- (proj2 Hocc _ _ Hq). set_solver.
Qed.

(** ** References under FIFO *)

Lemma fifo_reference_spec S p op e :
  zget (pgt S) p = Some e →
  FIFO.reference_page p op S = Some (tt, fifo_referenced S p op e, []).
Proof.
  intros He. unfold FIFO.reference_page, fifo_referenced.
  destruct (Ascii.eqb op "R"); [done|].
  destruct (Ascii.eqb op "W"); [|done]. by sim_run.
Qed.

(** A state that differs in counters, clock and the [modified], [referenced]
    and [timestamp] marks only is as well formed. *)
Lemma fifo_state_touch S S' l o :
  fifo_state S l o →
  same_setup S S' → frt S' = frt S →
  listfree S' = listfree S → listoccupied S' = listoccupied S →
  (∀ p e', zget (pgt S') p = Some e' →
     ∃ e, zget (pgt S) p = Some e ∧ present e = present e' ∧ frame e = frame e') →
  (∀ p e, zget (pgt S) p = Some e →
     ∃ e', zget (pgt S') p = Some e' ∧ present e' = present e ∧ frame e' = frame e) →
  fifo_state S' l o.
Proof.
  intros (Hc & Hres & Hfree & Hocc) Hsame Hfrt Hlf Hlo Hback Hforth.
  unfold fifo_state. rewrite Hfrt, Hlf, Hlo. split_and!; try done.
  - by eapply same_setup_config.
  - by eapply resident_touch.
Qed.

Lemma touch_modified pgt p e :
  zget pgt p = Some e →
  (∀ q e', zget (zset pgt p (set_modified 1 e)) q = Some e' →
     ∃ e0, zget pgt q = Some e0 ∧ present e0 = present e' ∧ frame e0 = frame e') ∧
  (∀ q e0, zget pgt q = Some e0 →
     ∃ e', zget (zset pgt p (set_modified 1 e)) q = Some e' ∧
           present e' = present e0 ∧ frame e' = frame e0).
Proof.
  intros He. pose proof (zget_range _ _ _ He). split; intros q e1.
  - rewrite zget_zset_in by done. case_decide; [|by eauto]. subst.
    intros [= <-]. eauto.
  - rewrite zget_zset_in by done. case_decide; [|by eauto]. subst.
    intros ?. assert (e1 = e) as -> by congruence. eauto.
Qed.

Lemma fifo_reference_state S l o p op e :
  fifo_state S l o → zget (pgt S) p = Some e →
  fifo_state (fifo_referenced S p op e) l o ∧
  same_setup S (fifo_referenced S p op e).
Proof.
  intros Hst He. unfold fifo_referenced.
  destruct (Ascii.eqb op "R"); [|destruct (Ascii.eqb op "W")].
  - split; [|by repeat split].
    eapply fifo_state_touch; try exact Hst; try done; by eauto.
  - destruct (touch_modified _ _ _ He) as [Hb Hf].
    assert (Hs : same_setup S (with_numrefswrite (to_int (numrefswrite S + 1))
                    (with_pgt (zset (pgt S) p (set_modified 1 e)) S))).
    { repeat split; cbn; by rewrite ?length_zset. }
    split; [|done]. eapply fifo_state_touch; try exact Hst; try done.
  - split; [done|apply same_setup_refl].
Qed.

(** With every frame occupied the list of occupied frames is not empty. *)
Lemma fifo_state_occupied S o : fifo_state S [] o → o ≠ [].
Proof.
  intros (Hc & _ & Hfree & Hocc) ->.
  assert (H0 : is_Some (zget (frt S) 0)).
  { apply zget_is_Some. destruct Hc. lia. }
  destruct H0 as [fe Hfe].
  assert (Hq : page_at (frt S) 0 = Some (page fe)) by (unfold page_at; by rewrite Hfe).
  destruct (decide (page fe = -1)) as [Heq|Hne].
  - apply (proj2 Hfree _ _ Hq) in Heq. set_solver.
  - apply (proj2 Hocc _ _ Hq) in Hne. set_solver.
Qed.

(** ** Translations under FIFO *)

(** The handler leaves the faulting page present (C2, FIFO). *)
Lemma fifo_handle_page_fault_total S l o va e :
  fifo_state S l o → 0 ≤ va ≤ UINT_MAX →
  zget (pgt S) (page_index S va) = Some e → present e = 0 →
  ∃ S' out l' o' f,
    FIFO.handle_page_fault va S = Some (tt, S', out) ∧
    fifo_state S' l' o' ∧ same_setup S S' ∧
    zget (pgt S') (page_index S va) = Some (mk_spage 1 f 0 0 0) ∧
    page_at (frt S') f = Some (page_index S va) ∧
    clock S' = clock S ∧ numpagefaults S' = to_int (numpagefaults S + 1) ∧
    numrefsread S' = numrefsread S ∧ numrefswrite S' = numrefswrite S ∧
    numillegalrefs S' = numillegalrefs S.
Proof.
  intros Hst Hva He Hpr. pose proof (zget_range _ _ _ He) as Hp.
  destruct l as [|h t].
  - pose proof (fifo_state_occupied _ _ Hst) as Hne.
    destruct o as [|h t]; [done|].
    destruct (fifo_fault_evict S va h t e Hst Hva He Hpr)
      as (fh & ev & S' & out & Hfh & Hev & Hprv & Hfrv & Hrun & HS' & Hst').
    exists S', out, [], (t ++ [h]), h.
    pose proof (zget_range _ _ _ Hfh). pose proof (zget_range _ _ _ Hev).
    split_and!; try done; rewrite HS'; cbn; try done.
    + repeat split; cbn; by rewrite ?length_zset.
    + apply zget_zset_same. rewrite length_zset. lia.
    + frt_simpl. by rewrite decide_True.
  - destruct (fifo_fault_free S va h t o e Hst Hva He Hpr)
      as (S' & out & Hrun & Hst' & Hsame & Hpgt & Hpage & Hclock & Hcnt).
    exists S', out, t, (o ++ [h]), h.
    unfold counters in Hcnt. injection Hcnt as ? ? ? ? ?.
    split_and!; try done.
    + rewrite Hpgt. by apply zget_zset_same.
    + rewrite Hpage. by rewrite decide_True.
Qed.

Lemma fifo_sim_mmu_legal S l o va op :
  fifo_state S l o → 0 ≤ va ≤ UINT_MAX → 0 ≤ va / pagsz S < numpags S →
  ∃ pa S' out l' o',
    FIFO.sim_mmu va op S = Some (pa, S', out) ∧
    fifo_state S' l' o' ∧ same_setup S S'.
Proof.
  intros Hst Hva Hlegal. pose proof Hst as (Hc & _).
  destruct (page_index_legal S va Hc Hva) as (Hp & _ & _).
  assert (Hpi : page_index S va = va / pagsz S).
  { rewrite Hp. apply to_int_small. destruct Hc. unfold INT_MIN. lia. }
  assert (He : is_Some (zget (pgt S) (page_index S va))).
  { apply zget_is_Some. destruct Hc. lia. }
  destruct He as [e He].
  destruct (decide (present e = 0)) as [Hpr|Hpr].
  - destruct (fifo_handle_page_fault_total S l o va e Hst Hva He Hpr)
      as (S1 & o1 & l' & o' & f & Hrun & Hst1 & Hsame1 & He1 & _).
    unfold FIFO.sim_mmu.
    rewrite (sim_mmu_absent _ _ _ _ S va op e Hc Hva He Hpr).
    unfold FIFO.handle_page_fault in Hrun. rewrite Hrun, He1.
    rewrite (fifo_reference_spec _ _ op _ He1).
    destruct (fifo_reference_state S1 l' o' _ op _ Hst1 He1) as [Hst2 Hsame2].
    eexists _, _, _, l', o'. split; [reflexivity|]. split; [assumption|].
    by eapply same_setup_trans.
  - unfold FIFO.sim_mmu.
    rewrite (sim_mmu_present _ _ _ _ S va op e Hc Hva He Hpr).
    rewrite (fifo_reference_spec _ _ op _ He).
    destruct (fifo_reference_state S l o _ op _ Hst He) as [Hst2 Hsame2].
    eexists _, _, _, l, o. split; [reflexivity|]. split; assumption.
Qed.

Lemma fifo_sim_mmu_illegal S l o va op :
  fifo_state S l o → 0 ≤ va ≤ UINT_MAX → ¬ 0 ≤ va / pagsz S < numpags S →
  FIFO.sim_mmu va op S =
    Some (UINT_MAX, with_numillegalrefs (to_int (numillegalrefs S + 1)) S, []) ∧
  fifo_state (with_numillegalrefs (to_int (numillegalrefs S + 1)) S) l o.
Proof.
  intros Hst Hva Hill. pose proof Hst as (Hc & _). split.
  - by apply sim_mmu_illegal.
  - eapply fifo_state_touch; try exact Hst; try done; by eauto.
Qed.

(** ** Initialisation *)

Lemma init_body_spec S i fe :
  zget (frt S) i = Some fe →
  init_body i S =
    Some (tt, with_frt (zset (frt S) i (mk_sframe (-1) (to_int (i + 1)))) S, []).
Proof. intros H. unfold init_body. note_ranges. by sim_run. Qed.

Lemma init_loop S l :
  (∀ i, i ∈ l → 0 ≤ i < Z.of_nat (length (frt S))) →
  ∃ frt',
    for_each l init_body S = Some (tt, with_frt frt' S, []) ∧
    length frt' = length (frt S) ∧
    ∀ x, zget frt' x =
           if decide (x ∈ l) then Some (mk_sframe (-1) (to_int (x + 1)))
           else zget (frt S) x.
Proof.
  revert S. induction l as [|i l IH]; intros S Hin.
  - exists (frt S). split_and!; [by destruct S|done|].
    intros x. rewrite decide_False; [done|set_solver].
  - assert (Hi : 0 ≤ i < Z.of_nat (length (frt S))) by (apply Hin; set_solver).
    destruct (zget_is_Some _ _ Hi) as [fe Hfe].
    set (S1 := with_frt (zset (frt S) i (mk_sframe (-1) (to_int (i + 1)))) S).
    destruct (IH S1) as (frt' & Hrun & Hlen & Hget).
    { intros j Hj. cbn. rewrite length_zset. apply Hin. set_solver. }
    exists frt'. split_and!.
    + cbn [for_each].
      rewrite (sim_bind_eq _ _ _ _ _ _ (init_body_spec S i fe Hfe)).
      fold S1. by rewrite Hrun.
    + rewrite Hlen. cbn. by rewrite length_zset.
    + intros x. rewrite Hget. cbn. rewrite zget_zset_in by done.
      repeat case_decide; try done; set_solver.
Qed.

Lemma init_tables_spec S0 :
  config_ok S0 →
  ∃ frt',
    Header.init_tables S0 =
      Some (tt,
            with_listoccupied (-1)
              (with_listfree (numframes S0 - 1)
                 (with_frt frt'
                    (with_clock 0
                       (with_lru (-1)
                          (with_pgt (replicate (length (pgt S0)) Header.zero_page)
                             S0))))), []) ∧
    length frt' = length (frt S0) ∧
    ∀ x, 0 ≤ x < numframes S0 →
         zget frt' x = Some (initial_frame (numframes S0) x).
Proof.
  intros [Hsz Hnp Hpgt Hnf Hfrt].
  set (S1 := with_clock 0 (with_lru (-1)
               (with_pgt (replicate (length (pgt S0)) Header.zero_page) S0))).
  destruct (init_loop S1 (seqZ 0 (numframes S0 - 1))) as (frt1 & Hrun & Hlen & Hget).
  { intros i Hi%elem_of_seqZ. cbn. lia. }
  assert (Hlast : 0 ≤ numframes S0 - 1 < Z.of_nat (length frt1)).
  { rewrite Hlen. cbn. lia. }
  destruct (zget_is_Some _ _ Hlast) as [fl Hfl].
  exists (zset frt1 (numframes S0 - 1) (mk_sframe (-1) 0)).
  split_and!.
  - unfold Header.init_tables.
    unfold mbind at 1, sim_bind at 1, Header.memset_pgt.
    rewrite <- Hpgt.
    replace ((0 <=? Z.of_nat (length (pgt S0))) &&
             (Z.of_nat (length (pgt S0)) <=? Z.of_nat (length (pgt S0)))) with true by lia.
    rewrite Nat2Z.id, drop_all, app_nil_r.
    unfold mbind at 1, sim_bind at 1, modify at 1.
    unfold mbind at 1, sim_bind at 1, modify at 1.
    unfold mbind at 1, sim_bind at 1, gets at 1. cbn [numframes with_lru with_clock with_pgt].
    unfold mbind at 1, sim_bind at 1.
    rewrite (to_int_small (numframes S0 - 1))
      by (unfold INT_MIN, INT_MAX in *; lia).
    change (for_each _ _ _) with (for_each (seqZ 0 (numframes S0 - 1)) init_body S1).
    rewrite Hrun. rewrite Z.max_r by lia.
    sim_run. reflexivity.
  - by rewrite length_zset, Hlen.
  - intros x Hx. rewrite zget_zset_in by done. unfold initial_frame.
    case_decide; [done|]. rewrite Hget. rewrite decide_True.
    + rewrite to_int_small; [done|]. unfold INT_MIN, INT_MAX in *. lia.
    + apply elem_of_seqZ. lia.
Qed.

Lemma initial_chain frt n k a :
  (∀ x, 0 ≤ x < n → zget frt x = Some (initial_frame n x)) →
  0 ≤ a → a + Z.of_nat k = n - 1 →
  chain frt a (seqZ (a + 1) (Z.of_nat k)) 0.
Proof.
  intros Hget. revert a. induction k as [|k IH]; intros a Ha Hk.
  - rewrite seqZ_nil by lia. unfold chain, next_of.
    rewrite Hget by lia. unfold initial_frame. cbn.
    by rewrite decide_True by lia.
  - rewrite seqZ_cons by lia. cbn [chain]. split.
    + unfold next_of. rewrite Hget by lia. unfold initial_frame. cbn.
      by rewrite decide_False by lia.
    + replace (Z.pred (Z.of_nat (S k))) with (Z.of_nat k) by lia.
      replace (Z.succ (a + 1)) with ((a + 1) + 1) by lia.
      apply IH; lia.
Qed.

Lemma initial_free_is frt n :
  Z.of_nat (length frt) = n → 0 < n →
  (∀ x, 0 ≤ x < n → zget frt x = Some (initial_frame n x)) →
  free_is frt (n - 1) (seqZ 0 n) ∧ occupied_is frt (-1) [] ∧
  ∀ f q, page_at frt f = Some q → q = -1.
Proof.
  intros Hlen Hn Hget.
  assert (Hpage : ∀ f q, page_at frt f = Some q → 0 ≤ f < n ∧ q = -1).
  { intros f q (fe & Hfe & <-)%page_at_Some.
    pose proof (zget_range _ _ _ Hfe) as Hr. rewrite Hlen in Hr.
    rewrite Hget in Hfe by done. by injection Hfe as <-. }
  split_and!.
  - split.
    + rewrite seqZ_cons by lia. unfold ring. split_and!.
      * replace (Z.pred n) with (Z.of_nat (Z.to_nat (n - 1))) by lia.
        apply (initial_chain frt n); [done|lia|lia].
      * rewrite <- seqZ_cons by lia. apply NoDup_seqZ.
      * rewrite <- seqZ_cons by lia. rewrite last_lookup, length_seqZ.
        replace (pred (Z.to_nat n)) with (Z.to_nat (n - 1)) by lia.
        rewrite lookup_seqZ_lt by lia. f_equal. lia.
    + intros f q Hq. destruct (Hpage _ _ Hq) as [? ->].
      rewrite elem_of_seqZ. split; [done|lia].
  - split; [done|]. intros f q Hq. destruct (Hpage _ _ Hq) as [? ->].
    split; [set_solver|done].
  - intros f q Hq. by destruct (Hpage _ _ Hq).
Qed.

Lemma initial_resident n frt :
  (∀ f q, page_at frt f = Some q → q = -1) →
  resident (replicate n Header.zero_page) frt.
Proof.
  intros Hpage. split.
  - intros p e [_ He]%zget_Some. apply lookup_replicate in He as [-> _]. done.
  - intros f q Hq Hne. by apply Hpage in Hq.
Qed.

(** ** Reachable states *)

Lemma fifo_init_state S0 S out :
  config_ok S0 → FIFO.init_tables S0 = Some (tt, S, out) →
  fifo_state S (seqZ 0 (numframes S0)) [] ∧ same_setup S0 S.
Proof.
  intros Hc Hrun. destruct (init_tables_spec S0 Hc) as (frt' & Hinit & Hlen & Hget).
  unfold FIFO.init_tables in Hrun. rewrite Hinit in Hrun. injection Hrun as <- <-.
  pose proof Hc as [Hsz Hnp Hpgt Hnf Hfrt].
  destruct (initial_free_is frt' (numframes S0)) as (Hfree & Hocc & Hpage);
    [lia|lia|done|].
  split.
  - unfold fifo_state. cbn. split_and!; try done.
    + split; cbn; rewrite ?length_replicate; try done. lia.
    + by apply initial_resident.
  - repeat split; cbn; rewrite ?length_replicate; done.
Qed.

Theorem fifo_reachable_state S :
  fifo_reachable S → ∃ l o, fifo_state S l o.
Proof.
  induction 1 as [S0 S out Hc Hinit|S va op pa S' out _ (l & o & Hst) Hva Hrun].
  - eexists _, _. eapply fifo_init_state; eassumption.
  - pose proof Hst as (Hc & _).
    destruct (decide (0 ≤ va / pagsz S < numpags S)) as [Hlegal|Hill].
    + destruct (fifo_sim_mmu_legal S l o va op Hst Hva Hlegal)
        as (pa' & S'' & out' & l' & o' & Hrun' & Hst' & _).
      rewrite Hrun in Hrun'. injection Hrun' as -> -> ->. eauto.
    + destruct (fifo_sim_mmu_illegal S l o va op Hst Hva Hill) as [Hrun' Hst'].
      rewrite Hrun in Hrun'. injection Hrun' as -> -> ->. eauto.
Qed.

(** ** The LRU policy functions *)

Lemma lru_reference_spec S p op e :
  zget (pgt S) p = Some e →
  LRU.reference_page p op S =
    Some (tt, lru_referenced S p op e,
          if to_unsigned (clock S + 1) =? 0 then [err_clock_overflow] else []).
Proof.
  intros He. unfold LRU.reference_page, lru_referenced. note_ranges.
  destruct (Ascii.eqb op "R"), (Ascii.eqb op "W"); sim_run;
    by destruct (to_unsigned (clock S + 1) =? 0).
Qed.

Lemma lru_occupy_spec S f p e fe :
  zget (pgt S) p = Some e → zget (frt S) f = Some fe →
  ∃ out,
    LRU.occupy_free_frame f p S =
      Some (tt, with_frt (zset (frt S) f (set_page p fe))
                  (with_pgt (zset (pgt S) p (mk_spage 1 f 0 0 0)) S), out).
Proof.
  intros Hp Hf. unfold LRU.occupy_free_frame. sim_cases; eauto.
Qed.

Lemma lru_replace_spec S v p ev e fe :
  zget (pgt S) v = Some ev → zget (pgt S) p = Some e → v ≠ p →
  zget (frt S) (frame ev) = Some fe →
  ∃ out, LRU.replace_page v p S =
    Some (tt,
          with_frt (zset (frt S) (frame ev) (set_page p fe))
            (with_pgt (zset (zset (pgt S) v (set_present 0 ev)) p
                         (mk_spage 1 (frame ev) 0 (referenced e) (timestamp e)))
               (with_numpgwriteback
                  (if truthy (modified ev) then to_int (numpgwriteback S + 1)
                   else numpgwriteback S) S)), out).
Proof.
  intros Hv Hp Hne Hf. unfold LRU.replace_page. sim_cases; eauto.
Qed.

(** The scan keeps the first page with the least timestamp seen so far. *)
Lemma lru_scan_spec S l victim m :
  (∀ i, i ∈ l → is_Some (zget (pgt S) i)) →
  ∃ v' m',
    LRU.scan l victim m S = Some ((v', m'), S, []) ∧
    ((v' = victim ∧ m' = m ∧
      ∀ i e, i ∈ l → zget (pgt S) i = Some e → present e ≠ 0 → m ≤ timestamp e) ∨
     (∃ l1 l2 e,
        l = l1 ++ v' :: l2 ∧ zget (pgt S) v' = Some e ∧ present e ≠ 0 ∧
        timestamp e = m' ∧ m' < m ∧
        (∀ i ei, i ∈ l1 → zget (pgt S) i = Some ei → present ei ≠ 0 →
                 m' < timestamp ei) ∧
        (∀ i ei, i ∈ l2 → zget (pgt S) i = Some ei → present ei ≠ 0 →
                 m' ≤ timestamp ei))).
Proof.
  revert victim m. induction l as [|i l IH]; intros victim m Hin.
  - exists victim, m. split; [done|]. left. split_and!; try done. set_solver.
  - destruct (Hin i) as [e He]; [set_solver|].
    assert (Hin' : ∀ j, j ∈ l → is_Some (zget (pgt S) j)) by (intros; apply Hin; set_solver).
    cbn [LRU.scan]. unfold mbind, sim_bind, load_pgt. rewrite He.
    destruct (truthy (present e) && (timestamp e <? m)) eqn:Hsel.
    + apply andb_true_iff in Hsel as [Hpr Hlt].
      assert (present e ≠ 0) by (unfold truthy in Hpr; lia).
      destruct (IH i (timestamp e) Hin') as (v' & m' & Hrun & Hcase).
      exists v', m'. rewrite Hrun. split; [done|]. right.
      destruct Hcase as [(-> & -> & Hall)|(l1 & l2 & e' & -> & He' & Hpr' & Hts & Hlt' & H1 & H2)].
      * exists [], l, e. split_and!; try done; [lia|set_solver].
      * exists (i :: l1), l2, e'. split_and!; try done; [lia|].
        intros j ej [->|Hj]%elem_of_cons Hej Hprj; [|by eauto].
        assert (ej = e) as -> by congruence. lia.
    + assert (Hno : present e ≠ 0 → m ≤ timestamp e).
      { intros Hpr. unfold truthy in Hsel. lia. }
      destruct (IH victim m Hin') as (v' & m' & Hrun & Hcase).
      exists v', m'. rewrite Hrun. split; [done|].
      destruct Hcase as [(-> & -> & Hall)|(l1 & l2 & e' & -> & He' & Hpr' & Hts & Hlt' & H1 & H2)].
      * left. split_and!; try done.
        intros j ej [->|Hj]%elem_of_cons Hej Hprj; [|by eauto].
        assert (ej = e) as -> by congruence. auto.
      * right. exists (i :: l1), l2, e'. split_and!; try done.
        intros j ej [->|Hj]%elem_of_cons Hej Hprj; [|by eauto].
        assert (ej = e) as -> by congruence. specialize (Hno Hprj). lia.
Qed.

Lemma seqZ_split_lt n l1 v l2 i :
  seqZ 0 n = l1 ++ v :: l2 → i ∈ l1 → i < v.
Proof.
  intros Hs [k Hk]%list_elem_of_lookup.
  assert (Hv : seqZ 0 n !! length l1 = Some v).
  { rewrite Hs. by rewrite list_lookup_middle. }
  assert (Hi : seqZ 0 n !! k = Some i).
  { rewrite Hs. by apply lookup_app_l_Some. }
  apply lookup_seqZ in Hv as [-> _]. apply lookup_seqZ in Hi as [-> _].
  apply lookup_lt_Some in Hk. lia.
Qed.

(** [choose_page_to_be_replaced] when some present page has a timestamp
    below [UINT_MAX]: the present page with the least timestamp, the one of
    lowest index among equals. *)
Lemma lru_choose_spec S :
  Z.of_nat (length (pgt S)) = numpags S →
  (∃ p e, zget (pgt S) p = Some e ∧ present e ≠ 0 ∧ timestamp e < UINT_MAX) →
  ∃ v ev out,
    LRU.choose_page_to_be_replaced S = Some (v, S, out) ∧
    zget (pgt S) v = Some ev ∧ present ev ≠ 0 ∧ timestamp ev < UINT_MAX ∧
    (∀ i ei, zget (pgt S) i = Some ei → present ei ≠ 0 →
             timestamp ev ≤ timestamp ei) ∧
    (∀ i ei, i < v → zget (pgt S) i = Some ei → present ei ≠ 0 →
             timestamp ev < timestamp ei).
Proof.
  intros Hlen (p & e & He & Hpr & Hts).
  destruct (lru_scan_spec S (seqZ 0 (numpags S)) (-1) UINT_MAX)
    as (v & m & Hrun & Hcase).
  { intros i Hi%elem_of_seqZ. apply zget_is_Some. lia. }
  assert (Hall : ∀ i ei, zget (pgt S) i = Some ei → i ∈ seqZ 0 (numpags S)).
  { intros i ei Hi%zget_range. apply elem_of_seqZ. lia. }
  destruct Hcase as [(_ & _ & Hmin)|(l1 & l2 & ev & Hsplit & Hev & Hprv & <- & Hlt & H1 & H2)].
  { specialize (Hmin p e (Hall _ _ He) He Hpr). lia. }
  exists v, ev.
  assert (Hrun' : ∃ out, LRU.choose_page_to_be_replaced S = Some (v, S, out)).
  { unfold LRU.choose_page_to_be_replaced. sim_run. rewrite Hrun. sim_run.
    destruct (truthy (detailed S)); sim_run; eauto. }
  destruct Hrun' as [out Hrun']. exists out. split_and!; try done.
  - intros i ei Hi Hpri. pose proof (Hall _ _ Hi) as Hin.
    rewrite Hsplit in Hin. apply elem_of_app in Hin as [Hin|Hin].
    + specialize (H1 _ _ Hin Hi Hpri). lia.
    + apply elem_of_cons in Hin as [->|Hin]; [|by eauto].
      assert (ei = ev) as -> by congruence. lia.
  - intros i ei Hiv Hi Hpri. pose proof (Hall _ _ Hi) as Hin.
    rewrite Hsplit in Hin. apply elem_of_app in Hin as [Hin|Hin]; [by eauto|].
    apply elem_of_cons in Hin as [->|Hin]; [lia|].
    exfalso.
    assert (Hrev : seqZ 0 (numpags S) !! length l1 = Some v).
    { rewrite Hsplit. by rewrite list_lookup_middle. }
    apply list_elem_of_lookup in Hin as [k Hk].
    assert (Hi' : seqZ 0 (numpags S) !! (length l1 + Datatypes.S k)%nat = Some i).
    { rewrite Hsplit. rewrite lookup_app_r by lia.
      replace (length l1 + Datatypes.S k - length l1)%nat
        with (Datatypes.S k) by lia. done. }
    apply lookup_seqZ in Hrev as [-> _]. apply lookup_seqZ in Hi' as [-> _]. lia.
Qed.

(** When every present page carries the timestamp [UINT_MAX] the scan finds
    nothing and the function returns its initial [-1]. *)
Lemma lru_choose_none S :
  Z.of_nat (length (pgt S)) = numpags S →
  (∀ p e, zget (pgt S) p = Some e → present e ≠ 0 → UINT_MAX ≤ timestamp e) →
  LRU.choose_page_to_be_replaced S =
    if truthy (detailed S) then None else Some (-1, S, []).
Proof.
  intros Hlen Hsat.
  destruct (lru_scan_spec S (seqZ 0 (numpags S)) (-1) UINT_MAX)
    as (v & m & Hrun & Hcase).
  { intros i Hi%elem_of_seqZ. apply zget_is_Some. lia. }
  destruct Hcase as [(-> & -> & _)|(l1 & l2 & ev & _ & Hev & Hprv & <- & Hlt & _)].
  - unfold LRU.choose_page_to_be_replaced. sim_run. rewrite Hrun. sim_run.
    destruct (truthy (detailed S)); sim_run; [|done].
    by rewrite zget_None by lia.
  - specialize (Hsat _ _ Hev Hprv). lia.
Qed.

(** ** Page faults under LRU *)

Lemma lru_fault_free S va h t e :
  lru_state S (h :: t) → 0 ≤ va ≤ UINT_MAX →
  zget (pgt S) (page_index S va) = Some e → present e = 0 →
  ∃ S' out,
    LRU.handle_page_fault va S = Some (tt, S', out) ∧
    lru_state S' t ∧
    same_setup S S' ∧
    pgt S' = zset (pgt S) (page_index S va) (mk_spage 1 h 0 0 0) ∧
    (∀ x, page_at (frt S') x =
            if decide (x = h) then Some (page_index S va) else page_at (frt S) x) ∧
    clock S' = clock S ∧ listoccupied S' = listoccupied S ∧
    counters S' = (numrefsread S, numrefswrite S, to_int (numpagefaults S + 1),
                   numpgwriteback S, numillegalrefs S).
Proof.
  intros (Hc & Hres & Hfree) Hva He Hpr.
  set (p := page_index S va) in *.
  destruct (hpf_free_branch LRU.choose_page_to_be_replaced LRU.replace_page
              LRU.occupy_free_frame S va h t Hc (proj1 Hfree))
    as (S1 & o1 & Hrun & HS1 & Hlen1 & Hpage1 & Hnext1 & Hring1).
  fold p in Hrun.
  assert (Hh : h ∈ h :: t) by set_solver.
  assert (Hht : h ∉ t).
  { pose proof (ring_NoDup _ _ _ (proj1 Hfree)) as Hnd.
    by apply NoDup_cons in Hnd as [? _]. }
  assert (Hpgt1 : pgt S1 = pgt S) by (by rewrite HS1).
  destruct (ring_in_range _ _ _ _ (proj1 Hfree) Hh) as [fh Hfh].
  assert (Hfh1 : is_Some (zget (frt S1) h)).
  { apply zget_is_Some. apply zget_range in Hfh. lia. }
  destruct Hfh1 as [fh1 Hfh1].
  assert (He1 : zget (pgt S1) p = Some e) by (by rewrite Hpgt1).
  destruct (lru_occupy_spec S1 h p e fh1 He1 Hfh1) as (o2 & Hocc2).
  rewrite Hocc2 in Hrun. eexists _, _. split; [exact Hrun|].
  pose proof (zget_range _ _ _ Hfh1) as Hrange1.
  assert (Hpage : ∀ x, page_at (zset (frt S1) h (set_page p fh1)) x =
                       if decide (x = h) then Some p else page_at (frt S) x).
  { intros x. frt_simpl. case_decide; [done|apply Hpage1]. }
  assert (Hnext : ∀ x, next_of (zset (frt S1) h (set_page p fh1)) x =
                       next_of (frt S1) x).
  { intros x. frt_simpl. case_decide; [subst|done]. unfold next_of. by rewrite Hfh1. }
  assert (Hp0 : 0 ≤ p) by (apply zget_range in He; lia).
  rewrite HS1. unfold lru_state, same_setup, counters. cbn.
  refine (conj _ (conj _ (conj _ (conj _ (conj _ (conj _ _))))));
    [|repeat split; rewrite ?length_zset; congruence|done
     |exact Hpage|done|done|done].
  split_and!.
  - destruct Hc. split; cbn; rewrite ?length_zset; congruence.
  - eapply (resident_install _ _ _ _ p h (mk_spage 1 h 0 0 0));
      try exact Hres; try done.
    + intros e0 He0. congruence.
    + by eapply free_is_page.
    + intros q. by rewrite zget_zset_in by (apply zget_range in He; lia).
  - split.
    + eapply ring_ext; [|exact Hring1]. intros x _. apply Hnext.
    + intros f q. rewrite Hpage. case_decide as Hf.
      * intros [= <-]. subst f. split; [done|lia].
      * intros Hq. rewrite <- (proj2 Hfree _ _ Hq). set_solver.
Qed.

Lemma lru_fault_evict S va e :
  lru_state S [] → 0 ≤ va ≤ UINT_MAX →
  zget (pgt S) (page_index S va) = Some e → present e = 0 →
  lru_candidate S →
  ∃ v ev fh S' out,
    zget (pgt S) v = Some ev ∧ present ev ≠ 0 ∧
    zget (frt S) (frame ev) = Some fh ∧ page fh = v ∧
    (∀ i ei, zget (pgt S) i = Some ei → present ei ≠ 0 →
             timestamp ev ≤ timestamp ei) ∧
    (∀ i ei, i < v → zget (pgt S) i = Some ei → present ei ≠ 0 →
             timestamp ev < timestamp ei) ∧
    LRU.handle_page_fault va S = Some (tt, S', out) ∧
    S' = with_frt (zset (frt S) (frame ev) (set_page (page_index S va) fh))
           (with_pgt
              (zset (zset (pgt S) v (set_present 0 ev)) (page_index S va)
                 (mk_spage 1 (frame ev) 0 (referenced e) (timestamp e)))
              (with_numpgwriteback
                 (if truthy (modified ev) then to_int (numpgwriteback S + 1)
                  else numpgwriteback S)
                 (with_numpagefaults (to_int (numpagefaults S + 1)) S))) ∧
    lru_state S' [].
Proof.
  intros (Hc & Hres & Hfree) Hva He Hpr Hcand.
  set (p := page_index S va) in *.
  assert (Hlf : listfree S = -1) by apply Hfree.
  destruct (hpf_evict_branch LRU.choose_page_to_be_replaced LRU.replace_page
              LRU.occupy_free_frame S va Hc Hlf) as (o1 & Hrun).
  fold p in Hrun.
  set (S1 := with_numpagefaults (to_int (numpagefaults S + 1)) S) in *.
  destruct (lru_choose_spec S1) as (v & ev & o2 & Hch & Hev & Hprv & _ & Hmin & Hfirst).
  { apply Hc. }
  { exact Hcand. }
  cbn in Hev, Hmin, Hfirst.
  pose proof (proj1 Hres _ _ Hev Hprv) as (fh & Hfh & Hpv)%page_at_Some.
  assert (Hvp : v ≠ p) by (intros ->; congruence).
  destruct (lru_replace_spec S1 v p ev e fh Hev He Hvp Hfh) as (o3 & Hrp).
  unfold mbind, sim_bind in Hrun. rewrite Hch, Hrp in Hrun.
  eexists v, ev, fh, _, (o1 ++ o2 ++ o3).
  refine (conj _ (conj _ (conj _ (conj _ (conj _
           (conj _ (conj _ (conj eq_refl _)))))))); try done.
  assert (Hp0 : 0 ≤ p) by (apply zget_range in He; lia).
  note_ranges.
  assert (Hpage : ∀ x, page_at (zset (frt S) (frame ev) (set_page p fh)) x =
                       if decide (x = frame ev) then Some p else page_at (frt S) x).
  { intros x. by frt_simpl. }
  unfold lru_state. cbn. split_and!.
  - destruct Hc. split; cbn; rewrite ?length_zset; done.
  - eapply (resident_replace _ _ _ _ v p (frame ev) ev (set_present 0 ev)
              (mk_spage 1 (frame ev) 0 (referenced e) (timestamp e)));
      try exact Hres; try done.
    + intros e0 He0. congruence.
    + intros q. by rewrite !zget_zset_in by (rewrite ?length_zset; lia).
  - split; [done|]. intros f q. rewrite Hpage. case_decide.
    + intros [= <-]. split; [set_solver|lia].
    + apply Hfree.
Qed.

(** Without a candidate the handler indexes the page table with [-1]. *)
Lemma lru_fault_stuck S va :
  config_ok S → listfree S = -1 →
  (∀ p e, zget (pgt S) p = Some e → present e ≠ 0 → UINT_MAX ≤ timestamp e) →
  LRU.handle_page_fault va S = None.
Proof.
  intros Hc Hlf Hsat.
  destruct (hpf_evict_branch LRU.choose_page_to_be_replaced LRU.replace_page
              LRU.occupy_free_frame S va Hc Hlf) as (o1 & Hrun).
  unfold LRU.handle_page_fault. rewrite Hrun.
  set (S1 := with_numpagefaults (to_int (numpagefaults S + 1)) S).
  unfold mbind, sim_bind. rewrite (lru_choose_none S1); [|apply Hc|exact Hsat].
  destruct (truthy (detailed S1)); [done|].
  unfold LRU.replace_page. sim_run. by rewrite zget_None by lia.
Qed.

(** ** References and translations under LRU *)

Lemma touch_entry pgt p e e' :
  zget pgt p = Some e → present e' = present e → frame e' = frame e →
  (∀ q e1, zget (zset pgt p e') q = Some e1 →
     ∃ e0, zget pgt q = Some e0 ∧ present e0 = present e1 ∧ frame e0 = frame e1) ∧
  (∀ q e0, zget pgt q = Some e0 →
     ∃ e1, zget (zset pgt p e') q = Some e1 ∧
           present e1 = present e0 ∧ frame e1 = frame e0).
Proof.
  intros He Hpr Hfr. pose proof (zget_range _ _ _ He). split; intros q e1.
  - rewrite zget_zset_in by done. case_decide; [|by eauto]. subst.
    intros [= <-]. eauto.
  - rewrite zget_zset_in by done. case_decide; [|by eauto]. subst.
    intros ?. assert (e1 = e) as -> by congruence. eauto.
Qed.

Lemma lru_state_touch S S' l :
  lru_state S l →
  same_setup S S' → frt S' = frt S → listfree S' = listfree S →
  (∀ p e', zget (pgt S') p = Some e' →
     ∃ e, zget (pgt S) p = Some e ∧ present e = present e' ∧ frame e = frame e') →
  (∀ p e, zget (pgt S) p = Some e →
     ∃ e', zget (pgt S') p = Some e' ∧ present e' = present e ∧ frame e' = frame e) →
  lru_state S' l.
Proof.
  intros (Hc & Hres & Hfree) Hsame Hfrt Hlf Hback Hforth.
  unfold lru_state. rewrite Hfrt, Hlf. split_and!; try done.
  - by eapply same_setup_config.
  - by eapply resident_touch.
Qed.

Lemma lru_reference_state S l p op e :
  lru_state S l → zget (pgt S) p = Some e →
  lru_state (lru_referenced S p op e) l ∧
  same_setup S (lru_referenced S p op e).
Proof.
  intros Hst He.
  set (e' := set_timestamp (clock S) (if Ascii.eqb op "W" then set_modified 1 e else e)).
  assert (Hpr : present e' = present e) by (unfold e'; by destruct (Ascii.eqb op "W")).
  assert (Hfr : frame e' = frame e) by (unfold e'; by destruct (Ascii.eqb op "W")).
  destruct (touch_entry _ _ _ e' He Hpr Hfr) as [Hb Hf].
  assert (Hs : same_setup S (lru_referenced S p op e)).
  { unfold lru_referenced.
    destruct (Ascii.eqb op "R"); repeat split; cbn; by rewrite ?length_zset. }
  split; [|done].
  eapply lru_state_touch; try exact Hst; try done;
    unfold lru_referenced; by destruct (Ascii.eqb op "R").
Qed.

Lemma lru_candidate_or_saturated S :
  Z.of_nat (length (pgt S)) = numpags S →
  lru_candidate S ∨
  (∀ p e, zget (pgt S) p = Some e → present e ≠ 0 → UINT_MAX ≤ timestamp e).
Proof.
  intros Hlen.
  destruct (lru_scan_spec S (seqZ 0 (numpags S)) (-1) UINT_MAX)
    as (v & m & _ & Hcase).
  { intros i Hi%elem_of_seqZ. apply zget_is_Some. lia. }
  destruct Hcase as [(_ & _ & Hmin)|(l1 & l2 & ev & _ & Hev & Hprv & <- & Hlt & _)].
  - right. intros p e He Hpr. apply (Hmin p e); try done.
    apply zget_range in He. apply elem_of_seqZ. lia.
  - left. by exists v, ev.
Qed.

(** What a translation of a legal address does under LRU: either the page
    needs a frame, none is free and the scan has no candidate, and the
    translation has no defined behaviour; or it completes in a well-formed
    state. *)
Lemma lru_sim_mmu_legal S l va op :
  lru_state S l → 0 ≤ va ≤ UINT_MAX → 0 ≤ va / pagsz S < numpags S →
  (LRU.sim_mmu va op S = None ∧ l = [] ∧ ¬ lru_candidate S) ∨
  (∃ pa S' out l',
     LRU.sim_mmu va op S = Some (pa, S', out) ∧
     lru_state S' l' ∧ same_setup S S').
Proof.
  intros Hst Hva Hlegal. pose proof Hst as (Hc & _).
  destruct (page_index_legal S va Hc Hva) as (Hp & _ & _).
  assert (Hpi : page_index S va = va / pagsz S).
  { rewrite Hp. apply to_int_small. destruct Hc. unfold INT_MIN. lia. }
  assert (He : is_Some (zget (pgt S) (page_index S va))).
  { apply zget_is_Some. destruct Hc. lia. }
  destruct He as [e He]. pose proof (zget_range _ _ _ He) as Hpr0.
  unfold LRU.sim_mmu.
  destruct (decide (present e = 0)) as [Hpr|Hpr].
  - rewrite (sim_mmu_absent _ _ _ _ S va op e Hc Hva He Hpr).
    assert (Hfault :
      (LRU.handle_page_fault va S = None ∧ l = [] ∧ ¬ lru_candidate S) ∨
      ∃ S1 o1 l' e1, LRU.handle_page_fault va S = Some (tt, S1, o1) ∧
        lru_state S1 l' ∧ same_setup S S1 ∧
        zget (pgt S1) (page_index S va) = Some e1).
    { destruct l as [|h t].
      - destruct (lru_candidate_or_saturated S) as [Hcand|Hsat]; [apply Hc| |].
        + right.
          destruct (lru_fault_evict S va e Hst Hva He Hpr Hcand)
            as (v & ev & fh & S1 & o1 & Hev & _ & Hfh & _ & _ & _ & Hrun & HS1 & Hst1).
          pose proof (zget_range _ _ _ Hev). pose proof (zget_range _ _ _ Hfh).
          exists S1, o1, [], (mk_spage 1 (frame ev) 0 (referenced e) (timestamp e)).
          refine (conj Hrun (conj Hst1 (conj _ _))); rewrite HS1; cbn.
          * repeat split; cbn; by rewrite ?length_zset.
          * apply zget_zset_same. rewrite length_zset. lia.
        + left. split_and!; [|done|].
          * apply lru_fault_stuck; [done|apply Hst|done].
          * intros (q & eq & Hq & Hprq & Hts). specialize (Hsat _ _ Hq Hprq). lia.
      - right.
        destruct (lru_fault_free S va h t e Hst Hva He Hpr)
          as (S1 & o1 & Hrun & Hst1 & Hsame & Hpgt & _).
        exists S1, o1, t, (mk_spage 1 h 0 0 0).
        refine (conj Hrun (conj Hst1 (conj Hsame _))).
        rewrite Hpgt. by apply zget_zset_same. }
    destruct Hfault as [(Hrun & -> & Hno)|(S1 & o1 & l' & e1 & Hrun & Hst1 & Hsame1 & He1)].
    + left. unfold LRU.handle_page_fault in Hrun. rewrite Hrun.
      exact (conj eq_refl (conj eq_refl Hno)).
    + right. unfold LRU.handle_page_fault in Hrun. rewrite Hrun, He1.
      rewrite (lru_reference_spec _ _ op _ He1).
      destruct (lru_reference_state S1 l' _ op _ Hst1 He1) as [Hst2 Hsame2].
      eexists _, _, _, l'. split; [reflexivity|]. split; [assumption|].
      by eapply same_setup_trans.
  - right. rewrite (sim_mmu_present _ _ _ _ S va op e Hc Hva He Hpr).
    rewrite (lru_reference_spec _ _ op _ He).
    destruct (lru_reference_state S l _ op _ Hst He) as [Hst2 Hsame2].
    eexists _, _, _, l. split; [reflexivity|]. split; assumption.
Qed.

Lemma lru_sim_mmu_illegal S l va op :
  lru_state S l → 0 ≤ va ≤ UINT_MAX → ¬ 0 ≤ va / pagsz S < numpags S →
  LRU.sim_mmu va op S =
    Some (UINT_MAX, with_numillegalrefs (to_int (numillegalrefs S + 1)) S, []) ∧
  lru_state (with_numillegalrefs (to_int (numillegalrefs S + 1)) S) l.
Proof.
  intros Hst Hva Hill. pose proof Hst as (Hc & _). split.
  - by apply sim_mmu_illegal.
  - eapply lru_state_touch; try exact Hst; try done; by eauto.
Qed.

Lemma lru_init_state S0 S out :
  config_ok S0 → LRU.init_tables S0 = Some (tt, S, out) →
  lru_state S (seqZ 0 (numframes S0)) ∧ same_setup S0 S.
Proof.
  intros Hc Hrun.
  destruct (fifo_init_state S0 S out Hc Hrun) as [(? & ? & ? & _) ?].
  unfold lru_state. auto.
Qed.

Theorem lru_reachable_state S :
  lru_reachable S → ∃ l, lru_state S l.
Proof.
  induction 1 as [S0 S out Hc Hinit|S va op pa S' out _ (l & Hst) Hva Hrun].
  - eexists. eapply lru_init_state; eassumption.
  - pose proof Hst as (Hc & _).
    destruct (decide (0 ≤ va / pagsz S < numpags S)) as [Hlegal|Hill].
    + destruct (lru_sim_mmu_legal S l va op Hst Hva Hlegal)
        as [(Hnone & _)|(pa' & S'' & out' & l' & Hrun' & Hst' & _)].
      * congruence.
      * rewrite Hrun in Hrun'. injection Hrun' as -> -> ->. eauto.
    + destruct (lru_sim_mmu_illegal S l va op Hst Hva Hill) as [Hrun' Hst'].
      rewrite Hrun in Hrun'. injection Hrun' as -> -> ->. eauto.
Qed.

(** * The properties of the specification *)

Lemma small_system_ok : config_ok small_system.
Proof. split; cbn; unfold INT_MAX; lia. Qed.

(** C6. A translation whose page index falls outside the page table adds
    one to [numillegalrefs] (in [int] arithmetic, so exactly one below
    [INT_MAX]), returns the address with all 32 bits set, prints nothing and
    leaves every other field of the system as it was.  Both policies. *)
Theorem illegal_reference_only_counts S va op :
  config_ok S → 0 ≤ va ≤ UINT_MAX → ¬ 0 ≤ va / pagsz S < numpags S →
  let S' := with_numillegalrefs (to_int (numillegalrefs S + 1)) S in
  FIFO.sim_mmu va op S = Some (UINT_MAX, S', []) ∧
  LRU.sim_mmu va op S = Some (UINT_MAX, S', []) ∧
  UINT_MAX = Z.ones 32 ∧
  (INT_MIN ≤ numillegalrefs S < INT_MAX →
   numillegalrefs S' = numillegalrefs S + 1) ∧
  pgt S' = pgt S ∧ frt S' = frt S ∧
  listfree S' = listfree S ∧ listoccupied S' = listoccupied S ∧
  clock S' = clock S ∧
  numrefsread S' = numrefsread S ∧ numrefswrite S' = numrefswrite S ∧
  numpagefaults S' = numpagefaults S ∧ numpgwriteback S' = numpgwriteback S.
Proof.
  intros Hc Hva Hill S'. split_and!; try reflexivity.
  - by apply sim_mmu_illegal.
  - by apply sim_mmu_illegal.
  - intros Hn. cbn. apply to_int_small. unfold INT_MIN, INT_MAX in *. lia.
Qed.

Lemma illegal_reference_witness :
  FIFO.sim_mmu 500 "R" small_system =
    Some (UINT_MAX, with_numillegalrefs 1 small_system, []).
Proof.
  apply (illegal_reference_only_counts small_system 500 "R").
  - exact small_system_ok.
  - unfold UINT_MAX. lia.
  - intros [_ H]. vm_compute in H. discriminate.
Defined.

(** C9. Under LRU a recorded reference stores the current clock in the
    timestamp of the page and then adds one to the clock modulo 2^32; the
    warning goes to [stderr] exactly when the new clock is zero, and neither
    the counters nor the normal return depend on it. *)
Theorem lru_reference_stamps_and_ticks S p op e :
  zget (pgt S) p = Some e →
  ∃ S' e',
    LRU.reference_page p op S =
      Some (tt, S', if clock S' =? 0 then [err_clock_overflow] else []) ∧
    zget (pgt S') p = Some e' ∧ timestamp e' = clock S ∧
    clock S' = (clock S + 1) mod 2 ^ 32 ∧
    numrefsread S' =
      (if Ascii.eqb op "R" then to_int (numrefsread S + 1) else numrefsread S) ∧
    numrefswrite S' =
      (if Ascii.eqb op "R" then numrefswrite S else to_int (numrefswrite S + 1)) ∧
    numpagefaults S' = numpagefaults S ∧
    numpgwriteback S' = numpgwriteback S ∧
    numillegalrefs S' = numillegalrefs S.
Proof.
  intros He. pose proof (zget_range _ _ _ He) as Hr.
  eexists (lru_referenced S p op e), _.
  split; [apply (lru_reference_spec S p op e He)|].
  unfold lru_referenced. cbn.
  split; [by apply zget_zset_same|].
  split_and!; try done; by destruct (Ascii.eqb op "R").
Qed.

Lemma lru_reference_witness :
  ∃ S' e',
    LRU.reference_page 0 "R" clock_at_max = Some (tt, S', [err_clock_overflow]) ∧
    zget (pgt S') 0 = Some e' ∧ timestamp e' = UINT_MAX ∧ clock S' = 0 ∧
    numpagefaults S' = 0 ∧ numpgwriteback S' = 0 ∧ numillegalrefs S' = 0.
Proof.
  destruct (lru_reference_stamps_and_ticks clock_at_max 0 "R" (mk_spage 1 0 0 0 7))
    as (S' & e' & Hrun & He' & Hts & Hclock & _ & _ & Hpf & Hwb & Hill).
  - reflexivity.
  - exists S', e'. rewrite Hclock in Hrun. by split_and!.
Defined.

(** C10. [init_tables] zeroes the page table, the clock and the list
    pointers and leaves the five counters and the [detailed] flag as it
    found them: statistics of an earlier run carry over unless the caller
    clears them.  The function is the same in both translation units. *)
Theorem init_tables_keeps_counters S0 :
  config_ok S0 →
  ∃ S,
    FIFO.init_tables S0 = Some (tt, S, []) ∧
    LRU.init_tables S0 = Some (tt, S, []) ∧
    pgt S = replicate (length (pgt S0)) Header.zero_page ∧
    clock S = 0 ∧ lru S = -1 ∧
    listfree S = numframes S0 - 1 ∧ listoccupied S = -1 ∧
    free_frames S = seqZ 0 (numframes S0) ∧
    counters S = counters S0 ∧ detailed S = detailed S0.
Proof.
  intros Hc. destruct (init_tables_spec S0 Hc) as (frt' & Hinit & Hlen & Hget).
  eexists. split; [exact Hinit|]. split; [exact Hinit|].
  split_and!; try reflexivity.
  destruct (fifo_init_state S0 _ _ Hc Hinit) as [(_ & _ & [Hring _] & _) _].
  by apply circular_list_ring.
Qed.

Lemma init_tables_witness :
  ∃ S, FIFO.init_tables used_system = Some (tt, S, []) ∧
       counters S = (5, 4, 3, 2, 1).
Proof.
  destruct (init_tables_keeps_counters used_system) as (S & Hrun & _ & _ & _ & _ & _ & _ & _ & Hcnt & _).
  - split; cbn; unfold INT_MAX; lia.
  - exists S. split; [exact Hrun|exact Hcnt].
Defined.

(** ** A run that wraps the clock *)

Lemma after_reads_first :
  ∃ S out,
    LRU.init_tables one_frame_system = Some (tt, S, out) ∧
    LRU.sim_mmu 0 "R" S = Some (0, after_reads 1, []).
Proof. eexists _, _. split; reflexivity. Qed.

Lemma to_unsigned_succ n : to_unsigned (to_unsigned n + 1) = to_unsigned (n + 1).
Proof. unfold to_unsigned. by rewrite Zplus_mod_idemp_l. Qed.

Lemma to_int_succ n : to_int (to_int n + 1) = to_int (n + 1).
Proof.
  unfold to_int.
  replace ((n + 2147483648) mod 4294967296 - 2147483648 + 1 + 2147483648)
    with ((n + 2147483648) mod 4294967296 + 1) by lia.
  rewrite Zplus_mod_idemp_l. f_equal. f_equal. lia.
Qed.

Lemma after_reads_config n : config_ok (after_reads n).
Proof. split; cbn; unfold INT_MAX; lia. Qed.

Lemma after_reads_next n :
  ∃ out, LRU.sim_mmu 0 "R" (after_reads n) = Some (0, after_reads (n + 1), out).
Proof.
  unfold LRU.sim_mmu.
  rewrite (sim_mmu_present _ _ _ _ (after_reads n) 0 "R"
             (mk_spage 1 0 0 0 (to_unsigned (n - 1))));
    [|apply after_reads_config|unfold UINT_MAX; lia|reflexivity|done].
  change (page_index (after_reads n) 0) with 0.
  rewrite (lru_reference_spec (after_reads n) 0 "R"
             (mk_spage 1 0 0 0 (to_unsigned (n - 1)))) by reflexivity.
  eexists. f_equal. f_equal. f_equal.
  unfold lru_referenced, after_reads. cbn.
  rewrite to_unsigned_succ, to_int_succ.
  replace (n + 1 - 1) with n by lia. reflexivity.
Qed.

Lemma after_reads_reachable n : 1 ≤ n → lru_reachable (after_reads n).
Proof.
  intros Hn. replace n with (Z.succ (n - 1)) by lia.
  assert (H0 : 0 ≤ n - 1) by lia. revert H0. generalize (n - 1). clear.
  apply natlike_ind.
  - destruct after_reads_first as (S & out & Hinit & Hrun).
    eapply (reach_step _ _ _ 0 "R");
      [eapply reach_init; [|exact Hinit]| |exact Hrun].
    + split; cbn; unfold INT_MAX; lia.
    + unfold UINT_MAX. lia.
  - intros x Hx IH. destruct (after_reads_next (Z.succ x)) as [out Hrun].
    eapply (reach_step _ _ _ 0 "R"); [exact IH| |].
    + unfold UINT_MAX. lia.
    + replace (Z.succ (Z.succ x)) with (Z.succ x + 1) by lia. exact Hrun.
Qed.

Lemma saturated_reachable : lru_reachable saturated.
Proof. unfold saturated. apply after_reads_reachable. lia. Qed.

(** C3.  In the reachable state [saturated] no frame is free and page 0 is
    present, yet [choose_page_to_be_replaced] returns [-1]: the scan starts
    from [UINT_MAX] and compares with [<], so a page whose timestamp is
    [UINT_MAX] is never taken. *)
Theorem lru_choose_misses_saturated_page :
  lru_reachable saturated ∧
  listfree saturated = -1 ∧
  zget (pgt saturated) 0 = Some (mk_spage 1 0 0 0 UINT_MAX) ∧
  LRU.choose_page_to_be_replaced saturated = Some (-1, saturated, []).
Proof.
  split; [exact saturated_reachable|]. split_and!; reflexivity.
Qed.

(** C2.  In the same state a fault on page 1, which is in range and not
    present, has no defined outcome: the victim is [-1] and [replace_page]
    reads [pgt[-1]]. *)
Theorem lru_fault_fails_without_candidate :
  lru_reachable saturated ∧
  0 < numframes saturated ∧
  page_index saturated 100 = 1 ∧
  zget (pgt saturated) 1 = Some Header.zero_page ∧
  LRU.replace_page (-1) 1 saturated = None ∧
  LRU.handle_page_fault 100 saturated = None ∧
  LRU.sim_mmu 100 "R" saturated = None.
Proof.
  split; [exact saturated_reachable|]. split_and!; reflexivity.
Qed.

(** ** Free and occupied frames *)

Lemma holds_page_spec S f :
  config_ok S → resident (pgt S) (frt S) →
  holds_page (frt S) f ↔ ∃ q, page_at (frt S) f = Some q ∧ q ≠ -1.
Proof.
  intros Hc [_ H2]. unfold holds_page, page_at.
  destruct (zget (frt S) f) as [fe|] eqn:Hfe; cbn.
  - rewrite Is_true_true, Z.leb_le. split.
    + intros Hq. exists (page fe). split; [done|lia].
    + intros (q & [= <-] & Hne).
      destruct (H2 f (page fe)) as (e & He & _); [|done|].
      * unfold page_at. by rewrite Hfe.
      * apply zget_range in He. lia.
  - split; [done|]. by intros (q & ? & _).
Qed.

Lemma frames_partition S l :
  config_ok S → resident (pgt S) (frt S) → free_is (frt S) (listfree S) l →
  free_frames S = l ∧
  NoDup (free_frames S) ∧ NoDup (occupied_frames S) ∧
  (∀ f, 0 ≤ f < numframes S →
        (f ∈ free_frames S ∧ f ∉ occupied_frames S) ∨
        ((f ∉ free_frames S) ∧ f ∈ occupied_frames S)) ∧
  (∀ f, f ∈ free_frames S ∨ f ∈ occupied_frames S → 0 ≤ f < numframes S) ∧
  Z.of_nat (length (free_frames S) + length (occupied_frames S)) = numframes S.
Proof.
  intros Hc Hres [Hring Hmem].
  assert (Hfree : free_frames S = l) by (by apply circular_list_ring).
  assert (Hocc : ∀ f, f ∈ occupied_frames S ↔
                      0 ≤ f < numframes S ∧ ∃ q, page_at (frt S) f = Some q ∧ q ≠ -1).
  { intros f. unfold occupied_frames.
    rewrite list_elem_of_filter, elem_of_seqZ, (holds_page_spec S f Hc Hres). 
    split; intros [? ?]; (split; [done || lia | done || lia]). }
  assert (Hin : ∀ f, 0 ≤ f < numframes S → ∃ q, page_at (frt S) f = Some q).
  { intros f Hf. destruct (zget_is_Some (frt S) f) as [fe Hfe].
    - destruct Hc. lia.
    - exists (page fe). unfold page_at. by rewrite Hfe. }
  assert (Hl : ∀ f, f ∈ l ↔ 0 ≤ f < numframes S ∧ page_at (frt S) f = Some (-1)).
  { intros f. split.
    - intros Hf. destruct (ring_in_range _ _ _ _ Hring Hf) as [fe Hfe].
      pose proof (zget_range _ _ _ Hfe) as Hr. split; [destruct Hc; lia|].
      by eapply free_is_page.
    - intros [_ Hq]. by apply (Hmem _ _ Hq). }
  rewrite Hfree. split_and!.
  - done.
  - by eapply ring_NoDup.
  - apply NoDup_filter, NoDup_seqZ.
  - intros f Hf. destruct (Hin f Hf) as [q Hq].
    destruct (decide (q = -1)) as [->|Hne].
    + left. split; [by apply Hl|]. rewrite Hocc. intros [_ (q' & Hq' & Hne)]. congruence.
    + right. split; [|apply Hocc; eauto]. rewrite Hl. intros [_ Hq']. congruence.
  - intros f [Hf|Hf]; [by apply Hl in Hf as [? _]|by apply Hocc in Hf as [? _]].
  - assert (Hperm : l ≡ₚ filter (λ f, ¬ holds_page (frt S) f) (seqZ 0 (numframes S))).
    { apply NoDup_Permutation.
      - by eapply ring_NoDup.
      - apply NoDup_filter, NoDup_seqZ.
      - intros f. rewrite list_elem_of_filter, elem_of_seqZ, Hl.
        rewrite (holds_page_spec S f Hc Hres). split.
        + intros [Hf Hq]. split; [|lia]. intros (q & Hq' & Hne). congruence.
        + intros [Hno Hf]. assert (Hf' : 0 ≤ f < numframes S) by lia.
          split; [done|]. destruct (Hin f Hf') as [q Hq].
          destruct (decide (q = -1)) as [->|Hne]; [done|].
          destruct Hno. eauto. }
    pose proof (filter_app_complement (λ f, holds_page (frt S) f : Prop)
                  (seqZ 0 (numframes S))) as Hall.
    apply Permutation_length in Hall. rewrite length_app, length_seqZ in Hall.
    rewrite (Permutation_length Hperm). unfold occupied_frames.
    destruct Hc. lia.
Qed.

(** Under FIFO the list of occupied frames holds the same frames. *)
Lemma fifo_occupied_list S l o :
  fifo_state S l o →
  circular_list (frt S) (listoccupied S) = o ∧ o ≡ₚ occupied_frames S.
Proof.
  intros (Hc & Hres & Hfree & [Hring Hmem]). split; [by apply circular_list_ring|].
  apply NoDup_Permutation.
  - by eapply ring_NoDup.
  - apply NoDup_filter, NoDup_seqZ.
  - intros f. unfold occupied_frames.
    rewrite list_elem_of_filter, elem_of_seqZ, (holds_page_spec S f Hc Hres). split.
    + intros Hf. destruct (ring_in_range _ _ _ _ Hring Hf) as [fe Hfe].
      pose proof (zget_range _ _ _ Hfe) as Hr.
      assert (Hq : page_at (frt S) f = Some (page fe)) by (unfold page_at; by rewrite Hfe).
      split; [|destruct Hc; lia].
      exists (page fe). split; [done|]. by apply (Hmem _ _ Hq).
    + intros [(q & Hq & Hne) _]. by apply (Hmem _ _ Hq).
Qed.

(** C7. In every state of a run, under either policy, the frames of the
    free list and the frames holding a page partition the configured
    frames: each list is duplicate-free, every frame is in exactly one of
    them, and their lengths add up to [numframes]; under FIFO the circular
    list of occupied frames holds exactly the frames holding a page. *)
Theorem frames_partitioned S :
  fifo_reachable S ∨ lru_reachable S →
  NoDup (free_frames S) ∧ NoDup (occupied_frames S) ∧
  (∀ f, 0 ≤ f < numframes S →
        (f ∈ free_frames S ∧ f ∉ occupied_frames S) ∨
        ((f ∉ free_frames S) ∧ f ∈ occupied_frames S)) ∧
  (∀ f, f ∈ free_frames S ∨ f ∈ occupied_frames S → 0 ≤ f < numframes S) ∧
  Z.of_nat (length (free_frames S) + length (occupied_frames S)) = numframes S ∧
  (fifo_reachable S →
   circular_list (frt S) (listoccupied S) ≡ₚ occupied_frames S).
Proof.
  intros Hreach.
  assert (Hst : ∃ l, config_ok S ∧ resident (pgt S) (frt S) ∧
                     free_is (frt S) (listfree S) l).
  { destruct Hreach as [(l & o & Hc & Hres & Hfree & _)%fifo_reachable_state
                       |(l & Hst)%lru_reachable_state]; eauto. }
  destruct Hst as (l & Hc & Hres & Hfree).
  destruct (frames_partition S l Hc Hres Hfree) as (_ & H1 & H2 & H3 & H4 & H5).
  split_and!; try done.
  intros (l' & o & Hst)%fifo_reachable_state.
  destruct (fifo_occupied_list S l' o Hst) as [-> Hperm]. done.
Qed.

Lemma frames_partitioned_witness :
  ∃ S, fifo_reachable S ∧
       Z.of_nat (length (free_frames S) + length (occupied_frames S)) = 2.
Proof.
  assert (Hinit : ∃ S out, FIFO.init_tables small_system = Some (tt, S, out)).
  { eexists _, _. reflexivity. }
  destruct Hinit as (S & out & Hinit).
  assert (Hreach : fifo_reachable S).
  { eapply reach_init; [exact small_system_ok|exact Hinit]. }
  exists S. split; [exact Hreach|].
  destruct (frames_partitioned S (or_introl Hreach)) as (_ & _ & _ & _ & Hsum & _).
  rewrite Hsum. vm_compute in Hinit. by injection Hinit as <- _.
Defined.

(** ** Translations in full *)

Lemma legal_page S va :
  config_ok S → 0 ≤ va ≤ UINT_MAX → 0 ≤ va / pagsz S < numpags S →
  page_index S va = va / pagsz S ∧ is_Some (zget (pgt S) (page_index S va)).
Proof.
  intros Hc Hva Hlegal.
  destruct (page_index_legal S va Hc Hva) as (Hp & _ & _).
  assert (Hpi : page_index S va = va / pagsz S).
  { rewrite Hp. apply to_int_small. destruct Hc. unfold INT_MIN. lia. }
  split; [done|]. apply zget_is_Some. destruct Hc. lia.
Qed.

Lemma same_setup_address S S' e va :
  same_setup S S' →
  page_index S' va = page_index S va ∧ physical S' e va = physical S e va.
Proof.
  intros (Hsz & _). unfold page_index, physical, page_offset. by rewrite Hsz.
Qed.

Lemma fifo_referenced_entry S p op e :
  zget (pgt S) p = Some e →
  ∃ e', zget (pgt (fifo_referenced S p op e)) p = Some e' ∧
        present e' = present e ∧ frame e' = frame e ∧
        numpagefaults (fifo_referenced S p op e) = numpagefaults S.
Proof.
  intros He. pose proof (zget_range _ _ _ He). unfold fifo_referenced.
  destruct (Ascii.eqb op "R"); [by exists e|].
  destruct (Ascii.eqb op "W"); [|by exists e].
  exists (set_modified 1 e). cbn. split; [by apply zget_zset_same|done].
Qed.

Lemma lru_referenced_entry S p op e :
  zget (pgt S) p = Some e →
  ∃ e', zget (pgt (lru_referenced S p op e)) p = Some e' ∧
        present e' = present e ∧ frame e' = frame e ∧
        numpagefaults (lru_referenced S p op e) = numpagefaults S.
Proof.
  intros He. pose proof (zget_range _ _ _ He). unfold lru_referenced.
  eexists. cbn. split; [by apply zget_zset_same|].
  by destruct (Ascii.eqb op "R"), (Ascii.eqb op "W").
Qed.

Lemma fifo_referenced_setup S p op e :
  same_setup S (fifo_referenced S p op e).
Proof.
  unfold fifo_referenced.
  destruct (Ascii.eqb op "R"); [by repeat split|].
  destruct (Ascii.eqb op "W"); repeat split; cbn; by rewrite ?length_zset.
Qed.

Lemma lru_referenced_setup S p op e :
  same_setup S (lru_referenced S p op e).
Proof.
  unfold lru_referenced.
  destruct (Ascii.eqb op "R"); repeat split; cbn; by rewrite ?length_zset.
Qed.

Lemma fifo_translate_hit S va op e :
  config_ok S → 0 ≤ va ≤ UINT_MAX →
  zget (pgt S) (page_index S va) = Some e → present e ≠ 0 →
  ∃ out,
    FIFO.sim_mmu va op S =
      Some (physical S e va, fifo_referenced S (page_index S va) op e, out).
Proof.
  intros Hc Hva He Hpr. unfold FIFO.sim_mmu.
  rewrite (sim_mmu_present _ _ _ _ S va op e Hc Hva He Hpr).
  rewrite (fifo_reference_spec _ _ op _ He). eauto.
Qed.

Lemma fifo_translate_miss S va op e S1 o1 e1 :
  config_ok S → 0 ≤ va ≤ UINT_MAX →
  zget (pgt S) (page_index S va) = Some e → present e = 0 →
  FIFO.handle_page_fault va S = Some (tt, S1, o1) →
  pagsz S1 = pagsz S →
  zget (pgt S1) (page_index S va) = Some e1 →
  ∃ out,
    FIFO.sim_mmu va op S =
      Some (physical S e1 va, fifo_referenced S1 (page_index S va) op e1, out).
Proof.
  intros Hc Hva He Hpr Hrun Hsz He1. unfold FIFO.sim_mmu.
  rewrite (sim_mmu_absent _ _ _ _ S va op e Hc Hva He Hpr).
  unfold FIFO.handle_page_fault in Hrun. rewrite Hrun, He1, Hsz.
  rewrite (fifo_reference_spec _ _ op _ He1). eauto.
Qed.

Lemma lru_translate_hit S va op e :
  config_ok S → 0 ≤ va ≤ UINT_MAX →
  zget (pgt S) (page_index S va) = Some e → present e ≠ 0 →
  ∃ out,
    LRU.sim_mmu va op S =
      Some (physical S e va, lru_referenced S (page_index S va) op e, out).
Proof.
  intros Hc Hva He Hpr. unfold LRU.sim_mmu.
  rewrite (sim_mmu_present _ _ _ _ S va op e Hc Hva He Hpr).
  rewrite (lru_reference_spec _ _ op _ He). eauto.
Qed.

Lemma lru_translate_miss S va op e S1 o1 e1 :
  config_ok S → 0 ≤ va ≤ UINT_MAX →
  zget (pgt S) (page_index S va) = Some e → present e = 0 →
  LRU.handle_page_fault va S = Some (tt, S1, o1) →
  pagsz S1 = pagsz S →
  zget (pgt S1) (page_index S va) = Some e1 →
  ∃ out,
    LRU.sim_mmu va op S =
      Some (physical S e1 va, lru_referenced S1 (page_index S va) op e1, out).
Proof.
  intros Hc Hva He Hpr Hrun Hsz He1. unfold LRU.sim_mmu.
  rewrite (sim_mmu_absent _ _ _ _ S va op e Hc Hva He Hpr).
  unfold LRU.handle_page_fault in Hrun. rewrite Hrun, He1, Hsz.
  rewrite (lru_reference_spec _ _ op _ He1). eauto.
Qed.

(** A translation of a legal address that completes ends in the state
    [reference_page] leaves from one where the page is present. *)
Lemma fifo_translate S l o va op :
  fifo_state S l o → 0 ≤ va ≤ UINT_MAX → 0 ≤ va / pagsz S < numpags S →
  ∃ Sx ex out,
    FIFO.sim_mmu va op S =
      Some (physical S ex va, fifo_referenced Sx (page_index S va) op ex, out) ∧
    zget (pgt Sx) (page_index S va) = Some ex ∧ present ex ≠ 0 ∧
    config_ok Sx ∧ same_setup S Sx.
Proof.
  intros Hst Hva Hlegal. pose proof Hst as (Hc & _).
  destruct (legal_page S va Hc Hva Hlegal) as [_ [e He]].
  destruct (decide (present e = 0)) as [Hpr|Hpr].
  - destruct (fifo_handle_page_fault_total S l o va e Hst Hva He Hpr)
      as (S1 & o1 & l' & o' & f & Hrun & Hst1 & Hsame1 & He1 & _).
    destruct (fifo_translate_miss S va op e S1 o1 _ Hc Hva He Hpr Hrun
                (proj1 Hsame1) He1) as [out Hmmu].
    exists S1, (mk_spage 1 f 0 0 0), out. split_and!; try done. apply Hst1.
  - destruct (fifo_translate_hit S va op e Hc Hva He Hpr) as [out Hmmu].
    exists S, e, out. split_and!; try done.
Qed.

Lemma lru_translate S l va op pa S' out :
  lru_state S l → 0 ≤ va ≤ UINT_MAX → 0 ≤ va / pagsz S < numpags S →
  LRU.sim_mmu va op S = Some (pa, S', out) →
  ∃ Sx ex,
    pa = physical S ex va ∧ S' = lru_referenced Sx (page_index S va) op ex ∧
    zget (pgt Sx) (page_index S va) = Some ex ∧ present ex ≠ 0 ∧
    config_ok Sx ∧ same_setup S Sx.
Proof.
  intros Hst Hva Hlegal Hmmu. pose proof Hst as (Hc & _).
  destruct (legal_page S va Hc Hva Hlegal) as [_ [e He]].
  destruct (decide (present e = 0)) as [Hpr|Hpr].
  - assert (Hfault : ∃ S1 o1 e1,
              LRU.handle_page_fault va S = Some (tt, S1, o1) ∧
              zget (pgt S1) (page_index S va) = Some e1 ∧ present e1 ≠ 0 ∧
              config_ok S1 ∧ same_setup S S1).
    { destruct l as [|h t].
      - destruct (lru_candidate_or_saturated S) as [Hcand|Hsat]; [apply Hc| |].
        + destruct (lru_fault_evict S va e Hst Hva He Hpr Hcand)
            as (v & ev & fh & S1 & o1 & Hev & _ & Hfh & _ & _ & _ & Hrun & HS1 & Hst1).
          pose proof (zget_range _ _ _ Hev). pose proof (zget_range _ _ _ Hfh).
          pose proof (zget_range _ _ _ He).
          exists S1, o1, (mk_spage 1 (frame ev) 0 (referenced e) (timestamp e)).
          refine (conj Hrun (conj _ (conj _ (conj (proj1 Hst1) _))));
            rewrite ?HS1; cbn.
          * apply zget_zset_same. rewrite length_zset. lia.
          * done.
          * repeat split; cbn; by rewrite ?length_zset.
        + exfalso. unfold LRU.sim_mmu in Hmmu.
          rewrite (sim_mmu_absent _ _ _ _ S va op e Hc Hva He Hpr) in Hmmu.
          assert (Hlf : listfree S = -1) by apply Hst.
          pose proof (lru_fault_stuck S va Hc Hlf Hsat) as Hstuck.
          unfold LRU.handle_page_fault in Hstuck. by rewrite Hstuck in Hmmu.
      - destruct (lru_fault_free S va h t e Hst Hva He Hpr)
          as (S1 & o1 & Hrun & Hst1 & Hsame & Hpgt & _).
        exists S1, o1, (mk_spage 1 h 0 0 0).
        refine (conj Hrun (conj _ (conj _ (conj (proj1 Hst1) Hsame)))).
        + rewrite Hpgt. apply zget_zset_same. by apply zget_range in He.
        + done. }
    destruct Hfault as (S1 & o1 & e1 & Hrun & He1 & Hpr1 & Hc1 & Hsame1).
    destruct (lru_translate_miss S va op e S1 o1 e1 Hc Hva He Hpr Hrun
                (proj1 Hsame1) He1) as [out' Hmmu'].
    rewrite Hmmu in Hmmu'. injection Hmmu' as -> -> ->.
    by exists S1, e1.
  - destruct (lru_translate_hit S va op e Hc Hva He Hpr) as [out' Hmmu'].
    rewrite Hmmu in Hmmu'. injection Hmmu' as -> -> ->.
    exists S, e. split_and!; try done.
Qed.

(** A second translation of the same address finds the page where the
    first one left it. *)
Lemma fifo_translate_again S S1 ex e' va op :
  config_ok S1 → same_setup S S1 → 0 ≤ va ≤ UINT_MAX →
  zget (pgt S1) (page_index S va) = Some e' →
  present e' ≠ 0 → frame e' = frame ex →
  ∃ S2 out2,
    FIFO.sim_mmu va op S1 = Some (physical S ex va, S2, out2) ∧
    numpagefaults S2 = numpagefaults S1.
Proof.
  intros Hc1 Hsame Hva He' Hpr' Hfr'.
  destruct (same_setup_address S S1 e' va Hsame) as [Hpi Hph].
  rewrite <- Hpi in He'.
  destruct (fifo_translate_hit S1 va op e' Hc1 Hva He' Hpr') as [out2 Hmmu2].
  destruct (fifo_referenced_entry S1 (page_index S1 va) op e' He')
    as (_ & _ & _ & _ & Hpf2).
  eexists _, out2. split; [|exact Hpf2].
  rewrite Hmmu2, Hph. unfold physical. by rewrite Hfr'.
Qed.

Lemma lru_translate_again S S1 ex e' va op :
  config_ok S1 → same_setup S S1 → 0 ≤ va ≤ UINT_MAX →
  zget (pgt S1) (page_index S va) = Some e' →
  present e' ≠ 0 → frame e' = frame ex →
  ∃ S2 out2,
    LRU.sim_mmu va op S1 = Some (physical S ex va, S2, out2) ∧
    numpagefaults S2 = numpagefaults S1.
Proof.
  intros Hc1 Hsame Hva He' Hpr' Hfr'.
  destruct (same_setup_address S S1 e' va Hsame) as [Hpi Hph].
  rewrite <- Hpi in He'.
  destruct (lru_translate_hit S1 va op e' Hc1 Hva He' Hpr') as [out2 Hmmu2].
  destruct (lru_referenced_entry S1 (page_index S1 va) op e' He')
    as (_ & _ & _ & _ & Hpf2).
  eexists _, out2. split; [|exact Hpf2].
  rewrite Hmmu2, Hph. unfold physical. by rewrite Hfr'.
Qed.

(** X24. Translating a legal address twice in a row gives the same physical
    address, and the second translation does not count a page fault.  Under
    FIFO both translations complete in every state of a run; under LRU the
    second completes whenever the first one does, which it does as soon as a
    frame is free or the scan has a candidate. *)
Theorem translation_repeats S va op :
  0 ≤ va ≤ UINT_MAX → 0 ≤ va / pagsz S < numpags S →
  (fifo_reachable S →
   ∃ pa S1 out1 S2 out2,
     FIFO.sim_mmu va op S = Some (pa, S1, out1) ∧
     FIFO.sim_mmu va op S1 = Some (pa, S2, out2) ∧
     numpagefaults S2 = numpagefaults S1) ∧
  (lru_reachable S →
   (∀ pa S1 out1,
      LRU.sim_mmu va op S = Some (pa, S1, out1) →
      ∃ S2 out2,
        LRU.sim_mmu va op S1 = Some (pa, S2, out2) ∧
        numpagefaults S2 = numpagefaults S1) ∧
   (lru_candidate S ∨ listfree S ≠ -1 →
    ∃ pa S1 out1, LRU.sim_mmu va op S = Some (pa, S1, out1))).
Proof.
  intros Hva Hlegal. split.
  - intros (l & o & Hst)%fifo_reachable_state.
    destruct (fifo_translate S l o va op Hst Hva Hlegal)
      as (Sx & ex & out1 & Hmmu & Hex & Hprx & Hcx & Hsame).
    destruct (fifo_referenced_entry Sx (page_index S va) op ex Hex)
      as (e' & He' & Hpr' & Hfr' & Hpf).
    pose proof (fifo_referenced_setup Sx (page_index S va) op ex) as Hsame1.
    pose proof (same_setup_trans _ _ _ Hsame Hsame1) as Hsame2.
    destruct (fifo_translate_again S _ ex e' va op
                (same_setup_config _ _ Hsame1 Hcx) Hsame2 Hva He')
      as (S2 & out2 & Hmmu2 & Hpf2); [congruence|done|].
    eexists _, _, out1, S2, out2. split; [exact Hmmu|]. split; [exact Hmmu2|exact Hpf2].
  - intros (l & Hst)%lru_reachable_state. split.
    + intros pa S1 out1 Hmmu.
      destruct (lru_translate S l va op pa S1 out1 Hst Hva Hlegal Hmmu)
        as (Sx & ex & -> & -> & Hex & Hprx & Hcx & Hsame).
      destruct (lru_referenced_entry Sx (page_index S va) op ex Hex)
        as (e' & He' & Hpr' & Hfr' & Hpf).
      pose proof (lru_referenced_setup Sx (page_index S va) op ex) as Hsame1.
      pose proof (same_setup_trans _ _ _ Hsame Hsame1) as Hsame2.
      apply (lru_translate_again S _ ex e' va op
               (same_setup_config _ _ Hsame1 Hcx) Hsame2 Hva He');
        [congruence|done].
    + intros Hcan.
      destruct (lru_sim_mmu_legal S l va op Hst Hva Hlegal)
        as [(_ & -> & Hno)|(pa & S1 & out1 & _ & Hmmu & _)].
      * destruct Hcan as [?|Hlf]; [done|]. destruct Hlf. apply Hst.
      * eauto.
Qed.

(** ** Scenarios *)

Lemma trace_cons mmu va op l S pa S1 o1 :
  mmu va op S = Some (pa, S1, o1) →
  trace mmu ((va, op) :: l) S =
    match trace mmu l S1 with
    | Some (b, S2, o2) => Some (b, S2, o1 ++ o2)
    | None => None
    end.
Proof. intros H. cbn [trace]. by rewrite (sim_bind_eq _ _ _ _ _ _ H). Qed.

Lemma free_is_empty frt l : free_is frt (-1) l → l = [].
Proof.
  intros [Hr _]. destruct (ring_tail_cases _ _ _ Hr) as [[_ ->]|Hin]; [done|].
  destruct (ring_in_range _ _ _ _ Hr Hin) as [fe Hfe%zget_range]. lia.
Qed.

(** The state after [init_tables], in the terms the scenarios need. *)
Lemma fifo_start S0 :
  config_ok S0 →
  ∃ S,
    FIFO.init_tables S0 = Some (tt, S, []) ∧
    fifo_state S (seqZ 0 (numframes S0)) [] ∧ same_setup S0 S ∧
    pgt S = replicate (length (pgt S0)) Header.zero_page ∧
    clock S = 0 ∧ counters S = counters S0.
Proof.
  intros Hc. destruct (init_tables_spec S0 Hc) as (frt' & Hinit & Hlen & Hget).
  destruct (fifo_init_state S0 _ _ Hc Hinit) as [Hst Hsame].
  eexists. split; [exact Hinit|]. by split_and!.
Qed.

Lemma zero_page_at n p :
  0 ≤ p < Z.of_nat n → zget (replicate n Header.zero_page) p = Some Header.zero_page.
Proof.
  intros Hp. apply zget_Some. split; [lia|]. apply lookup_replicate. split; [done|lia].
Qed.

Lemma page_index_known S0 S va i :
  config_ok S → same_setup S0 S → 0 ≤ va ≤ UINT_MAX →
  va / pagsz S0 = i → 0 ≤ i < numpags S0 →
  page_index S va = i.
Proof.
  intros Hc (Hsz & Hnp & _) Hva Hi Hr.
  destruct (legal_page S va Hc Hva) as [Hp _]; [rewrite Hsz, Hnp; lia|].
  by rewrite Hp, Hsz.
Qed.

(** ** Accesses, by case *)

Lemma fifo_referenced_fields S p op e :
  zget (pgt S) p = Some e →
  pgt (fifo_referenced S p op e) = zset (pgt S) p (fifo_touch op e) ∧
  frt (fifo_referenced S p op e) = frt S ∧
  numpagefaults (fifo_referenced S p op e) = numpagefaults S ∧
  numpgwriteback (fifo_referenced S p op e) = numpgwriteback S.
Proof.
  intros He. unfold fifo_referenced, fifo_touch.
  destruct (Ascii.eqb op "R"); [by rewrite zset_id|].
  destruct (Ascii.eqb op "W"); [done|by rewrite zset_id].
Qed.

Lemma lru_referenced_fields S p op e :
  pgt (lru_referenced S p op e) = zset (pgt S) p (lru_touch (clock S) op e) ∧
  frt (lru_referenced S p op e) = frt S ∧
  listfree (lru_referenced S p op e) = listfree S ∧
  clock (lru_referenced S p op e) = to_unsigned (clock S + 1) ∧
  numpagefaults (lru_referenced S p op e) = numpagefaults S ∧
  numpgwriteback (lru_referenced S p op e) = numpgwriteback S.
Proof. unfold lru_referenced, lru_touch. by destruct (Ascii.eqb op "R"). Qed.

Lemma fifo_access_hit S l o va op e :
  fifo_state S l o → 0 ≤ va ≤ UINT_MAX →
  zget (pgt S) (page_index S va) = Some e → present e ≠ 0 →
  ∃ pa S' out,
    FIFO.sim_mmu va op S = Some (pa, S', out) ∧
    fifo_state S' l o ∧ same_setup S S' ∧
    pgt S' = zset (pgt S) (page_index S va) (fifo_touch op e) ∧
    frt S' = frt S ∧
    numpagefaults S' = numpagefaults S ∧ numpgwriteback S' = numpgwriteback S.
Proof.
  intros Hst Hva He Hpr.
  destruct (fifo_translate_hit S va op e (proj1 Hst) Hva He Hpr) as [out Hmmu].
  destruct (fifo_reference_state S l o _ op e Hst He) as [Hst' Hs'].
  destruct (fifo_referenced_fields S _ op e He) as (? & ? & ? & ?).
  eexists _, _, out. split; [exact Hmmu|]. by split_and!.
Qed.

Lemma fifo_access_free S va op h t o e :
  fifo_state S (h :: t) o → 0 ≤ va ≤ UINT_MAX →
  zget (pgt S) (page_index S va) = Some e → present e = 0 →
  ∃ pa S' out,
    FIFO.sim_mmu va op S = Some (pa, S', out) ∧
    fifo_state S' t (o ++ [h]) ∧ same_setup S S' ∧
    pgt S' = zset (pgt S) (page_index S va) (fifo_touch op (mk_spage 1 h 0 0 0)) ∧
    (∀ x, page_at (frt S') x =
            if decide (x = h) then Some (page_index S va) else page_at (frt S) x) ∧
    numpagefaults S' = to_int (numpagefaults S + 1) ∧
    numpgwriteback S' = numpgwriteback S.
Proof.
  intros Hst Hva He Hpr. pose proof (zget_range _ _ _ He) as Hr.
  destruct (fifo_fault_free S va h t o e Hst Hva He Hpr)
    as (S1 & o1 & Hrun & Hst1 & Hs1 & Hpgt1 & Hpage1 & _ & Hcnt1).
  unfold counters in Hcnt1. injection Hcnt1 as _ _ Hpf1 Hwb1 _.
  assert (He1 : zget (pgt S1) (page_index S va) = Some (mk_spage 1 h 0 0 0)).
  { rewrite Hpgt1. by apply zget_zset_same. }
  destruct (fifo_translate_miss S va op e S1 o1 _ (proj1 Hst) Hva He Hpr Hrun
              (proj1 Hs1) He1) as [out Hmmu].
  destruct (fifo_reference_state S1 _ _ _ op _ Hst1 He1) as [Hst' Hs'].
  destruct (fifo_referenced_fields S1 _ op _ He1) as (Hpgt' & Hfrt' & Hpf' & Hwb').
  eexists _, _, out. split; [exact Hmmu|]. split_and!; try done.
  - by eapply same_setup_trans.
  - by rewrite Hpgt', Hpgt1, zset_zset.
  - intros x. by rewrite Hfrt'.
  - congruence.
  - congruence.
Qed.

Lemma fifo_access_evict S va op h t e :
  fifo_state S [] (h :: t) → 0 ≤ va ≤ UINT_MAX →
  zget (pgt S) (page_index S va) = Some e → present e = 0 →
  ∃ v ev pa S' out,
    page_at (frt S) h = Some v ∧ zget (pgt S) v = Some ev ∧
    FIFO.sim_mmu va op S = Some (pa, S', out) ∧
    fifo_state S' [] (t ++ [h]) ∧ same_setup S S' ∧
    pgt S' = zset (zset (pgt S) v
                     (mk_spage 0 (-1) 0 (referenced ev) (timestamp ev)))
               (page_index S va) (fifo_touch op (mk_spage 1 h 0 0 0)) ∧
    (∀ x, page_at (frt S') x =
            if decide (x = h) then Some (page_index S va) else page_at (frt S) x) ∧
    numpagefaults S' = to_int (numpagefaults S + 1) ∧
    numpgwriteback S' =
      (if truthy (modified ev) then to_int (numpgwriteback S + 1)
       else numpgwriteback S).
Proof.
  intros Hst Hva He Hpr. pose proof (zget_range _ _ _ He) as Hr.
  destruct (fifo_fault_evict S va h t e Hst Hva He Hpr)
    as (fh & ev & S1 & o1 & Hfh & Hev & Hprv & Hfrv & Hrun & HS1 & Hst1).
  pose proof (zget_range _ _ _ Hfh) as Hrh. pose proof (zget_range _ _ _ Hev) as Hrv.
  assert (He1 : zget (pgt S1) (page_index S va) = Some (mk_spage 1 h 0 0 0)).
  { rewrite HS1. cbn. apply zget_zset_same. by rewrite length_zset. }
  assert (Hs1 : same_setup S S1).
  { rewrite HS1. repeat split; cbn; by rewrite ?length_zset. }
  destruct (fifo_translate_miss S va op e S1 o1 _ (proj1 Hst) Hva He Hpr Hrun
              (proj1 Hs1) He1) as [out Hmmu].
  destruct (fifo_reference_state S1 _ _ _ op _ Hst1 He1) as [Hst' Hs'].
  destruct (fifo_referenced_fields S1 _ op _ He1) as (Hpgt' & Hfrt' & Hpf' & Hwb').
  exists (page fh), ev. eexists _, _, out.
  split; [unfold page_at; by rewrite Hfh|]. split; [done|].
  split; [exact Hmmu|]. split; [done|].
  split; [by eapply same_setup_trans|].
  rewrite Hpgt', Hfrt', Hpf', Hwb', HS1. cbn. split_and!; try done.
  - by rewrite zset_zset.
  - intros x. by frt_simpl.
Qed.

Lemma lru_access_hit S l va op e :
  lru_state S l → 0 ≤ va ≤ UINT_MAX →
  zget (pgt S) (page_index S va) = Some e → present e ≠ 0 →
  ∃ pa S' out,
    LRU.sim_mmu va op S = Some (pa, S', out) ∧
    lru_state S' l ∧ same_setup S S' ∧
    pgt S' = zset (pgt S) (page_index S va) (lru_touch (clock S) op e) ∧
    frt S' = frt S ∧ clock S' = to_unsigned (clock S + 1) ∧
    numpagefaults S' = numpagefaults S ∧ numpgwriteback S' = numpgwriteback S.
Proof.
  intros Hst Hva He Hpr.
  destruct (lru_translate_hit S va op e (proj1 Hst) Hva He Hpr) as [out Hmmu].
  destruct (lru_reference_state S l _ op e Hst He) as [Hst' Hs'].
  destruct (lru_referenced_fields S (page_index S va) op e) as (? & ? & ? & ? & ? & ?).
  eexists _, _, out. split; [exact Hmmu|]. by split_and!.
Qed.

Lemma lru_access_free S va op h t e :
  lru_state S (h :: t) → 0 ≤ va ≤ UINT_MAX →
  zget (pgt S) (page_index S va) = Some e → present e = 0 →
  ∃ pa S' out,
    LRU.sim_mmu va op S = Some (pa, S', out) ∧
    lru_state S' t ∧ same_setup S S' ∧
    pgt S' = zset (pgt S) (page_index S va)
               (lru_touch (clock S) op (mk_spage 1 h 0 0 0)) ∧
    (∀ x, page_at (frt S') x =
            if decide (x = h) then Some (page_index S va) else page_at (frt S) x) ∧
    clock S' = to_unsigned (clock S + 1) ∧
    numpagefaults S' = to_int (numpagefaults S + 1) ∧
    numpgwriteback S' = numpgwriteback S.
Proof.
  intros Hst Hva He Hpr. pose proof (zget_range _ _ _ He) as Hr.
  destruct (lru_fault_free S va h t e Hst Hva He Hpr)
    as (S1 & o1 & Hrun & Hst1 & Hs1 & Hpgt1 & Hpage1 & Hclock1 & _ & Hcnt1).
  unfold counters in Hcnt1. injection Hcnt1 as _ _ Hpf1 Hwb1 _.
  assert (He1 : zget (pgt S1) (page_index S va) = Some (mk_spage 1 h 0 0 0)).
  { rewrite Hpgt1. by apply zget_zset_same. }
  destruct (lru_translate_miss S va op e S1 o1 _ (proj1 Hst) Hva He Hpr Hrun
              (proj1 Hs1) He1) as [out Hmmu].
  destruct (lru_reference_state S1 _ _ op _ Hst1 He1) as [Hst' Hs'].
  destruct (lru_referenced_fields S1 (page_index S va) op (mk_spage 1 h 0 0 0))
    as (Hpgt' & Hfrt' & _ & Hclock' & Hpf' & Hwb').
  eexists _, _, out. split; [exact Hmmu|]. split_and!; try done.
  - by eapply same_setup_trans.
  - by rewrite Hpgt', Hpgt1, zset_zset, Hclock1.
  - intros x. by rewrite Hfrt'.
  - congruence.
  - congruence.
  - congruence.
Qed.

Lemma lru_access_evict S va op e :
  lru_state S [] → 0 ≤ va ≤ UINT_MAX →
  zget (pgt S) (page_index S va) = Some e → present e = 0 →
  lru_candidate S →
  ∃ v ev pa S' out,
    zget (pgt S) v = Some ev ∧ present ev ≠ 0 ∧
    (∀ i ei, zget (pgt S) i = Some ei → present ei ≠ 0 →
             timestamp ev ≤ timestamp ei) ∧
    (∀ i ei, i < v → zget (pgt S) i = Some ei → present ei ≠ 0 →
             timestamp ev < timestamp ei) ∧
    LRU.sim_mmu va op S = Some (pa, S', out) ∧
    lru_state S' [] ∧ same_setup S S' ∧
    pgt S' = zset (zset (pgt S) v (set_present 0 ev)) (page_index S va)
               (lru_touch (clock S) op
                  (mk_spage 1 (frame ev) 0 (referenced e) (timestamp e))) ∧
    (∀ x, page_at (frt S') x =
            if decide (x = frame ev) then Some (page_index S va)
            else page_at (frt S) x) ∧
    clock S' = to_unsigned (clock S + 1) ∧
    numpagefaults S' = to_int (numpagefaults S + 1) ∧
    numpgwriteback S' =
      (if truthy (modified ev) then to_int (numpgwriteback S + 1)
       else numpgwriteback S).
Proof.
  intros Hst Hva He Hpr Hcand. pose proof (zget_range _ _ _ He) as Hr.
  destruct (lru_fault_evict S va e Hst Hva He Hpr Hcand)
    as (v & ev & fh & S1 & o1 & Hev & Hprv & Hfh & Hpv & Hmin & Hfirst & Hrun & HS1 & Hst1).
  pose proof (zget_range _ _ _ Hfh) as Hrh. pose proof (zget_range _ _ _ Hev) as Hrv.
  assert (He1 : zget (pgt S1) (page_index S va) =
                Some (mk_spage 1 (frame ev) 0 (referenced e) (timestamp e))).
  { rewrite HS1. cbn. apply zget_zset_same. by rewrite length_zset. }
  assert (Hs1 : same_setup S S1).
  { rewrite HS1. repeat split; cbn; by rewrite ?length_zset. }
  destruct (lru_translate_miss S va op e S1 o1 _ (proj1 Hst) Hva He Hpr Hrun
              (proj1 Hs1) He1) as [out Hmmu].
  destruct (lru_reference_state S1 _ _ op _ Hst1 He1) as [Hst' Hs'].
  destruct (lru_referenced_fields S1 (page_index S va) op
              (mk_spage 1 (frame ev) 0 (referenced e) (timestamp e)))
    as (Hpgt' & Hfrt' & _ & Hclock' & Hpf' & Hwb').
  exists v, ev. eexists _, _, out.
  split; [done|]. split; [done|]. split; [done|]. split; [done|].
  split; [exact Hmmu|]. split; [done|].
  split; [by eapply same_setup_trans|].
  rewrite Hpgt', Hfrt', Hpf', Hwb', Hclock', HS1. cbn. split_and!; try done.
  - by rewrite zset_zset.
  - intros x. by frt_simpl.
Qed.

(** C4. FIFO with two frames and reads of pages 0, 1 and 2: three page
    faults, page 0 (the oldest) is gone, frame 0 holds page 2 and frame 1
    holds page 1. *)
Theorem fifo_three_pages_two_frames S0 va0 va1 va2 :
  config_ok S0 → numframes S0 = 2 → numpagefaults S0 = 0 →
  0 ≤ va0 ≤ UINT_MAX → 0 ≤ va1 ≤ UINT_MAX → 0 ≤ va2 ≤ UINT_MAX →
  va0 / pagsz S0 = 0 → va1 / pagsz S0 = 1 → va2 / pagsz S0 = 2 →
  2 < numpags S0 →
  ∃ S out e0 e1 e2,
    (FIFO.init_tables ≫= λ _,
       trace FIFO.sim_mmu [(va0, "R"%char); (va1, "R"%char); (va2, "R"%char)]) S0
      = Some (tt, S, out) ∧
    numpagefaults S = 3 ∧
    zget (pgt S) 0 = Some e0 ∧ present e0 = 0 ∧
    zget (pgt S) 1 = Some e1 ∧ present e1 = 1 ∧ frame e1 = 1 ∧
    zget (pgt S) 2 = Some e2 ∧ present e2 = 1 ∧ frame e2 = 0 ∧
    page_at (frt S) 0 = Some 2 ∧ page_at (frt S) 1 = Some 1 ∧
    free_frames S = [] ∧ circular_list (frt S) (listoccupied S) = [1; 0].
Proof.
  intros Hc0 Hnf Hpf0 Hva0 Hva1 Hva2 Hp0 Hp1 Hp2 Hnp.
  destruct (fifo_start S0 Hc0) as (Sa & Hinit & Hsta & Hsa & Hpgta & _ & Hcnta).
  rewrite Hnf in Hsta. change (seqZ 0 2) with [0; 1] in Hsta.
  assert (Hlen : Z.of_nat (length (pgt S0)) = numpags S0) by apply Hc0.
  unfold counters in Hcnta. injection Hcnta as _ _ Hpfa _ _.
  (* page 0 into frame 0 *)
  pose proof (page_index_known S0 Sa va0 0 (proj1 Hsta) Hsa Hva0 Hp0 ltac:(lia)) as Hi0.
  assert (Hea : zget (pgt Sa) (page_index Sa va0) = Some Header.zero_page).
  { rewrite Hi0, Hpgta. apply zero_page_at. lia. }
  destruct (fifo_access_free Sa va0 "R" 0 [1] [] _ Hsta Hva0 Hea eq_refl)
    as (pa1 & S1 & out1 & Hmmu1 & Hst1 & Hs1 & Hpgt1 & Hpage1 & Hpf1 & _).
  rewrite Hi0 in Hpgt1, Hpage1. cbn in Hpgt1, Hst1.
  pose proof (same_setup_trans _ _ _ Hsa Hs1) as Hs01.
  (* page 1 into frame 1 *)
  pose proof (page_index_known S0 S1 va1 1 (proj1 Hst1) Hs01 Hva1 Hp1 ltac:(lia)) as Hi1.
  assert (He1 : zget (pgt S1) (page_index S1 va1) = Some Header.zero_page).
  { rewrite Hi1, Hpgt1, Hpgta, zget_zset_in by (rewrite length_replicate; lia).
    rewrite decide_False by lia. apply zero_page_at. lia. }
  destruct (fifo_access_free S1 va1 "R" 1 [] [0] _ Hst1 Hva1 He1 eq_refl)
    as (pa2 & S2 & out2 & Hmmu2 & Hst2 & Hs2 & Hpgt2 & Hpage2 & Hpf2 & _).
  rewrite Hi1 in Hpgt2, Hpage2. cbn in Hpgt2, Hst2.
  pose proof (same_setup_trans _ _ _ Hs01 Hs2) as Hs02.
  (* page 2 replaces page 0 *)
  pose proof (page_index_known S0 S2 va2 2 (proj1 Hst2) Hs02 Hva2 Hp2 ltac:(lia)) as Hi2.
  assert (Hlen1 : length (pgt S1) = length (pgt S0)).
  { by rewrite Hpgt1, length_zset, Hpgta, length_replicate. }
  assert (He2 : zget (pgt S2) (page_index S2 va2) = Some Header.zero_page).
  { rewrite Hi2, Hpgt2, zget_zset_in by lia. rewrite decide_False by lia.
    rewrite Hpgt1, Hpgta, zget_zset_in by (rewrite length_replicate; lia).
    rewrite decide_False by lia. apply zero_page_at. lia. }
  destruct (fifo_access_evict S2 va2 "R" 0 [1] _ Hst2 Hva2 He2 eq_refl)
    as (v & ev & pa3 & S3 & out3 & Hv & Hev & Hmmu3 & Hst3 & Hs3 & Hpgt3 & Hpage3 & Hpf3 & _).
  rewrite Hi2 in Hpgt3, Hpage3. cbn in Hpgt3, Hst3.
  rewrite Hpage2, decide_False, Hpage1, decide_True in Hv by lia.
  injection Hv as <-.
  rewrite Hpgt2, zget_zset_in, decide_False in Hev by lia.
  rewrite Hpgt1, zget_zset_same in Hev by (rewrite Hpgta, length_replicate; lia).
  injection Hev as <-. cbn in Hpgt3.
  assert (Hlen2 : length (pgt S2) = length (pgt S0)).
  { by rewrite Hpgt2, length_zset. }
  (* the run *)
  exists S3. eexists _, _, _, _.
  split.
  { rewrite (sim_bind_eq _ _ _ _ _ _ Hinit).
    rewrite (trace_cons _ _ _ _ _ _ _ _ Hmmu1), (trace_cons _ _ _ _ _ _ _ _ Hmmu2),
      (trace_cons _ _ _ _ _ _ _ _ Hmmu3).
    reflexivity. }
  split.
  { rewrite Hpf3, Hpf2, Hpf1, Hpfa, Hpf0. reflexivity. }
  rewrite Hpgt3.
  split; [rewrite zget_zset_in, decide_False by (rewrite ?length_zset; lia);
          apply zget_zset_same; lia|].
  split; [done|].
  split; [rewrite !zget_zset_in, !decide_False by (rewrite ?length_zset; lia);
          rewrite Hpgt2; apply zget_zset_same; lia|].
  split; [done|]. split; [done|].
  split; [apply zget_zset_same; rewrite length_zset; lia|].
  split; [done|]. split; [done|].
  split; [by rewrite Hpage3, decide_True|].
  split; [rewrite Hpage3, decide_False, Hpage2, decide_True by lia; done|].
  destruct Hst3 as (_ & _ & [Hfree _] & [Hocc _]).
  split; by apply circular_list_ring.
Qed.

Lemma fifo_three_pages_witness :
  ∃ S out e0 e1 e2,
    (FIFO.init_tables ≫= λ _,
       trace FIFO.sim_mmu [(0, "R"%char); (150, "R"%char); (250, "R"%char)])
      small_system = Some (tt, S, out) ∧
    numpagefaults S = 3 ∧
    zget (pgt S) 0 = Some e0 ∧ present e0 = 0 ∧
    zget (pgt S) 1 = Some e1 ∧ present e1 = 1 ∧ frame e1 = 1 ∧
    zget (pgt S) 2 = Some e2 ∧ present e2 = 1 ∧ frame e2 = 0 ∧
    page_at (frt S) 0 = Some 2 ∧ page_at (frt S) 1 = Some 1 ∧
    free_frames S = [] ∧ circular_list (frt S) (listoccupied S) = [1; 0].
Proof.
  apply (fifo_three_pages_two_frames small_system 0 150 250);
    try reflexivity; try exact small_system_ok;
    try (unfold UINT_MAX; lia).
Defined.

(** ** Evictions *)

Lemma lru_victim_unique S v ev v' ev' :
  zget (pgt S) v = Some ev → present ev ≠ 0 →
  zget (pgt S) v' = Some ev' → present ev' ≠ 0 →
  (∀ i ei, zget (pgt S) i = Some ei → present ei ≠ 0 →
           timestamp ev ≤ timestamp ei) →
  (∀ i ei, i < v → zget (pgt S) i = Some ei → present ei ≠ 0 →
           timestamp ev < timestamp ei) →
  (∀ i ei, zget (pgt S) i = Some ei → present ei ≠ 0 →
           timestamp ev' ≤ timestamp ei) →
  (∀ i ei, i < v' → zget (pgt S) i = Some ei → present ei ≠ 0 →
           timestamp ev' < timestamp ei) →
  v = v'.
Proof.
  intros Hev Hpr Hev' Hpr' Hmin Hfirst Hmin' Hfirst'.
  destruct (Z.lt_trichotomy v v') as [Hlt|[->|Hgt]]; [|done|].
  - specialize (Hfirst' v ev Hlt Hev Hpr). specialize (Hmin v' ev' Hev' Hpr'). lia.
  - specialize (Hfirst v' ev' Hgt Hev' Hpr'). specialize (Hmin' v ev Hev Hpr). lia.
Qed.

(** What the fault handler does when no frame is free, under FIFO. *)
Lemma fifo_eviction S va e :
  fifo_reachable S → 0 ≤ va ≤ UINT_MAX →
  zget (pgt S) (page_index S va) = Some e → present e = 0 →
  listfree S = -1 →
  ∃ v ev S' out o ev' e',
    FIFO.choose_page_to_be_replaced S = Some (v, S, o) ∧
    zget (pgt S) v = Some ev ∧ present ev ≠ 0 ∧
    FIFO.handle_page_fault va S = Some (tt, S', out) ∧
    zget (pgt S') v = Some ev' ∧ present ev' = 0 ∧
    numpgwriteback S' =
      (if truthy (modified ev) then to_int (numpgwriteback S + 1)
       else numpgwriteback S) ∧
    zget (pgt S') (page_index S va) = Some e' ∧
    present e' = 1 ∧ modified e' = 0 ∧ frame e' = frame ev ∧
    page_at (frt S') (frame ev) = Some (page_index S va) ∧
    listoccupied S' = frame ev.
Proof.
  intros (l & o & Hst)%fifo_reachable_state Hva He Hpr Hlf.
  assert (l = []) as ->.
  { destruct Hst as (_ & _ & Hfree & _). rewrite Hlf in Hfree.
    by eapply free_is_empty. }
  pose proof (fifo_state_occupied _ _ Hst) as Hne.
  destruct o as [|h t]; [done|].
  destruct (fifo_fault_evict S va h t e Hst Hva He Hpr)
    as (fh & ev & S' & out & Hfh & Hev & Hprv & Hfrv & Hrun & HS' & _).
  destruct Hst as (_ & _ & _ & [Hring _]).
  destruct (fifo_choose_spec S h t fh Hring Hfh) as [oc Hch].
  pose proof (zget_range _ _ _ Hfh). pose proof (zget_range _ _ _ Hev).
  pose proof (zget_range _ _ _ He).
  assert (Hvp : page fh ≠ page_index S va) by (intros Heq; congruence).
  exists (page fh), ev, S', out, oc,
    (mk_spage 0 (-1) 0 (referenced ev) (timestamp ev)), (mk_spage 1 h 0 0 0).
  rewrite Hfrv. split_and!; try done; rewrite HS'; cbn; try done.
  - rewrite zget_zset_ne by (done || lia). by apply zget_zset_same.
  - apply zget_zset_same. rewrite length_zset. lia.
  - frt_simpl. by rewrite decide_True.
Qed.

(** And under LRU, when the scan has a candidate. *)
Lemma lru_eviction S va e :
  lru_reachable S → 0 ≤ va ≤ UINT_MAX →
  zget (pgt S) (page_index S va) = Some e → present e = 0 →
  listfree S = -1 → lru_candidate S →
  ∃ v ev S' out o ev' e',
    LRU.choose_page_to_be_replaced S = Some (v, S, o) ∧
    zget (pgt S) v = Some ev ∧ present ev ≠ 0 ∧
    LRU.handle_page_fault va S = Some (tt, S', out) ∧
    zget (pgt S') v = Some ev' ∧ present ev' = 0 ∧
    numpgwriteback S' =
      (if truthy (modified ev) then to_int (numpgwriteback S + 1)
       else numpgwriteback S) ∧
    zget (pgt S') (page_index S va) = Some e' ∧
    present e' = 1 ∧ modified e' = 0 ∧ frame e' = frame ev ∧
    timestamp e' = timestamp e ∧
    page_at (frt S') (frame ev) = Some (page_index S va) ∧
    listoccupied S' = listoccupied S ∧ clock S' = clock S ∧
    (∀ x, next_of (frt S') x = next_of (frt S) x).
Proof.
  intros (l & Hst)%lru_reachable_state Hva He Hpr Hlf Hcand.
  assert (l = []) as ->.
  { destruct Hst as (_ & _ & Hfree). rewrite Hlf in Hfree.
    by eapply free_is_empty. }
  destruct (lru_fault_evict S va e Hst Hva He Hpr Hcand)
    as (v & ev & fh & S' & out & Hev & Hprv & Hfh & Hpv & Hmin & Hfirst & Hrun & HS' & _).
  destruct (lru_choose_spec S (cfg_pgt _ (proj1 Hst)) Hcand)
    as (v' & ev' & oc & Hch & Hev' & Hprv' & _ & Hmin' & Hfirst').
  assert (v' = v) as ->
    by (eapply (lru_victim_unique S v' ev' v ev); eassumption).
  pose proof (zget_range _ _ _ Hfh). pose proof (zget_range _ _ _ Hev).
  pose proof (zget_range _ _ _ He).
  assert (Hvp : v ≠ page_index S va) by (intros Heq; congruence).
  exists v, ev, S', out, oc, (set_present 0 ev),
    (mk_spage 1 (frame ev) 0 (referenced e) (timestamp e)).
  split_and!; try done; rewrite HS'; cbn; try done.
  - rewrite zget_zset_ne by (done || lia). by apply zget_zset_same.
  - apply zget_zset_same. rewrite length_zset. lia.
  - frt_simpl. by rewrite decide_True.
  - intros x. frt_simpl. case_decide; [subst|done]. unfold next_of. by rewrite Hfh.
Qed.

Lemma fifo_full_run :
  FIFO.init_tables small_system = Some (tt, fifo_started, []) ∧
  FIFO.sim_mmu 0 "R" fifo_started = Some (0, fifo_one, []) ∧
  FIFO.sim_mmu 150 "R" fifo_one = Some (150, fifo_full, []).
Proof. split_and!; vm_compute; reflexivity. Qed.

Lemma fifo_full_reachable : fifo_reachable fifo_full.
Proof.
  destruct fifo_full_run as (H0 & H1 & H2).
  eapply (reach_step _ _ _ 150 "R"); [|unfold UINT_MAX; lia|exact H2].
  eapply (reach_step _ _ _ 0 "R"); [|unfold UINT_MAX; lia|exact H1].
  eapply reach_init; [exact small_system_ok|exact H0].
Qed.


Lemma after_one_read :
  lru_reachable (after_reads 1) ∧ lru_candidate (after_reads 1).
Proof.
  split; [apply after_reads_reachable; lia|].
  exists 0, (mk_spage 1 0 0 0 0). unfold UINT_MAX. by split_and!.
Qed.



Lemma lru_start S0 :
  config_ok S0 →
  ∃ S,
    LRU.init_tables S0 = Some (tt, S, []) ∧
    lru_state S (seqZ 0 (numframes S0)) ∧ same_setup S0 S ∧
    pgt S = replicate (length (pgt S0)) Header.zero_page ∧
    clock S = 0 ∧ counters S = counters S0.
Proof.
  intros Hc. destruct (fifo_start S0 Hc) as (S & Hinit & (? & ? & ? & _) & ? & ? & ? & ?).
  exists S. split; [exact Hinit|]. unfold lru_state. by split_and!.
Qed.

(** LRU with two frames and the accesses R0, W1, W0, R2: the fourth access
    replaces page 1, which was written, and counts one write-back. *)
Lemma lru_write_back_run S0 va0 va1 va0' va2 :
  config_ok S0 → numframes S0 = 2 → 2 < numpags S0 →
  0 ≤ va0 ≤ UINT_MAX → 0 ≤ va1 ≤ UINT_MAX →
  0 ≤ va0' ≤ UINT_MAX → 0 ≤ va2 ≤ UINT_MAX →
  va0 / pagsz S0 = 0 → va1 / pagsz S0 = 1 →
  va0' / pagsz S0 = 0 → va2 / pagsz S0 = 2 →
  ∃ S3 out3 pa S4 out4 e0 e1 e1' e2,
    (LRU.init_tables ≫= λ _,
       trace LRU.sim_mmu [(va0, "R"%char); (va1, "W"%char); (va0', "W"%char)]) S0
      = Some (tt, S3, out3) ∧
    numpgwriteback S3 = numpgwriteback S0 ∧
    listfree S3 = -1 ∧
    zget (pgt S3) 1 = Some e1 ∧ present e1 = 1 ∧ modified e1 = 1 ∧
    LRU.sim_mmu va2 "R" S3 = Some (pa, S4, out4) ∧
    numpgwriteback S4 = to_int (numpgwriteback S0 + 1) ∧
    zget (pgt S4) 0 = Some e0 ∧ present e0 = 1 ∧
    zget (pgt S4) 1 = Some e1' ∧ present e1' = 0 ∧
    zget (pgt S4) 2 = Some e2 ∧ present e2 = 1 ∧ frame e2 = frame e1.
Proof.
  intros Hc0 Hnf Hnp Hva0 Hva1 Hva0' Hva2 Hp0 Hp1 Hp0' Hp2.
  destruct (lru_start S0 Hc0) as (Sa & Hinit & Hsta & Hsa & Hpgta & Hclocka & Hcnta).
  rewrite Hnf in Hsta. change (seqZ 0 2) with [0; 1] in Hsta.
  assert (Hlen : Z.of_nat (length (pgt S0)) = numpags S0) by apply Hc0.
  unfold counters in Hcnta. injection Hcnta as _ _ _ Hwba _.
  (* R0: page 0 into frame 0 *)
  pose proof (page_index_known S0 Sa va0 0 (proj1 Hsta) Hsa Hva0 Hp0 ltac:(lia)) as Hi0.
  assert (Hea : zget (pgt Sa) (page_index Sa va0) = Some Header.zero_page).
  { rewrite Hi0, Hpgta. apply zero_page_at. lia. }
  destruct (lru_access_free Sa va0 "R" 0 [1] _ Hsta Hva0 Hea eq_refl)
    as (pa1 & S1 & out1 & Hmmu1 & Hst1 & Hs1 & Hpgt1 & Hpage1 & Hclock1 & _ & Hwb1).
  rewrite Hi0, Hclocka in Hpgt1. rewrite Hclocka in Hclock1.
  cbn in Hpgt1. change (to_unsigned (0 + 1)) with 1 in Hclock1.
  pose proof (same_setup_trans _ _ _ Hsa Hs1) as Hs01.
  assert (Hlen1 : length (pgt S1) = length (pgt S0)).
  { by rewrite Hpgt1, length_zset, Hpgta, length_replicate. }
  (* W1: page 1 into frame 1 *)
  pose proof (page_index_known S0 S1 va1 1 (proj1 Hst1) Hs01 Hva1 Hp1 ltac:(lia)) as Hi1.
  assert (He1 : zget (pgt S1) (page_index S1 va1) = Some Header.zero_page).
  { rewrite Hi1, Hpgt1, Hpgta, zget_zset_in by (rewrite length_replicate; lia).
    rewrite decide_False by lia. apply zero_page_at. lia. }
  destruct (lru_access_free S1 va1 "W" 1 [] _ Hst1 Hva1 He1 eq_refl)
    as (pa2 & S2 & out2 & Hmmu2 & Hst2 & Hs2 & Hpgt2 & Hpage2 & Hclock2 & _ & Hwb2).
  rewrite Hi1, Hclock1 in Hpgt2. rewrite Hclock1 in Hclock2.
  cbn in Hpgt2. change (to_unsigned (1 + 1)) with 2 in Hclock2.
  pose proof (same_setup_trans _ _ _ Hs01 Hs2) as Hs02.
  assert (Hlen2 : length (pgt S2) = length (pgt S0)).
  { by rewrite Hpgt2, length_zset. }
  (* W0: page 0 is present *)
  pose proof (page_index_known S0 S2 va0' 0 (proj1 Hst2) Hs02 Hva0' Hp0' ltac:(lia)) as Hi0'.
  assert (He0' : zget (pgt S2) (page_index S2 va0') = Some (mk_spage 1 0 0 0 0)).
  { rewrite Hi0', Hpgt2, zget_zset_in, decide_False by lia.
    rewrite Hpgt1. apply zget_zset_same. rewrite Hpgta, length_replicate. lia. }
  destruct (lru_access_hit S2 [] va0' "W" _ Hst2 Hva0' He0' ltac:(done))
    as (pa3 & S3 & out3 & Hmmu3 & Hst3 & Hs3 & Hpgt3 & Hfrt3 & Hclock3 & _ & Hwb3).
  rewrite Hi0', Hclock2 in Hpgt3. rewrite Hclock2 in Hclock3.
  cbn in Hpgt3. change (to_unsigned (2 + 1)) with 3 in Hclock3.
  pose proof (same_setup_trans _ _ _ Hs02 Hs3) as Hs03.
  assert (Hlen3 : length (pgt S3) = length (pgt S0)).
  { by rewrite Hpgt3, length_zset. }
  (* the page table before the fourth access *)
  assert (Hpgt : ∀ q, zget (pgt S3) q =
            if decide (q = 0) then Some (mk_spage 1 0 1 0 2)
            else if decide (q = 1) then Some (mk_spage 1 1 1 0 1)
            else zget (replicate (length (pgt S0)) Header.zero_page) q).
  { intros q. rewrite Hpgt3, zget_zset_in by lia. case_decide; [done|].
    rewrite Hpgt2, zget_zset_in by lia. case_decide; [done|].
    rewrite Hpgt1, Hpgta, zget_zset_in by (rewrite length_replicate; lia).
    by rewrite decide_False. }
  (* R2: page 2 replaces the least recently used page *)
  pose proof (page_index_known S0 S3 va2 2 (proj1 Hst3) Hs03 Hva2 Hp2 ltac:(lia)) as Hi2.
  assert (He2 : zget (pgt S3) (page_index S3 va2) = Some Header.zero_page).
  { rewrite Hi2, Hpgt, !decide_False by lia. apply zero_page_at. lia. }
  assert (Hcand : lru_candidate S3).
  { exists 1, (mk_spage 1 1 1 0 1). rewrite Hpgt. cbn. unfold UINT_MAX.
    split_and!; [done|done|lia]. }
  destruct (lru_access_evict S3 va2 "R" _ Hst3 Hva2 He2 eq_refl Hcand)
    as (v & ev & pa4 & S4 & out4 & Hev & Hprv & Hmin & _ & Hmmu4 & Hst4 & _
        & Hpgt4 & _ & _ & _ & Hwb4).
  assert (v = 1 ∧ ev = mk_spage 1 1 1 0 1) as [-> ->].
  { rewrite Hpgt in Hev. repeat case_decide.
    - injection Hev as <-.
      specialize (Hmin 1 (mk_spage 1 1 1 0 1)). rewrite Hpgt in Hmin.
      cbn in Hmin. specialize (Hmin eq_refl ltac:(done)). lia.
    - by injection Hev as <-.
    - apply zget_Some in Hev as [_ Hev]. apply lookup_replicate in Hev as [-> _].
      done. }
  rewrite Hi2 in Hpgt4. cbn in Hpgt4, Hwb4.
  exists S3. eexists _, pa4, S4, out4, _, _, _, _.
  split.
  { rewrite (sim_bind_eq _ _ _ _ _ _ Hinit).
    rewrite (trace_cons _ _ _ _ _ _ _ _ Hmmu1), (trace_cons _ _ _ _ _ _ _ _ Hmmu2),
      (trace_cons _ _ _ _ _ _ _ _ Hmmu3).
    reflexivity. }
  split; [congruence|].
  split; [apply Hst3|].
  split; [by rewrite Hpgt|]. split; [done|]. split; [done|].
  split; [exact Hmmu4|].
  split; [rewrite Hwb4; congruence|].
  rewrite Hpgt4.
  split; [rewrite !zget_zset_in, !decide_False by (rewrite ?length_zset; lia);
          by rewrite Hpgt|].
  split; [done|].
  split; [rewrite zget_zset_in, decide_False by (rewrite ?length_zset; lia);
          apply zget_zset_same; lia|].
  split; [done|].
  split; [apply zget_zset_same; rewrite length_zset; lia|].
  done.
Qed.

(** C5. Whenever the fault handler replaces a page, under either policy,
    [numpgwriteback] is incremented once (in [int] arithmetic) if the
    victim's [modified] flag is set at that moment and keeps its value
    otherwise; and LRU with two frames counts exactly one write-back on the
    accesses R0, W1, W0, R2, when the last access replaces page 1. *)
Theorem write_back_accounting :
  (∀ S va e,
     0 ≤ va ≤ UINT_MAX →
     zget (pgt S) (page_index S va) = Some e → present e = 0 →
     listfree S = -1 →
     (fifo_reachable S →
      ∃ v ev S' out o,
        FIFO.choose_page_to_be_replaced S = Some (v, S, o) ∧
        zget (pgt S) v = Some ev ∧
        FIFO.handle_page_fault va S = Some (tt, S', out) ∧
        numpgwriteback S' =
          (if truthy (modified ev) then to_int (numpgwriteback S + 1)
           else numpgwriteback S)) ∧
     (lru_reachable S → lru_candidate S →
      ∃ v ev S' out o,
        LRU.choose_page_to_be_replaced S = Some (v, S, o) ∧
        zget (pgt S) v = Some ev ∧
        LRU.handle_page_fault va S = Some (tt, S', out) ∧
        numpgwriteback S' =
          (if truthy (modified ev) then to_int (numpgwriteback S + 1)
           else numpgwriteback S))) ∧
  (∀ S0 va0 va1 va0' va2,
     config_ok S0 → numframes S0 = 2 → 2 < numpags S0 →
     0 ≤ va0 ≤ UINT_MAX → 0 ≤ va1 ≤ UINT_MAX →
     0 ≤ va0' ≤ UINT_MAX → 0 ≤ va2 ≤ UINT_MAX →
     va0 / pagsz S0 = 0 → va1 / pagsz S0 = 1 →
     va0' / pagsz S0 = 0 → va2 / pagsz S0 = 2 →
     INT_MIN ≤ numpgwriteback S0 < INT_MAX →
     ∃ S3 out3 pa S4 out4 e1 e1',
       (LRU.init_tables ≫= λ _,
          trace LRU.sim_mmu [(va0, "R"%char); (va1, "W"%char); (va0', "W"%char)]) S0
         = Some (tt, S3, out3) ∧
       numpgwriteback S3 = numpgwriteback S0 ∧
       zget (pgt S3) 1 = Some e1 ∧ present e1 = 1 ∧ modified e1 = 1 ∧
       LRU.sim_mmu va2 "R" S3 = Some (pa, S4, out4) ∧
       zget (pgt S4) 1 = Some e1' ∧ present e1' = 0 ∧
       numpgwriteback S4 = numpgwriteback S0 + 1).
Proof.
  split.
  - intros S va e Hva He Hpr Hlf. split.
    + intros Hreach.
      destruct (fifo_eviction S va e Hreach Hva He Hpr Hlf)
        as (v & ev & S' & out & o & _ & _ & Hch & Hev & _ & Hrun & _ & _ & Hwb & _).
      by exists v, ev, S', out, o.
    + intros Hreach Hcand.
      destruct (lru_eviction S va e Hreach Hva He Hpr Hlf Hcand)
        as (v & ev & S' & out & o & _ & _ & Hch & Hev & _ & Hrun & _ & _ & Hwb & _).
      by exists v, ev, S', out, o.
  - intros S0 va0 va1 va0' va2 Hc0 Hnf Hnp Hva0 Hva1 Hva0' Hva2 Hp0 Hp1 Hp0' Hp2 Hwb0.
    destruct (lru_write_back_run S0 va0 va1 va0' va2 Hc0 Hnf Hnp Hva0 Hva1 Hva0' Hva2
                Hp0 Hp1 Hp0' Hp2)
      as (S3 & out3 & pa & S4 & out4 & e0 & e1 & e1' & e2 & Hrun & Hwb3 & _ & He1 & Hpr1
          & Hm1 & Hmmu & Hwb4 & _ & _ & He1' & Hpr1' & _).
    exists S3, out3, pa, S4, out4, e1, e1'. split_and!; try done.
    rewrite Hwb4. apply to_int_small. unfold INT_MIN, INT_MAX in *. lia.
Qed.

Lemma write_back_witness :
  (∃ v ev S' out o,
     FIFO.choose_page_to_be_replaced fifo_full = Some (v, fifo_full, o) ∧
     zget (pgt fifo_full) v = Some ev ∧
     FIFO.handle_page_fault 250 fifo_full = Some (tt, S', out) ∧
     numpgwriteback S' =
       (if truthy (modified ev) then to_int (numpgwriteback fifo_full + 1)
        else numpgwriteback fifo_full)) ∧
  (∃ S3 out3 pa S4 out4 e1 e1',
     (LRU.init_tables ≫= λ _,
        trace LRU.sim_mmu [(0, "R"%char); (100, "W"%char); (50, "W"%char)])
       small_system = Some (tt, S3, out3) ∧
     numpgwriteback S3 = numpgwriteback small_system ∧
     zget (pgt S3) 1 = Some e1 ∧ present e1 = 1 ∧ modified e1 = 1 ∧
     LRU.sim_mmu 250 "R" S3 = Some (pa, S4, out4) ∧
     zget (pgt S4) 1 = Some e1' ∧ present e1' = 0 ∧
     numpgwriteback S4 = numpgwriteback small_system + 1).
Proof.
  split.
  - apply (proj1 (proj1 write_back_accounting fifo_full 250 Header.zero_page
                    ltac:(unfold UINT_MAX; lia) eq_refl eq_refl eq_refl)).
    exact fifo_full_reachable.
  - apply (proj2 write_back_accounting small_system 0 100 50 250);
      try reflexivity; try exact small_system_ok;
      try (unfold UINT_MAX; lia); try (unfold INT_MIN, INT_MAX; cbn; lia).
Defined.

(** A legal address translated twice: from the start of a FIFO run, and in
    an LRU run where the first translation replaces a page. *)
Lemma translation_repeats_witness :
  (∃ pa S1 out1 S2 out2,
     FIFO.sim_mmu 0 "R" fifo_started = Some (pa, S1, out1) ∧
     FIFO.sim_mmu 0 "R" S1 = Some (pa, S2, out2) ∧
     numpagefaults S2 = numpagefaults S1) ∧
  (∃ pa S1 out1 S2 out2,
     LRU.sim_mmu 100 "R" (after_reads 1) = Some (pa, S1, out1) ∧
     LRU.sim_mmu 100 "R" S1 = Some (pa, S2, out2) ∧
     numpagefaults S2 = numpagefaults S1).
Proof.
  split.
  - apply (translation_repeats fifo_started 0 "R").
    + unfold UINT_MAX. lia.
    + vm_compute. split; [discriminate|reflexivity].
    + eapply reach_init; [exact small_system_ok|exact (proj1 fifo_full_run)].
  - destruct (translation_repeats (after_reads 1) 100 "R") as [_ Hlru].
    + unfold UINT_MAX. lia.
    + vm_compute. split; [discriminate|reflexivity].
    + destruct (Hlru (proj1 after_one_read)) as [Hagain Hfirst].
      destruct (Hfirst (or_introl (proj2 after_one_read))) as (pa & S1 & out1 & H1).
      destruct (Hagain pa S1 out1 H1) as (S2 & out2 & H2 & Hpf).
      exists pa, S1, out1, S2, out2. split; [exact H1|]. split; [exact H2|exact Hpf].
Defined.

(** * Further properties of the code *)

(** X1. When some present page carries a timestamp below [UINT_MAX], the
    LRU [choose_page_to_be_replaced] leaves the system as it is and returns
    a present page whose timestamp is the least of all present pages, the
    one of lowest index among equals. *)
Theorem lru_choose_least_recent S :
  Z.of_nat (length (pgt S)) = numpags S → lru_candidate S →
  ∃ v ev out,
    LRU.choose_page_to_be_replaced S = Some (v, S, out) ∧
    zget (pgt S) v = Some ev ∧ present ev ≠ 0 ∧
    (∀ i ei, zget (pgt S) i = Some ei → present ei ≠ 0 →
             timestamp ev ≤ timestamp ei) ∧
    (∀ i ei, i < v → zget (pgt S) i = Some ei → present ei ≠ 0 →
             timestamp ev < timestamp ei).
Proof.
  intros Hlen Hcand.
  destruct (lru_choose_spec S Hlen Hcand) as (v & ev & out & H1 & H2 & H3 & _ & H4 & H5).
  by exists v, ev, out.
Qed.

Lemma lru_busy_run :
  (LRU.init_tables ≫= λ _,
     trace LRU.sim_mmu [(0, "R"%char); (150, "W"%char); (20, "R"%char)])
    small_system = Some (tt, lru_busy, []).
Proof. vm_compute. reflexivity. Qed.

Lemma lru_choose_least_recent_witness :
  ∃ v ev out,
    LRU.choose_page_to_be_replaced lru_busy = Some (v, lru_busy, out) ∧
    zget (pgt lru_busy) v = Some ev ∧ present ev ≠ 0 ∧
    (∀ i ei, zget (pgt lru_busy) i = Some ei → present ei ≠ 0 →
             timestamp ev ≤ timestamp ei) ∧
    (∀ i ei, i < v → zget (pgt lru_busy) i = Some ei → present ei ≠ 0 →
             timestamp ev < timestamp ei).
Proof.
  apply (lru_choose_least_recent lru_busy); [reflexivity|].
  exists 1, (mk_spage 1 1 1 0 1). unfold UINT_MAX. by split_and!.
Defined.

Lemma no_candidate_saturated S :
  ¬ lru_candidate S →
  ∀ p e, zget (pgt S) p = Some e → present e ≠ 0 → UINT_MAX ≤ timestamp e.
Proof.
  intros Hno p e He Hpr. destruct (decide (timestamp e < UINT_MAX)); [|lia].
  exfalso. apply Hno. by exists p, e.
Qed.

(** X2. When no page is present, or every present page carries the
    timestamp [UINT_MAX], the LRU [choose_page_to_be_replaced] returns its
    initial [-1] in quiet mode; in detailed mode it goes on to print
    [pgt[-1]] and has no defined result. *)
Theorem lru_choose_no_candidate S :
  Z.of_nat (length (pgt S)) = numpags S → ¬ lru_candidate S →
  LRU.choose_page_to_be_replaced S =
    if truthy (detailed S) then None else Some (-1, S, []).
Proof.
  intros Hlen Hno. apply lru_choose_none; [done|]. by apply no_candidate_saturated.
Qed.

Lemma fresh_tables_no_candidate n S :
  pgt S = replicate n Header.zero_page → ¬ lru_candidate S.
Proof.
  intros Hpgt (p & e & He & Hpr & _). rewrite Hpgt in He.
  apply zget_Some in He as [_ He]. apply lookup_replicate in He as [-> _]. done.
Qed.

Lemma lru_choose_no_candidate_witness :
  LRU.choose_page_to_be_replaced fifo_started = Some (-1, fifo_started, []).
Proof.
  apply (lru_choose_no_candidate fifo_started).
  - reflexivity.
  - by apply (fresh_tables_no_candidate 4).
Defined.

(** X3. In a FIFO run [choose_page_to_be_replaced] names the page held by
    the first frame of the list of occupied frames, the one occupied
    longest, and changes nothing; that page is present in that frame.  With
    an empty list ([listoccupied = -1]) the function reads [frt[-1]]. *)
Theorem fifo_victim_is_oldest S :
  fifo_reachable S →
  (listoccupied S = -1 → FIFO.choose_page_to_be_replaced S = None) ∧
  (listoccupied S ≠ -1 →
   ∃ h t v ev out,
     circular_list (frt S) (listoccupied S) = h :: t ∧
     page_at (frt S) h = Some v ∧
     zget (pgt S) v = Some ev ∧ present ev ≠ 0 ∧ frame ev = h ∧
     FIFO.choose_page_to_be_replaced S = Some (v, S, out)).
Proof.
  intros (l & o & Hst)%fifo_reachable_state. split.
  - intros Hlo. unfold FIFO.choose_page_to_be_replaced. sim_run.
    rewrite Hlo. by rewrite zget_None by lia.
  - intros Hlo. destruct Hst as (Hc & Hres & Hfree & Hocc).
    destruct o as [|h t]; [by destruct Hocc as [Hring _]|].
    destruct (occupied_is_page _ _ _ h Hocc) as (v & Hv & Hne); [set_solver|].
    pose proof Hv as (fh & Hfh & Hpage)%page_at_Some.
    destruct (proj2 Hres h v Hv Hne) as (ev & Hev & Hpr & Hfr).
    destruct (fifo_choose_spec S h t fh (proj1 Hocc) Hfh) as [out Hrun].
    exists h, t, v, ev, out. rewrite Hpage in Hrun.
    split; [by apply circular_list_ring, Hocc|done].
Qed.

Lemma fifo_victim_is_oldest_witness :
  ∃ h t v ev out,
    circular_list (frt fifo_full) (listoccupied fifo_full) = h :: t ∧
    page_at (frt fifo_full) h = Some v ∧
    zget (pgt fifo_full) v = Some ev ∧ present ev ≠ 0 ∧ frame ev = h ∧
    FIFO.choose_page_to_be_replaced fifo_full = Some (v, fifo_full, out).
Proof.
  apply (fifo_victim_is_oldest fifo_full fifo_full_reachable). done.
Defined.

(** X4. An operation other than ['R'] and ['W'] is ignored by the FIFO
    [reference_page] (no counter, no flag), while the LRU one counts it as a
    write without setting [modified], and stamps the page. *)
Theorem reference_page_other_operation S p op e :
  zget (pgt S) p = Some e → op ≠ "R"%char → op ≠ "W"%char →
  FIFO.reference_page p op S = Some (tt, S, []) ∧
  ∃ S' out,
    LRU.reference_page p op S = Some (tt, S', out) ∧
    numrefsread S' = numrefsread S ∧
    numrefswrite S' = to_int (numrefswrite S + 1) ∧
    zget (pgt S') p = Some (set_timestamp (clock S) e).
Proof.
  intros He HR HW.
  assert (ER : Ascii.eqb op "R" = false) by by apply Ascii.eqb_neq.
  assert (EW : Ascii.eqb op "W" = false) by by apply Ascii.eqb_neq.
  pose proof (zget_range _ _ _ He) as Hr.
  split.
  - rewrite (fifo_reference_spec S p op e He). unfold fifo_referenced.
    by rewrite ER, EW.
  - eexists _, _. split; [apply (lru_reference_spec S p op e He)|].
    unfold lru_referenced. rewrite ER, EW. cbn.
    split; [done|]. split; [done|]. by apply zget_zset_same.
Qed.

Lemma reference_page_other_operation_witness :
  FIFO.reference_page 0 "X" fifo_full = Some (tt, fifo_full, []) ∧
  ∃ S' out,
    LRU.reference_page 0 "X" fifo_full = Some (tt, S', out) ∧
    numrefsread S' = numrefsread fifo_full ∧
    numrefswrite S' = to_int (numrefswrite fifo_full + 1) ∧
    zget (pgt S') 0 = Some (set_timestamp (clock fifo_full) (mk_spage 1 0 0 0 0)).
Proof.
  apply (reference_page_other_operation fifo_full 0 "X" (mk_spage 1 0 0 0 0));
    [reflexivity|discriminate|discriminate].
Defined.

Lemma fifo_state_lists S l o :
  fifo_state S l o →
  free_frames S = l ∧ circular_list (frt S) (listoccupied S) = o.
Proof.
  intros Hst. pose proof Hst as (Hc & Hres & Hfree & Hocc). split.
  - by apply (frames_partition S l).
  - by apply (fifo_occupied_list S l o).
Qed.

(** X5. The queue discipline of FIFO.  A translation that hits leaves the
    list of occupied frames, the free list and the frames table as they
    are.  A fault with a free frame takes the first frame of the free list
    and appends it to the occupied list; a fault without one takes the first
    frame of the occupied list and moves it to the end.  Either way that
    frame then holds the page. *)
Theorem fifo_queue_discipline S va op :
  fifo_reachable S → 0 ≤ va ≤ UINT_MAX → 0 ≤ va / pagsz S < numpags S →
  ∃ e pa S' out,
    zget (pgt S) (va / pagsz S) = Some e ∧
    FIFO.sim_mmu va op S = Some (pa, S', out) ∧
    let queue := circular_list (frt S) (listoccupied S) in
    let queue' := circular_list (frt S') (listoccupied S') in
    if decide (present e = 0) then
      match free_frames S with
      | h :: t =>
          queue' = queue ++ [h] ∧ free_frames S' = t ∧
          page_at (frt S') h = Some (va / pagsz S)
      | [] =>
          ∃ h t, queue = h :: t ∧ queue' = t ++ [h] ∧ free_frames S' = [] ∧
                 page_at (frt S') h = Some (va / pagsz S)
      end
    else queue' = queue ∧ free_frames S' = free_frames S ∧ frt S' = frt S.
Proof.
  intros (l & o & Hst)%fifo_reachable_state Hva Hlegal.
  pose proof Hst as (Hc & _).
  destruct (legal_page S va Hc Hva Hlegal) as [Hp [e He]].
  destruct (fifo_state_lists S l o Hst) as [Hl Ho].
  exists e. rewrite <- Hp. cbv zeta. rewrite Hl, Ho.
  destruct (decide (present e = 0)) as [Hpr|Hpr].
  - destruct l as [|h t].
    + pose proof (fifo_state_occupied S o Hst) as Hne.
      destruct o as [|h t]; [done|].
      destruct (fifo_access_evict S va op h t e Hst Hva He Hpr)
        as (v & ev & pa & S' & out & _ & _ & Hrun & Hst' & _ & _ & Hpage & _).
      destruct (fifo_state_lists S' _ _ Hst') as [Hl' Ho'].
      exists pa, S', out. split; [done|]. split; [done|].
      exists h, t. rewrite Hl', Ho', Hpage, decide_True by done. done.
    + destruct (fifo_access_free S va op h t o e Hst Hva He Hpr)
        as (pa & S' & out & Hrun & Hst' & _ & _ & Hpage & _).
      destruct (fifo_state_lists S' _ _ Hst') as [Hl' Ho'].
      exists pa, S', out. split; [done|]. split; [done|].
      rewrite Hl', Ho', Hpage, decide_True by done. done.
  - destruct (fifo_access_hit S l o va op e Hst Hva He Hpr)
      as (pa & S' & out & Hrun & Hst' & _ & _ & Hfrt & _).
    destruct (fifo_state_lists S' _ _ Hst') as [Hl' Ho'].
    exists pa, S', out. split; [done|]. split; [done|].
    by rewrite Hl', Ho'.
Qed.

Lemma fifo_queue_discipline_witness :
  ∃ e pa S' out,
    zget (pgt fifo_full) (250 / pagsz fifo_full) = Some e ∧
    FIFO.sim_mmu 250 "R" fifo_full = Some (pa, S', out) ∧
    if decide (present e = 0) then
      match free_frames fifo_full with
      | h :: t =>
          circular_list (frt S') (listoccupied S') =
            circular_list (frt fifo_full) (listoccupied fifo_full) ++ [h] ∧
          free_frames S' = t ∧
          page_at (frt S') h = Some (250 / pagsz fifo_full)
      | [] =>
          ∃ h t, circular_list (frt fifo_full) (listoccupied fifo_full) = h :: t ∧
                 circular_list (frt S') (listoccupied S') = t ++ [h] ∧
                 free_frames S' = [] ∧
                 page_at (frt S') h = Some (250 / pagsz fifo_full)
      end
    else circular_list (frt S') (listoccupied S') =
           circular_list (frt fifo_full) (listoccupied fifo_full) ∧
         free_frames S' = free_frames fifo_full ∧ frt S' = frt fifo_full.
Proof.
  apply (fifo_queue_discipline fifo_full 250 "R").
  - exact fifo_full_reachable.
  - unfold UINT_MAX. lia.
  - vm_compute. split; discriminate || reflexivity.
Defined.

Lemma fifo_referenced_counters S p op e :
  numrefsread (fifo_referenced S p op e) =
    (if Ascii.eqb op "R" then to_int (numrefsread S + 1) else numrefsread S) ∧
  numrefswrite (fifo_referenced S p op e) =
    (if Ascii.eqb op "R" then numrefswrite S
     else if Ascii.eqb op "W" then to_int (numrefswrite S + 1) else numrefswrite S) ∧
  numpagefaults (fifo_referenced S p op e) = numpagefaults S ∧
  numpgwriteback (fifo_referenced S p op e) = numpgwriteback S ∧
  numillegalrefs (fifo_referenced S p op e) = numillegalrefs S.
Proof.
  unfold fifo_referenced.
  destruct (Ascii.eqb op "R"); [done|]. by destruct (Ascii.eqb op "W").
Qed.

(** X6. What one FIFO translation of a legal address adds to the counters:
    one read for ['R'], one write for ['W'], one page fault exactly when the
    page was absent, no write-back on a hit or when a frame was free, and
    never an illegal reference. *)
Theorem fifo_counter_accounting S va op :
  fifo_reachable S → 0 ≤ va ≤ UINT_MAX → 0 ≤ va / pagsz S < numpags S →
  ∃ e pa S' out,
    zget (pgt S) (va / pagsz S) = Some e ∧
    FIFO.sim_mmu va op S = Some (pa, S', out) ∧
    numrefsread S' =
      (if Ascii.eqb op "R" then to_int (numrefsread S + 1) else numrefsread S) ∧
    numrefswrite S' =
      (if Ascii.eqb op "W" then to_int (numrefswrite S + 1) else numrefswrite S) ∧
    numpagefaults S' =
      (if decide (present e = 0) then to_int (numpagefaults S + 1)
       else numpagefaults S) ∧
    (present e ≠ 0 ∨ listfree S ≠ -1 → numpgwriteback S' = numpgwriteback S) ∧
    numillegalrefs S' = numillegalrefs S.
Proof.
  intros (l & o & Hst)%fifo_reachable_state Hva Hlegal.
  pose proof Hst as (Hc & Hres & Hfree & Hocc).
  destruct (legal_page S va Hc Hva Hlegal) as [Hp [e He]].
  pose proof (zget_range _ _ _ He) as Hr.
  exists e. rewrite <- Hp.
  assert (Hw : ∀ x y : Z,
    (if Ascii.eqb op "R" then x
     else if Ascii.eqb op "W" then y else x) =
    (if Ascii.eqb op "W" then y else x)).
  { intros x y. destruct (Ascii.eqb_spec op "R") as [->|]; [done|done]. }
  destruct (decide (present e = 0)) as [Hpr|Hpr].
  - assert (Hfault : ∃ S1 o1 e1,
      FIFO.handle_page_fault va S = Some (tt, S1, o1) ∧
      pagsz S1 = pagsz S ∧ zget (pgt S1) (page_index S va) = Some e1 ∧
      numrefsread S1 = numrefsread S ∧ numrefswrite S1 = numrefswrite S ∧
      numpagefaults S1 = to_int (numpagefaults S + 1) ∧
      numillegalrefs S1 = numillegalrefs S ∧
      (listfree S ≠ -1 → numpgwriteback S1 = numpgwriteback S)).
    { destruct l as [|h t].
      - pose proof (fifo_state_occupied S o Hst) as Hne.
        destruct o as [|h t]; [done|].
        destruct (fifo_fault_evict S va h t e Hst Hva He Hpr)
          as (fh & ev & S1 & o1 & Hfh & Hev & _ & _ & Hrun & HS1 & _).
        pose proof (zget_range _ _ _ Hev).
        exists S1, o1, (mk_spage 1 h 0 0 0). subst S1. cbn.
        split_and!; try done.
        + apply zget_zset_same. rewrite length_zset. lia.
        + intros Hlf. by destruct Hfree as [Hring _].
      - destruct (fifo_fault_free S va h t o e Hst Hva He Hpr)
          as (S1 & o1 & Hrun & _ & Hsame & Hpgt & _ & _ & Hcnt).
        unfold counters in Hcnt. injection Hcnt as ? ? ? ? ?.
        exists S1, o1, (mk_spage 1 h 0 0 0).
        split_and!; try done; [apply Hsame|].
        rewrite Hpgt. by apply zget_zset_same. }
    destruct Hfault as (S1 & o1 & e1 & Hrun & Hsz & He1 & H1 & H2 & H3 & H4 & H5).
    destruct (fifo_translate_miss S va op e S1 o1 e1 Hc Hva He Hpr Hrun Hsz He1)
      as [out Hmmu].
    eexists _, _, out. split; [done|]. split; [exact Hmmu|].
    destruct (fifo_referenced_counters S1 (page_index S va) op e1)
      as (-> & -> & -> & -> & ->).
    rewrite Hw, H1, H2, H3, H4. split_and!; try done.
    intros [?|Hlf]; [done|]. by apply H5.
  - destruct (fifo_translate_hit S va op e Hc Hva He Hpr) as [out Hmmu].
    eexists _, _, out. split; [done|]. split; [exact Hmmu|].
    destruct (fifo_referenced_counters S (page_index S va) op e)
      as (-> & -> & -> & -> & ->).
    by rewrite Hw.
Qed.

Lemma fifo_counter_accounting_witness :
  ∃ e pa S' out,
    zget (pgt fifo_one) (150 / pagsz fifo_one) = Some e ∧
    FIFO.sim_mmu 150 "W" fifo_one = Some (pa, S', out) ∧
    numrefsread S' =
      (if Ascii.eqb "W" "R" then to_int (numrefsread fifo_one + 1)
       else numrefsread fifo_one) ∧
    numrefswrite S' =
      (if Ascii.eqb "W" "W" then to_int (numrefswrite fifo_one + 1)
       else numrefswrite fifo_one) ∧
    numpagefaults S' =
      (if decide (present e = 0) then to_int (numpagefaults fifo_one + 1)
       else numpagefaults fifo_one) ∧
    (present e ≠ 0 ∨ listfree fifo_one ≠ -1 →
     numpgwriteback S' = numpgwriteback fifo_one) ∧
    numillegalrefs S' = numillegalrefs fifo_one.
Proof.
  apply (fifo_counter_accounting fifo_one 150 "W").
  - eapply (reach_step _ _ _ 0 "R");
      [eapply reach_init; [exact small_system_ok|exact (proj1 fifo_full_run)]
      |unfold UINT_MAX; lia|exact (proj1 (proj2 fifo_full_run))].
  - unfold UINT_MAX. lia.
  - vm_compute. split; discriminate || reflexivity.
Defined.

(** The address arithmetic of [sim_mmu] when the frame is a real one and
    the physical memory fits an [int]. *)
Lemma physical_exact S e va :
  config_ok S → 0 ≤ va ≤ UINT_MAX →
  0 ≤ frame e < numframes S → numframes S * pagsz S ≤ INT_MAX →
  physical S e va = frame e * pagsz S + va mod pagsz S ∧
  physical S e va / pagsz S = frame e ∧
  physical S e va mod pagsz S = va mod pagsz S ∧
  0 ≤ physical S e va < numframes S * pagsz S.
Proof.
  intros Hc Hva Hf Hmem.
  destruct (page_index_legal S va Hc Hva) as (_ & Hoff & _).
  pose proof (cfg_pagsz S Hc) as Hsz.
  pose proof (Z.mod_pos_bound va (pagsz S) ltac:(lia)) as Hm.
  assert (Hprod : 0 ≤ frame e * pagsz S ∧
                  frame e * pagsz S + pagsz S ≤ numframes S * pagsz S) by nia.
  unfold physical. rewrite Hoff.
  rewrite (to_int_small (frame e * pagsz S)) by (unfold INT_MIN; lia).
  rewrite to_int_small by (unfold INT_MIN; lia).
  rewrite to_unsigned_small by (unfold UINT_MAX, INT_MAX in *; lia).
  split; [done|]. split; [|split; [|lia]].
  - rewrite (Z.add_comm (frame e * pagsz S)), Z.div_add by lia.
    rewrite Z.div_small by lia. lia.
  - rewrite (Z.add_comm (frame e * pagsz S)), Z.mod_add by lia.
    by rewrite Z.mod_mod by lia.
Qed.

Lemma resident_frame S p e :
  config_ok S → resident (pgt S) (frt S) →
  zget (pgt S) p = Some e → present e ≠ 0 →
  0 ≤ frame e < numframes S ∧ page_at (frt S) (frame e) = Some p.
Proof.
  intros Hc [H1 _] He Hpr. pose proof (H1 p e He Hpr) as Hpage.
  split; [|done].
  apply page_at_Some in Hpage as (fe & Hfe%zget_range & _).
  destruct Hc. lia.
Qed.

(** X7. When the physical memory fits an [int], the address a translation
    returns lies in the frame that holds the page afterwards: it is
    [frame * pagsz + offset] with the offset of the virtual address, the
    frame is one of the configured frames, and the address is below
    [numframes * pagsz]. *)
Theorem physical_address_in_frame S va op :
  0 ≤ va ≤ UINT_MAX → 0 ≤ va / pagsz S < numpags S →
  numframes S * pagsz S ≤ INT_MAX →
  (fifo_reachable S →
   ∃ pa S' out e',
     FIFO.sim_mmu va op S = Some (pa, S', out) ∧
     zget (pgt S') (va / pagsz S) = Some e' ∧ present e' ≠ 0 ∧
     0 ≤ frame e' < numframes S ∧
     page_at (frt S') (frame e') = Some (va / pagsz S) ∧
     pa = frame e' * pagsz S + va mod pagsz S ∧
     pa / pagsz S = frame e' ∧ pa mod pagsz S = va mod pagsz S ∧
     0 ≤ pa < numframes S * pagsz S) ∧
  (lru_reachable S →
   ∀ pa S' out,
     LRU.sim_mmu va op S = Some (pa, S', out) →
     ∃ e',
       zget (pgt S') (va / pagsz S) = Some e' ∧ present e' ≠ 0 ∧
       0 ≤ frame e' < numframes S ∧
       page_at (frt S') (frame e') = Some (va / pagsz S) ∧
       pa = frame e' * pagsz S + va mod pagsz S ∧
       pa / pagsz S = frame e' ∧ pa mod pagsz S = va mod pagsz S ∧
       0 ≤ pa < numframes S * pagsz S).
Proof.
  intros Hva Hlegal Hmem. split.
  - intros Hreach.
    pose proof Hreach as (l & o & Hst)%fifo_reachable_state.
    pose proof Hst as (Hc & _).
    destruct (legal_page S va Hc Hva Hlegal) as [Hp _].
    destruct (fifo_translate S l o va op Hst Hva Hlegal)
      as (Sx & ex & out & Hmmu & Hex & Hprx & Hcx & Hsame).
    set (S' := fifo_referenced Sx (page_index S va) op ex) in *.
    assert (Hreach' : fifo_reachable S') by (eapply reach_step; eauto).
    apply fifo_reachable_state in Hreach' as (l' & o' & Hc' & Hres' & _).
    destruct (fifo_referenced_entry Sx (page_index S va) op ex Hex)
      as (e' & He' & Hpr' & Hfr' & _). fold S' in He'.
    pose proof (same_setup_trans _ _ _ Hsame
                  (fifo_referenced_setup Sx (page_index S va) op ex)) as Hs.
    fold S' in Hs. destruct Hs as (_ & _ & Hnf & _).
    destruct (resident_frame S' _ e' Hc' Hres' He') as [Hrange Hpage];
      [congruence|].
    rewrite Hnf in Hrange.
    assert (Hph : physical S ex va = physical S e' va).
    { unfold physical. by rewrite Hfr'. }
    rewrite Hph in Hmmu.
    destruct (physical_exact S e' va Hc Hva Hrange Hmem) as (H1 & H2 & H3 & H4).
    exists (physical S e' va), S', out, e'. rewrite <- Hp.
    split_and!; try done; first [congruence|lia].
  - intros Hreach pa S' out Hmmu.
    pose proof Hreach as (l & Hst)%lru_reachable_state.
    pose proof Hst as (Hc & _).
    destruct (legal_page S va Hc Hva Hlegal) as [Hp _].
    destruct (lru_translate S l va op pa S' out Hst Hva Hlegal Hmmu)
      as (Sx & ex & -> & HS' & Hex & Hprx & Hcx & Hsame).
    assert (Hreach' : lru_reachable S') by (eapply reach_step; eauto).
    apply lru_reachable_state in Hreach' as (l' & Hc' & Hres' & _).
    destruct (lru_referenced_entry Sx (page_index S va) op ex Hex)
      as (e' & He' & Hpr' & Hfr' & _). rewrite <- HS' in He'.
    pose proof (same_setup_trans _ _ _ Hsame
                  (lru_referenced_setup Sx (page_index S va) op ex)) as Hs.
    rewrite <- HS' in Hs. destruct Hs as (_ & _ & Hnf & _).
    destruct (resident_frame S' _ e' Hc' Hres' He') as [Hrange Hpage];
      [congruence|].
    rewrite Hnf in Hrange.
    assert (Hph : physical S ex va = physical S e' va).
    { unfold physical. by rewrite Hfr'. }
    rewrite Hph.
    destruct (physical_exact S e' va Hc Hva Hrange Hmem) as (H1 & H2 & H3 & H4).
    exists e'. rewrite <- Hp.
    split_and!; try done; first [congruence|lia].
Qed.

Lemma physical_address_in_frame_witness :
  ∃ pa S' out e',
    FIFO.sim_mmu 250 "R" fifo_full = Some (pa, S', out) ∧
    zget (pgt S') (250 / pagsz fifo_full) = Some e' ∧ present e' ≠ 0 ∧
    0 ≤ frame e' < numframes fifo_full ∧
    page_at (frt S') (frame e') = Some (250 / pagsz fifo_full) ∧
    pa = frame e' * pagsz fifo_full + 250 mod pagsz fifo_full ∧
    pa / pagsz fifo_full = frame e' ∧
    pa mod pagsz fifo_full = 250 mod pagsz fifo_full ∧
    0 ≤ pa < numframes fifo_full * pagsz fifo_full.
Proof.
  apply (physical_address_in_frame fifo_full 250 "R").
  - unfold UINT_MAX. lia.
  - vm_compute. split; discriminate || reflexivity.
  - vm_compute. discriminate.
  - exact fifo_full_reachable.
Defined.

(** X8. In every state of a run the page table and the frames table
    agree: a present page names a configured frame that holds it, a frame
    that holds a page is named by that page, which is present, and no two
    present pages share a frame. *)
Theorem tables_agree S :
  fifo_reachable S ∨ lru_reachable S →
  (∀ p e, zget (pgt S) p = Some e → present e ≠ 0 →
     0 ≤ frame e < numframes S ∧ page_at (frt S) (frame e) = Some p) ∧
  (∀ f q, page_at (frt S) f = Some q → q ≠ -1 →
     ∃ e, zget (pgt S) q = Some e ∧ present e ≠ 0 ∧ frame e = f) ∧
  (∀ p1 p2 e1 e2,
     zget (pgt S) p1 = Some e1 → present e1 ≠ 0 →
     zget (pgt S) p2 = Some e2 → present e2 ≠ 0 →
     frame e1 = frame e2 → p1 = p2).
Proof.
  intros Hreach.
  assert (Hst : config_ok S ∧ resident (pgt S) (frt S)).
  { destruct Hreach as [(l & o & Hc & Hres & _)%fifo_reachable_state
                       |(l & Hc & Hres & _)%lru_reachable_state]; eauto. }
  destruct Hst as [Hc Hres]. split_and!.
  - intros p e He Hpr. by apply resident_frame.
  - apply Hres.
  - intros p1 p2 e1 e2 He1 Hpr1 He2 Hpr2 Hfr.
    pose proof (proj1 Hres _ _ He1 Hpr1) as H1.
    pose proof (proj1 Hres _ _ He2 Hpr2) as H2.
    rewrite Hfr in H1. congruence.
Qed.

Lemma tables_agree_witness :
  (∀ p e, zget (pgt fifo_full) p = Some e → present e ≠ 0 →
     0 ≤ frame e < numframes fifo_full ∧
     page_at (frt fifo_full) (frame e) = Some p) ∧
  (∀ f q, page_at (frt fifo_full) f = Some q → q ≠ -1 →
     ∃ e, zget (pgt fifo_full) q = Some e ∧ present e ≠ 0 ∧ frame e = f) ∧
  (∀ p1 p2 e1 e2,
     zget (pgt fifo_full) p1 = Some e1 → present e1 ≠ 0 →
     zget (pgt fifo_full) p2 = Some e2 → present e2 ≠ 0 →
     frame e1 = frame e2 → p1 = p2).
Proof.
  apply (tables_agree fifo_full). left. exact fifo_full_reachable.
Defined.

(** ** The order in which frames are taken *)

Lemma seqZ_take k n : 0 < n - k → seqZ k (n - k) = k :: seqZ (k + 1) (n - (k + 1)).
Proof.
  intros H. rewrite seqZ_cons by lia. f_equal. f_equal; lia.
Qed.

Lemma seqZ_none k n : n - k ≤ 0 → seqZ k (n - k) = [].
Proof.
  intros H. unfold seqZ. replace (Z.to_nat (n - k)) with O by lia. done.
Qed.

Lemma fifo_allocation S :
  fifo_reachable S →
  ∃ k o, 0 ≤ k ≤ numframes S ∧ fifo_state S (seqZ k (numframes S - k)) o.
Proof.
  induction 1 as [S0 S out Hc Hinit|S va op pa S' out _ (k & o & Hk & Hst) Hva Hrun].
  - destruct (fifo_init_state S0 S out Hc Hinit) as [Hst (_ & _ & Hnf & _)].
    exists 0, []. rewrite Hnf, Z.sub_0_r. split; [destruct Hc; lia|done].
  - pose proof Hst as (Hc & _).
    destruct (decide (0 ≤ va / pagsz S < numpags S)) as [Hlegal|Hill].
    + destruct (legal_page S va Hc Hva Hlegal) as [Hp [e He]].
      destruct (decide (present e = 0)) as [Hpr|Hpr].
      * destruct (decide (0 < numframes S - k)) as [Hfree|Hfull].
        -- rewrite seqZ_take in Hst by done.
           destruct (fifo_access_free S va op _ _ o e Hst Hva He Hpr)
             as (pa' & S'' & out' & Hrun' & Hst' & (_ & _ & Hnf & _) & _).
           rewrite Hrun in Hrun'. injection Hrun' as <- <- <-.
           exists (k + 1), (o ++ [k]). rewrite Hnf. split; [lia|done].
        -- rewrite seqZ_none in Hst by lia.
           pose proof (fifo_state_occupied S o Hst) as Hne.
           destruct o as [|h t]; [done|].
           destruct (fifo_access_evict S va op h t e Hst Hva He Hpr)
             as (v & ev & pa' & S'' & out' & _ & _ & Hrun' & Hst' & (_ & _ & Hnf & _) & _).
           rewrite Hrun in Hrun'. injection Hrun' as <- <- <-.
           exists k, (t ++ [h]). rewrite Hnf, seqZ_none by lia. split; [lia|done].
      * destruct (fifo_access_hit S _ o va op e Hst Hva He Hpr)
          as (pa' & S'' & out' & Hrun' & Hst' & (_ & _ & Hnf & _) & _).
        rewrite Hrun in Hrun'. injection Hrun' as <- <- <-.
        exists k, o. rewrite Hnf. split; [lia|done].
    + destruct (fifo_sim_mmu_illegal S _ o va op Hst Hva Hill) as [Hrun' Hst'].
      rewrite Hrun in Hrun'. injection Hrun' as -> -> ->.
      exists k, o. split; [exact Hk|exact Hst'].
Qed.

(** A fault that finds neither a free frame nor a candidate does not
    complete. *)
Lemma lru_stuck S va op e :
  lru_state S [] → 0 ≤ va ≤ UINT_MAX →
  zget (pgt S) (page_index S va) = Some e → present e = 0 →
  ¬ lru_candidate S → LRU.sim_mmu va op S = None.
Proof.
  intros Hst Hva He Hpr Hno. pose proof Hst as (Hc & _ & Hfree).
  unfold LRU.sim_mmu.
  rewrite (sim_mmu_absent _ _ _ _ S va op e Hc Hva He Hpr).
  fold LRU.handle_page_fault.
  rewrite (lru_fault_stuck S va Hc); [done|apply Hfree|].
  intros p ep Hp Hprp. destruct (decide (timestamp ep < UINT_MAX)); [|lia].
  exfalso. apply Hno. by exists p, ep.
Qed.

Lemma lru_allocation S :
  lru_reachable S →
  ∃ k, 0 ≤ k ≤ numframes S ∧ lru_state S (seqZ k (numframes S - k)).
Proof.
  induction 1 as [S0 S out Hc Hinit|S va op pa S' out _ (k & Hk & Hst) Hva Hrun].
  - destruct (lru_init_state S0 S out Hc Hinit) as [Hst (_ & _ & Hnf & _)].
    exists 0. rewrite Hnf, Z.sub_0_r. split; [destruct Hc; lia|done].
  - pose proof Hst as (Hc & _).
    destruct (decide (0 ≤ va / pagsz S < numpags S)) as [Hlegal|Hill].
    + destruct (legal_page S va Hc Hva Hlegal) as [Hp [e He]].
      destruct (decide (present e = 0)) as [Hpr|Hpr].
      * destruct (decide (0 < numframes S - k)) as [Hfree|Hfull].
        -- rewrite seqZ_take in Hst by done.
           destruct (lru_access_free S va op _ _ e Hst Hva He Hpr)
             as (pa' & S'' & out' & Hrun' & Hst' & (_ & _ & Hnf & _) & _).
           rewrite Hrun in Hrun'. injection Hrun' as <- <- <-.
           exists (k + 1). rewrite Hnf. split; [lia|done].
        -- rewrite seqZ_none in Hst by lia.
           destruct (lru_candidate_or_saturated S) as [Hcand|Hsat]; [apply Hc| |].
           ++ destruct (lru_access_evict S va op e Hst Hva He Hpr Hcand)
                as (v & ev & pa' & S'' & out' & _ & _ & _ & _ & Hrun' & Hst'
                    & (_ & _ & Hnf & _) & _).
              rewrite Hrun in Hrun'. injection Hrun' as <- <- <-.
              exists k. rewrite Hnf, seqZ_none by lia. split; [lia|done].
           ++ rewrite (lru_stuck S va op e Hst Hva He Hpr) in Hrun; [done|].
              intros (q & eq & Hq & Hprq & Hts). specialize (Hsat _ _ Hq Hprq). lia.
      * destruct (lru_access_hit S _ va op e Hst Hva He Hpr)
          as (pa' & S'' & out' & Hrun' & Hst' & (_ & _ & Hnf & _) & _).
        rewrite Hrun in Hrun'. injection Hrun' as <- <- <-.
        exists k. rewrite Hnf. split; [lia|done].
    + destruct (lru_sim_mmu_illegal S _ va op Hst Hva Hill) as [Hrun' Hst'].
      rewrite Hrun in Hrun'. injection Hrun' as -> -> ->.
      exists k. split; [exact Hk|exact Hst'].
Qed.

(** X9. Frames are taken in index order and never given back: in every
    state of a run, for some [k], the frames [0 .. k-1] are the occupied
    ones and the free list is [k, k+1, .., numframes-1] in that order. *)
Theorem frames_taken_in_order S :
  fifo_reachable S ∨ lru_reachable S →
  ∃ k, 0 ≤ k ≤ numframes S ∧
       free_frames S = seqZ k (numframes S - k) ∧
       ∀ f, f ∈ occupied_frames S ↔ 0 ≤ f < k.
Proof.
  intros Hreach.
  assert (Hst : ∃ k, 0 ≤ k ≤ numframes S ∧ config_ok S ∧
                     resident (pgt S) (frt S) ∧
                     free_is (frt S) (listfree S) (seqZ k (numframes S - k))).
  { destruct Hreach as [(k & o & Hk & Hc & Hres & Hfree & _)%fifo_allocation
                       |(k & Hk & Hc & Hres & Hfree)%lru_allocation]; eauto. }
  destruct Hst as (k & Hk & Hc & Hres & Hfree). exists k. split; [done|].
  destruct (frames_partition S _ Hc Hres Hfree) as (Hl & _ & _ & Hpart & Hin & _).
  split; [done|]. intros f. rewrite Hl in Hpart. split.
  - intros Hocc. pose proof (Hin f (or_intror Hocc)) as Hr.
    destruct (Hpart f Hr) as [[_ Hno]|[Hno _]]; [done|].
    rewrite elem_of_seqZ in Hno. lia.
  - intros Hf. destruct (Hpart f ltac:(lia)) as [[Hfr _]|[_ Hocc]]; [|done].
    rewrite elem_of_seqZ in Hfr. lia.
Qed.

Lemma frames_taken_in_order_witness :
  ∃ k, 0 ≤ k ≤ numframes fifo_one ∧
       free_frames fifo_one = seqZ k (numframes fifo_one - k) ∧
       ∀ f, f ∈ occupied_frames fifo_one ↔ 0 ≤ f < k.
Proof.
  apply (frames_taken_in_order fifo_one). left.
  eapply (reach_step _ _ _ 0 "R");
    [eapply reach_init; [exact small_system_ok|exact (proj1 fifo_full_run)]
    |unfold UINT_MAX; lia|exact (proj1 (proj2 fifo_full_run))].
Defined.

(** Two tables of the same length that agree at every index are equal. *)
Lemma zget_ext {A} (l1 l2 : list A) :
  length l1 = length l2 →
  (∀ x, 0 ≤ x < Z.of_nat (length l1) → zget l1 x = zget l2 x) →
  l1 = l2.
Proof.
  intros Hlen Hget. apply list_eq. intros i.
  destruct (decide (i < length l1)%nat) as [Hi|Hi].
  - specialize (Hget (Z.of_nat i) ltac:(lia)). unfold zget in Hget.
    replace (0 <=? Z.of_nat i) with true in Hget by lia.
    by rewrite Nat2Z.id in Hget.
  - rewrite !lookup_ge_None_2 by lia. done.
Qed.

(** X10. What [init_tables] builds depends on the sizes alone: on two
    systems of the same setup it yields the same page table, frames table,
    clock and list pointers, whatever the tables held before, and keeps the
    counters of each.  Run on its own result it changes nothing. *)
Theorem init_tables_forgets_history S0 S :
  config_ok S0 → same_setup S0 S →
  ∃ S0' S',
    Header.init_tables S0 = Some (tt, S0', []) ∧
    Header.init_tables S = Some (tt, S', []) ∧
    pgt S' = pgt S0' ∧ frt S' = frt S0' ∧
    clock S' = clock S0' ∧ lru S' = lru S0' ∧
    listfree S' = listfree S0' ∧ listoccupied S' = listoccupied S0' ∧
    counters S' = counters S ∧
    Header.init_tables S0' = Some (tt, S0', []).
Proof.
  intros Hc0 Hsame. pose proof (same_setup_config _ _ Hsame Hc0) as Hc.
  destruct Hsame as (Hsz & Hnp & Hnf & Hd & Hlp & Hlf).
  destruct (init_tables_spec S0 Hc0) as (frt0 & Hinit0 & Hlen0 & Hget0).
  destruct (init_tables_spec S Hc) as (frt1 & Hinit1 & Hlen1 & Hget1).
  assert (Hfrt : frt1 = frt0).
  { apply zget_ext; [congruence|]. intros x Hx.
    rewrite Hget1, Hget0, Hnf; [done| |];
      rewrite Hlen1 in Hx; destruct Hc, Hc0; lia. }
  eexists _, _. split; [exact Hinit0|]. split; [exact Hinit1|]. cbn.
  rewrite Hlp, Hfrt, Hnf. split_and!; try done.
  match goal with |- Header.init_tables ?X = _ => set (S1 := X) end.
  assert (Hc1 : config_ok S1).
  { destruct Hc0. split; cbn; rewrite ?length_replicate; try done. congruence. }
  destruct (init_tables_spec S1 Hc1) as (frt2 & Hinit2 & Hlen2 & Hget2).
  rewrite Hinit2. f_equal. f_equal. f_equal.
  assert (Hfrt2 : frt2 = frt0).
  { apply zget_ext; [by rewrite Hlen2|]. intros x Hx.
    rewrite Hget2, Hget0; [done| |]; cbn;
      rewrite Hlen2 in Hx; cbn in Hx; destruct Hc0; lia. }
  rewrite Hfrt2. unfold S1. cbn. by rewrite length_replicate.
Qed.

Lemma init_tables_forgets_history_witness :
  ∃ S0' S',
    Header.init_tables small_system = Some (tt, S0', []) ∧
    Header.init_tables fifo_full = Some (tt, S', []) ∧
    pgt S' = pgt S0' ∧ frt S' = frt S0' ∧
    clock S' = clock S0' ∧ lru S' = lru S0' ∧
    listfree S' = listfree S0' ∧ listoccupied S' = listoccupied S0' ∧
    counters S' = counters fifo_full ∧
    Header.init_tables S0' = Some (tt, S0', []).
Proof.
  apply (init_tables_forgets_history small_system fifo_full).
  - exact small_system_ok.
  - by repeat split.
Defined.

Lemma zget_nil {A} (i : Z) : zget (@nil A) i = None.
Proof. unfold zget. by destruct (0 <=? i). Qed.

(** X11. With an empty frames table [init_tables] has no defined
    behaviour: whatever [numframes] says, it writes [frt[0]]. *)
Theorem init_tables_needs_a_frame S :
  frt S = [] → FIFO.init_tables S = None ∧ LRU.init_tables S = None.
Proof.
  intros Hfrt.
  assert (H : Header.init_tables S = None); [|by split].
  unfold Header.init_tables.
  unfold mbind at 1, sim_bind at 1. destruct (Header.memset_pgt S) as [[[[] S1] o1]|] eqn:Hm; [|done].
  assert (Hfrt1 : frt S1 = []).
  { unfold Header.memset_pgt in Hm. destruct (_ && _); [|done].
    injection Hm as <- _. done. }
  sim_run.
  destruct (seqZ 0 (to_int (numframes S1 - 1))) as [|i l]; cbn; sim_run;
    by rewrite Hfrt1, zget_nil.
Qed.

Lemma init_tables_needs_a_frame_witness :
  FIFO.init_tables no_frames_system = None ∧
  LRU.init_tables no_frames_system = None.
Proof. apply (init_tables_needs_a_frame no_frames_system). reflexivity. Defined.



Lemma lru_touch_fields c op e :
  present (lru_touch c op e) = present e ∧ frame (lru_touch c op e) = frame e ∧
  timestamp (lru_touch c op e) = c.
Proof. unfold lru_touch. by destruct (Ascii.eqb op "W"). Qed.

Lemma lru_candidate_cases S :
  Z.of_nat (length (pgt S)) = numpags S → lru_candidate S ∨ ¬ lru_candidate S.
Proof.
  intros Hlen. destruct (lru_candidate_or_saturated S Hlen) as [?|Hsat]; [by left|].
  right. intros (q & eq & Hq & Hprq & Hts). specialize (Hsat _ _ Hq Hprq). lia.
Qed.

(** A translation of a legal address that completes, whichever of its three
    courses it takes: the entry of the page is stamped with the clock, the
    clock advances, and the other present pages keep their entries. *)
Lemma lru_access S l va op pa S' out :
  lru_state S l → 0 ≤ va ≤ UINT_MAX → 0 ≤ va / pagsz S < numpags S →
  LRU.sim_mmu va op S = Some (pa, S', out) →
  ∃ pgt0 e0 l',
    lru_state S' l' ∧
    pgt S' = zset pgt0 (va / pagsz S) (lru_touch (clock S) op e0) ∧
    present e0 ≠ 0 ∧ length pgt0 = length (pgt S) ∧
    clock S' = to_unsigned (clock S + 1) ∧
    (∀ q e, zget pgt0 q = Some e → present e ≠ 0 → q ≠ va / pagsz S →
            zget (pgt S) q = Some e).
Proof.
  intros Hst Hva Hlegal Hrun. pose proof Hst as (Hc & _).
  destruct (legal_page S va Hc Hva Hlegal) as [Hp [e He]]. rewrite <- Hp.
  pose proof (zget_range _ _ _ He) as Hr.
  destruct (decide (present e = 0)) as [Hpr|Hpr].
  - destruct l as [|h t].
    + destruct (lru_candidate_cases S (cfg_pgt S Hc)) as [Hcand|Hno];
        [|by rewrite (lru_stuck S va op e Hst Hva He Hpr Hno) in Hrun].
      destruct (lru_access_evict S va op e Hst Hva He Hpr Hcand)
        as (v & ev & pa' & S'' & out' & Hev & Hprv & _ & _ & Hrun' & Hst'
            & _ & Hpgt & _ & Hclock & _).
      rewrite Hrun in Hrun'. injection Hrun' as <- <- <-.
      pose proof (zget_range _ _ _ Hev) as Hrv.
      eexists _, _, []. split; [exact Hst'|]. split; [exact Hpgt|].
      split; [done|]. split; [by rewrite length_zset|]. split; [done|].
      intros q eq Hq Hprq Hne.
      rewrite zget_zset_in in Hq by done.
      case_decide; [|done]. injection Hq as <-. done.
    + destruct (lru_access_free S va op h t e Hst Hva He Hpr)
        as (pa' & S'' & out' & Hrun' & Hst' & _ & Hpgt & _ & Hclock & _).
      rewrite Hrun in Hrun'. injection Hrun' as <- <- <-.
      eexists _, _, t. split; [exact Hst'|]. split; [exact Hpgt|].
      split; [done|]. split; [done|]. split; [done|]. by intros.
  - destruct (lru_access_hit S l va op e Hst Hva He Hpr)
      as (pa' & S'' & out' & Hrun' & Hst' & _ & Hpgt & _ & Hclock & _).
    rewrite Hrun in Hrun'. injection Hrun' as <- <- <-.
    eexists _, _, l. split; [exact Hst'|]. split; [exact Hpgt|].
    split; [exact Hpr|]. split; [done|]. split; [done|]. by intros.
Qed.

Lemma lru_ordered_step S S' pgt0 p e' :
  lru_ordered S → 0 ≤ clock S < UINT_MAX →
  pgt S' = zset pgt0 p e' → 0 ≤ p < Z.of_nat (length pgt0) →
  timestamp e' = clock S → clock S' = to_unsigned (clock S + 1) →
  (∀ q e, zget pgt0 q = Some e → present e ≠ 0 → q ≠ p →
          zget (pgt S) q = Some e) →
  lru_ordered S'.
Proof.
  intros [Hlt Hinj] Hclock Hpgt Hp Hts Hc' Hold.
  rewrite to_unsigned_small in Hc' by lia.
  assert (Hcase : ∀ q e, zget (pgt S') q = Some e → present e ≠ 0 →
            (q = p ∧ timestamp e = clock S) ∨
            (q ≠ p ∧ zget (pgt S) q = Some e)).
  { intros q e Hq Hpr. rewrite Hpgt, zget_zset_in in Hq by done.
    case_decide as Hqp.
    - left. injection Hq as <-. done.
    - right. split; [done|]. by apply Hold. }
  split.
  - intros q e Hq Hpr. rewrite Hc'.
    destruct (Hcase q e Hq Hpr) as [[_ ->]|[_ Hq0]]; [lia|].
    specialize (Hlt q e Hq0 Hpr). lia.
  - intros q1 q2 e1 e2 H1 Hpr1 H2 Hpr2 Heq.
    destruct (Hcase q1 e1 H1 Hpr1) as [[-> Ht1]|[Hn1 Hq1]];
      destruct (Hcase q2 e2 H2 Hpr2) as [[-> Ht2]|[Hn2 Hq2]]; [done| | |by eauto].
    + specialize (Hlt q2 e2 Hq2 Hpr2). lia.
    + specialize (Hlt q1 e1 Hq1 Hpr1). lia.
Qed.

Lemma lru_run_reachable n S : lru_run n S → lru_reachable S.
Proof.
  induction 1; [by eapply reach_init|by eapply reach_step].
Qed.

Lemma lru_run_ordered n S :
  lru_run n S → Z.of_nat n ≤ UINT_MAX →
  0 ≤ clock S ≤ Z.of_nat n ∧ lru_ordered S.
Proof.
  induction 1 as [S0 S out Hc Hinit|n S va op pa S' out Hprev IH Hva Hrun];
    intros Hn.
  - destruct (lru_start S0 Hc) as (S1 & Hinit' & _ & _ & Hpgt & Hclock & _).
    unfold LRU.init_tables, FIFO.init_tables in *.
    rewrite Hinit in Hinit'. injection Hinit' as <- _.
    rewrite Hclock. split; [done|]. split.
    + intros p e He Hpr. rewrite Hpgt in He.
      apply zget_Some in He as [_ He]. apply lookup_replicate in He as [-> _]. done.
    + intros p q e1 e2 He Hpr. rewrite Hpgt in He.
      apply zget_Some in He as [_ He]. apply lookup_replicate in He as [-> _]. done.
  - destruct IH as [Hclock Hord]; [lia|].
    apply lru_run_reachable, lru_reachable_state in Hprev as [l Hst].
    pose proof Hst as (Hc & _).
    destruct (decide (0 ≤ va / pagsz S < numpags S)) as [Hlegal|Hill].
    + destruct (lru_access S l va op pa S' out Hst Hva Hlegal Hrun)
        as (pgt0 & e0 & l' & _ & Hpgt & _ & Hlen & Hc' & Hold).
      split.
      * rewrite Hc', to_unsigned_small by lia. lia.
      * apply (lru_ordered_step S S' pgt0 (va / pagsz S)
                 (lru_touch (clock S) op e0) Hord); try done;
          first [lia|rewrite Hlen; destruct Hc; lia|apply lru_touch_fields].
    + destruct (lru_sim_mmu_illegal S l va op Hst Hva Hill) as [Hrun' _].
      rewrite Hrun in Hrun'. injection Hrun' as -> -> ->.
      split; [cbn; lia|exact Hord].
Qed.

(** In a run of at most 2^32 - 1 translations a full set of frames holds a
    page the scan can take. *)
Lemma lru_run_candidate n S :
  lru_run n S → Z.of_nat n ≤ UINT_MAX → listfree S = -1 → lru_candidate S.
Proof.
  intros Hrun Hn Hlf.
  destruct (lru_run_ordered n S Hrun Hn) as [Hclock [Hlt _]].
  apply lru_run_reachable, lru_reachable_state in Hrun as (l & Hc & Hres & Hfree).
  rewrite Hlf in Hfree. pose proof (free_is_empty _ _ Hfree) as ->.
  destruct (zget_is_Some (frt S) 0) as [fe Hfe]; [destruct Hc; lia|].
  assert (Hpage : page_at (frt S) 0 = Some (page fe)).
  { unfold page_at. by rewrite Hfe. }
  assert (Hne : page fe ≠ -1).
  { intros Heq. apply (proj2 Hfree 0 (page fe) Hpage) in Heq. set_solver. }
  destruct (proj2 Hres 0 (page fe) Hpage Hne) as (e & He & Hpr & _).
  exists (page fe), e. specialize (Hlt _ _ He Hpr). split_and!; try done. lia.
Qed.

(** X12. Up to 2^32 translations of an LRU run all complete: in a state
    reached by at most 2^32 - 1 translations the next one, of any address,
    returns.  (The missing candidate of the scan needs a timestamp of
    [UINT_MAX], which the 2^32-th reference is the first to write.) *)
Theorem lru_short_runs_complete n S va op :
  lru_run n S → Z.of_nat n ≤ UINT_MAX → 0 ≤ va ≤ UINT_MAX →
  ∃ pa S' out,
    LRU.sim_mmu va op S = Some (pa, S', out) ∧ lru_run (Datatypes.S n) S'.
Proof.
  intros Hrun Hn Hva.
  pose proof (lru_run_reachable n S Hrun) as (l & Hst)%lru_reachable_state.
  assert (Hsome : ∃ pa S' out, LRU.sim_mmu va op S = Some (pa, S', out)).
  { destruct (decide (0 ≤ va / pagsz S < numpags S)) as [Hlegal|Hill].
    - destruct (lru_sim_mmu_legal S l va op Hst Hva Hlegal)
        as [(_ & -> & Hno)|(pa & S' & out & l' & Hmmu & _)]; [|by eauto].
      exfalso. apply Hno. apply (lru_run_candidate n S Hrun Hn).
      by destruct Hst as (_ & _ & [Hring _]).
    - destruct (lru_sim_mmu_illegal S l va op Hst Hva Hill) as [Hmmu _]. eauto. }
  destruct Hsome as (pa & S' & out & Hmmu).
  exists pa, S', out. split; [done|]. by eapply run_step.
Qed.

Lemma after_reads_run : lru_run 1 (after_reads 1).
Proof.
  destruct after_reads_first as (S & out & Hinit & Hmmu).
  eapply (run_step 0 S 0 "R"); [|unfold UINT_MAX; lia|exact Hmmu].
  eapply run_init; [|exact Hinit]. split; cbn; unfold INT_MAX; lia.
Qed.

Lemma lru_short_runs_complete_witness :
  ∃ pa S' out,
    LRU.sim_mmu 100 "R" (after_reads 1) = Some (pa, S', out) ∧ lru_run 2 S'.
Proof.
  apply (lru_short_runs_complete 1 (after_reads 1) 100 "R").
  - exact after_reads_run.
  - unfold UINT_MAX. lia.
  - unfold UINT_MAX. lia.
Defined.

(** X13. Before the clock wraps the timestamps order the references: the
    clock has advanced at most once per translation, every present page
    carries a timestamp below the clock, no two present pages carry the
    same, and a translation leaves its page with the largest timestamp and
    the other present pages with the entries they had. *)
Theorem lru_stamps_order_references n S :
  lru_run n S → Z.of_nat n < UINT_MAX →
  0 ≤ clock S ≤ Z.of_nat n ∧
  (∀ p e, zget (pgt S) p = Some e → present e ≠ 0 → 0 ≤ timestamp e < clock S) ∧
  (∀ p q e1 e2,
     zget (pgt S) p = Some e1 → present e1 ≠ 0 →
     zget (pgt S) q = Some e2 → present e2 ≠ 0 →
     timestamp e1 = timestamp e2 → p = q) ∧
  (∀ va op pa S' out,
     0 ≤ va ≤ UINT_MAX → 0 ≤ va / pagsz S < numpags S →
     LRU.sim_mmu va op S = Some (pa, S', out) →
     ∃ e',
       zget (pgt S') (va / pagsz S) = Some e' ∧ present e' ≠ 0 ∧
       timestamp e' = clock S ∧ clock S' = clock S + 1 ∧
       ∀ q eq, zget (pgt S') q = Some eq → present eq ≠ 0 → q ≠ va / pagsz S →
               zget (pgt S) q = Some eq ∧ timestamp eq < timestamp e').
Proof.
  intros Hrun Hn.
  destruct (lru_run_ordered n S Hrun ltac:(lia)) as [Hclock [Hlt Hinj]].
  split; [done|]. split; [done|]. split; [done|].
  intros va op pa S' out Hva Hlegal Hmmu.
  pose proof (lru_run_reachable n S Hrun) as (l & Hst)%lru_reachable_state.
  pose proof Hst as (Hc & _).
  destruct (lru_access S l va op pa S' out Hst Hva Hlegal Hmmu)
    as (pgt0 & e0 & l' & _ & Hpgt & Hpr0 & Hlen & Hc' & Hold).
  assert (Hp : 0 ≤ va / pagsz S < Z.of_nat (length pgt0)).
  { rewrite Hlen. destruct Hc. lia. }
  destruct (lru_touch_fields (clock S) op e0) as (Hpr & _ & Hts).
  exists (lru_touch (clock S) op e0). rewrite Hpgt.
  split; [by apply zget_zset_same|]. split; [congruence|]. split; [done|].
  split; [rewrite Hc'; apply to_unsigned_small; lia|].
  intros q eq Hq Hprq Hne. rewrite zget_zset_in in Hq by done.
  rewrite decide_False in Hq by done.
  pose proof (Hold q eq Hq Hprq Hne) as Hq0.
  split; [done|]. rewrite Hts. by apply (Hlt q eq).
Qed.

Lemma lru_stamps_order_references_witness :
  0 ≤ clock (after_reads 1) ≤ Z.of_nat 1 ∧
  (∀ p e, zget (pgt (after_reads 1)) p = Some e → present e ≠ 0 →
          0 ≤ timestamp e < clock (after_reads 1)) ∧
  (∀ p q e1 e2,
     zget (pgt (after_reads 1)) p = Some e1 → present e1 ≠ 0 →
     zget (pgt (after_reads 1)) q = Some e2 → present e2 ≠ 0 →
     timestamp e1 = timestamp e2 → p = q) ∧
  (∀ va op pa S' out,
     0 ≤ va ≤ UINT_MAX → 0 ≤ va / pagsz (after_reads 1) < numpags (after_reads 1) →
     LRU.sim_mmu va op (after_reads 1) = Some (pa, S', out) →
     ∃ e',
       zget (pgt S') (va / pagsz (after_reads 1)) = Some e' ∧ present e' ≠ 0 ∧
       timestamp e' = clock (after_reads 1) ∧
       clock S' = clock (after_reads 1) + 1 ∧
       ∀ q eq, zget (pgt S') q = Some eq → present eq ≠ 0 →
               q ≠ va / pagsz (after_reads 1) →
               zget (pgt (after_reads 1)) q = Some eq ∧
               timestamp eq < timestamp e').
Proof.
  apply (lru_stamps_order_references 1 (after_reads 1)).
  - exact after_reads_run.
  - unfold UINT_MAX. lia.
Defined.

(** ** Running the report functions *)

Ltac report_unfold :=
  unfold mbind, report_bind, mret, report_ret, ask, say, read_pgt, read_frt,
    no_result.

Lemma report_bind_eq {A B} (m : Report A) (f : A → Report B) S a o1 :
  m S = Some (a, o1) →
  (m ≫= f) S = match f a S with
               | None => None
               | Some (b, o2) => Some (b, o1 ++ o2)
               end.
Proof. intros H. unfold mbind, report_bind. by rewrite H. Qed.

Lemma for_rows_each (P : Z → list line → Prop) l body S :
  (∀ i, i ∈ l → ∃ r, body i S = Some (tt, r) ∧ P i r) →
  ∃ rows, for_rows l body S = Some (tt, concat rows) ∧ Forall2 P l rows.
Proof.
  induction l as [|i l IH]; intros Hbody.
  - exists []. split; [done|constructor].
  - destruct (Hbody i) as (r & Hr & HP); [set_solver|].
    destruct IH as (rows & Hrows & Hall); [intros; apply Hbody; set_solver|].
    exists (r :: rows). split; [|by constructor].
    cbn. rewrite (report_bind_eq _ _ S tt r Hr), Hrows. done.
Qed.

Lemma rows_lookup (P : Z → list line → Prop) n rows i :
  Forall2 P (seqZ 0 n) rows → 0 ≤ i < n →
  ∃ r, rows !! Z.to_nat i = Some r ∧ P i r.
Proof.
  intros Hall Hi.
  assert (Hl : seqZ 0 n !! Z.to_nat i = Some i).
  { apply lookup_seqZ. lia. }
  destruct (Forall2_lookup_l _ _ _ _ _ Hall Hl) as (r & Hr & HP). eauto.
Qed.

Lemma rows_length (P : Z → list line → Prop) n rows :
  0 ≤ n → Forall2 P (seqZ 0 n) rows → Z.of_nat (length rows) = n.
Proof.
  intros Hn Hall. apply Forall2_length in Hall. rewrite length_seqZ in Hall. lia.
Qed.

(** ** The FIFO report *)

Lemma list_frames_spec S h rest :
  ∀ x count turns,
  chain (frt S) x rest h → NoDup (x :: rest) → h ∉ rest →
  next_of (frt S) (listoccupied S) = Some h →
  0 ≤ count → count + Z.of_nat (length (x :: rest)) ≤ numframes S →
  numframes S ≤ INT_MAX →
  (length rest < turns)%nat →
  FIFO.list_frames turns x count S = Some (tt, frame_lines (frt S) h (x :: rest)).
Proof.
  induction rest as [|y rest IH]; intros x count turns Hch Hnd Hh Hlo Hc Hlen Hmax Ht;
    (destruct turns as [|k]; [cbn in Ht; lia|]).
  - apply next_of_Some in Hch as (ff & Hff & Hn).
    apply next_of_Some in Hlo as (fl & Hfl & Hnl).
    cbn. report_unfold. rewrite Hff, Hfl. cbn. rewrite Hn, Hnl.
    rewrite Z.eqb_refl. cbn. unfold frame_lines, page_at. cbn. by rewrite Hff.
  - destruct Hch as [Hxy Hch].
    apply next_of_Some in Hxy as (ff & Hff & Hn).
    apply next_of_Some in Hlo as (fl & Hfl & Hnl).
    assert (Hyh : y ≠ h) by set_solver.
    cbn [FIFO.list_frames]. report_unfold. rewrite Hff, Hfl. cbn. rewrite Hn, Hnl.
    rewrite to_int_small by (unfold INT_MIN; cbn in Hlen; lia).
    replace (y =? h) with false by lia.
    replace (count + 1 <? numframes S) with true by (cbn in Hlen; lia).
    cbn. rewrite (IH y (count + 1) k).
    + unfold frame_lines, page_at. rewrite !fmap_cons, Hff.
      replace (y =? h) with false by lia. done.
    + done.
    + by apply NoDup_cons in Hnd as [_ ?].
    + set_solver.
    + apply next_of_Some. eauto.
    + lia.
    + cbn in *. lia.
    + done.
    + cbn in Ht. lia.
Qed.

(** X14. In every state of a FIFO run [print_replacement_report] prints
    its two title lines, then, when some frame is occupied, the heading and
    one line per frame of the list of occupied frames, each frame once,
    oldest first, with the page it holds, the first (and only the first)
    marked as the next victim, and last the rule and the number of page
    faults. *)
Theorem fifo_report_lists_queue S :
  fifo_reachable S →
  let queue := circular_list (frt S) (listoccupied S) in
  NoDup queue ∧
  FIFO.print_replacement_report S =
    Some (tt, [rr_title; rr_policy_fifo] ++
              match queue with
              | [] => []
              | first :: _ => rr_occupied :: frame_lines (frt S) first queue
              end ++ [rr_rule; rr_faults (numpagefaults S)]).
Proof.
  intros (l & o & Hst)%fifo_reachable_state. cbv zeta.
  destruct (fifo_state_lists S l o Hst) as [_ ->].
  destruct Hst as (Hc & _ & _ & [Hring _]).
  split; [by eapply ring_NoDup|].
  destruct o as [|h t].
  - assert (Hlo : listoccupied S = -1) by done.
    unfold FIFO.print_replacement_report. report_unfold. rewrite Hlo. done.
  - pose proof (ring_head _ _ _ _ Hring) as Hhead.
    pose proof (ring_tail _ _ _ Hring ltac:(done)) as Htail.
    pose proof (ring_length _ _ _ Hring) as Hlen.
    assert (Hlo : listoccupied S ≠ -1).
    { intros Heq. rewrite Heq in Htail.
      apply (ring_in_range _ _ _ _ Hring) in Htail as [fe Hfe%zget_range]. lia. }
    destruct Hring as (Hch & Hnd & _).
    pose proof Hhead as (fl & Hfl & Hnl)%next_of_Some.
    unfold FIFO.print_replacement_report.
    rewrite (report_bind_eq _ _ S tt [rr_title] eq_refl).
    rewrite (report_bind_eq _ _ S tt [rr_policy_fifo] eq_refl).
    rewrite (report_bind_eq _ _ S (listoccupied S) [] eq_refl).
    replace (listoccupied S =? -1) with false by lia. cbn [negb].
    assert (Hlist :
      (say rr_occupied ≫= λ _, fl ← read_frt (listoccupied S) ;
         n ← ask numframes ;
         FIFO.list_frames (Datatypes.S (Z.to_nat n)) (next fl) 0) S =
      Some (tt, rr_occupied :: frame_lines (frt S) h (h :: t))).
    { report_unfold. rewrite Hfl, Hnl.
      rewrite (list_frames_spec S h t h 0); try done.
      - by apply NoDup_cons in Hnd as [? _].
      - destruct Hc. cbn in *. lia.
      - destruct Hc. lia.
      - destruct Hc. cbn in *. lia. }
    rewrite (report_bind_eq _ _ S tt _ Hlist).
    report_unfold. done.
Qed.

(** ** The FIFO frames table *)

Lemma seek_spec S i h j :
  ∀ x rest pos turns,
  chain (frt S) x rest h → NoDup (x :: rest) →
  (x :: rest) !! j = Some i →
  0 < pos → pos + Z.of_nat j ≤ numframes S → numframes S ≤ INT_MAX →
  (j ≤ turns)%nat →
  FIFO.seek turns i x pos S = Some (pos + Z.of_nat j, []).
Proof.
  induction j as [|j IH]; intros x rest pos turns Hch Hnd Hj Hpos Hle Hmax Ht.
  - injection Hj as ->.
    destruct turns; cbn; report_unfold; rewrite Z.eqb_refl; cbn;
      do 2 f_equal; lia.
  - destruct rest as [|y rest]; [done|]. destruct Hch as [Hxy Hch].
    apply next_of_Some in Hxy as (ff & Hff & Hn).
    assert (Hxi : x ≠ i).
    { intros ->. apply NoDup_cons in Hnd as [Hnot _]. apply Hnot.
      by eapply list_elem_of_lookup_2. }
    destruct turns as [|k]; [lia|].
    cbn [FIFO.seek]. report_unfold.
    replace (x =? i) with false by lia.
    replace (pos <=? numframes S) with true by lia. cbn.
    rewrite Hff, Hn. rewrite to_int_small by (unfold INT_MIN; lia).
    rewrite (IH y rest (pos + 1) k); try done.
    + do 2 f_equal. lia.
    + by apply NoDup_cons in Hnd as [_ ?].
    + lia.
    + lia.
    + lia.
Qed.

(** X15. In every state of a FIFO run [print_frames_table] prints one row
    per frame.  The row of the [k]-th frame of the list of occupied frames
    (counting from 0, oldest first) shows the page it holds, the [present]
    and [modified] of that page, and [k + 1] as its FIFO order; the row of a
    free frame shows dashes. *)
Theorem fifo_frames_table_order S :
  fifo_reachable S →
  ∃ rows,
    FIFO.print_frames_table S =
      Some (tt, [ft_title; ft_heading] ++ concat rows ++ [ft_rule]) ∧
    Z.of_nat (length rows) = numframes S ∧
    (∀ k i, circular_list (frt S) (listoccupied S) !! k = Some i →
       ∃ q e,
         page_at (frt S) i = Some q ∧ zget (pgt S) q = Some e ∧
         rows !! Z.to_nat i =
           Some [ft_number i; ft_loaded q (present e) (modified e);
                 ft_order (Z.of_nat k + 1)]) ∧
    (∀ i, i ∈ free_frames S →
       rows !! Z.to_nat i = Some [ft_number i; ft_empty]).
Proof.
  intros (l & o & Hst)%fifo_reachable_state.
  destruct (fifo_state_lists S l o Hst) as [-> ->].
  pose proof Hst as (Hc & Hres & Hfree & Hocc).
  set (P := λ (i : Z) (r : list line),
    (∀ k, o !! k = Some i →
       ∃ q e, page_at (frt S) i = Some q ∧ zget (pgt S) q = Some e ∧
              r = [ft_number i; ft_loaded q (present e) (modified e);
                   ft_order (Z.of_nat k + 1)]) ∧
    (i ∈ l → r = [ft_number i; ft_empty])).
  pose proof (cfg_numframes S Hc) as Hnf. pose proof (cfg_frt S Hc) as Hlen.
  destruct (for_rows_each P (seqZ 0 (numframes S))
    (λ i,
       say (ft_number i) ;;
       fi ← read_frt i ;
       if 0 <=? page fi then
         let pg := page fi in
         e ← read_pgt pg ;
         say (ft_loaded pg (present e) (modified e)) ;;
         lo ← ask listoccupied ;
         fl ← read_frt lo ;
         pos ← FIFO.seek (Z.to_nat (numframes S)) i (next fl) 1 ;
         say (ft_order pos)
       else say ft_empty) S) as (rows & Hrows & Hall).
  { intros i Hi%elem_of_seqZ.
    destruct (zget_is_Some (frt S) i) as [fi Hfi]; [lia|].
    assert (Hpage : page_at (frt S) i = Some (page fi)).
    { unfold page_at. by rewrite Hfi. }
    report_unfold. rewrite Hfi.
    destruct (decide (page fi = -1)) as [Hfree'|Hheld].
    - rewrite Hfree'. cbn. eexists. split; [reflexivity|]. split; [|done].
      intros k Hk. apply list_elem_of_lookup_2 in Hk.
      apply (proj2 Hocc i _ Hpage) in Hk. done.
    - destruct (proj2 Hres i _ Hpage Hheld) as (e & He & Hpr & Hfr).
      pose proof (zget_range _ _ _ He) as Hq.
      replace (0 <=? page fi) with true by lia. cbn. rewrite He. cbn.
      assert (Hio : i ∈ o) by (by apply (proj2 Hocc i _ Hpage)).
      apply list_elem_of_lookup in Hio as [k Hk].
      destruct o as [|h t]; [done|]. destruct Hocc as [Hring _].
      pose proof (ring_head _ _ _ _ Hring) as (fl & Hfl & Hnl)%next_of_Some.
      pose proof (ring_length _ _ _ Hring) as Hlo.
      pose proof (lookup_lt_Some _ _ _ Hk) as Hklt.
      destruct Hring as (Hch & Hnd & _).
      rewrite Hfl, Hnl.
      rewrite (seek_spec S i h k h t 1 _ Hch Hnd Hk); [|lia|lia|lia|lia].
      cbn. eexists. split; [reflexivity|]. split.
      + intros k' Hk'.
        assert (k' = k) as -> by (by eapply NoDup_lookup).
        exists (page fi), e. split; [done|]. split; [done|].
        by rewrite (Z.add_comm 1).
      + intros Hil. apply (proj2 Hfree i _ Hpage) in Hil. done. }
  exists rows. split.
  - unfold FIFO.print_frames_table.
    rewrite (report_bind_eq _ _ S tt [ft_title] eq_refl).
    rewrite (report_bind_eq _ _ S tt [ft_heading] eq_refl).
    rewrite (report_bind_eq _ _ S (numframes S) [] eq_refl).
    rewrite (report_bind_eq _ _ S tt _ Hrows). done.
  - split; [apply (rows_length P); [lia|done]|]. split.
    + intros k i Hk.
      assert (Hi : 0 ≤ i < numframes S).
      { apply list_elem_of_lookup_2 in Hk.
        destruct (ring_in_range _ _ _ i (proj1 Hocc) Hk) as [fe Hfe%zget_range]. lia. }
      destruct (rows_lookup P _ rows i Hall Hi) as (r & Hr & [H1 _]).
      destruct (H1 k Hk) as (q & e & ? & ? & ->). eauto.
    + intros i Hil.
      assert (Hi : 0 ≤ i < numframes S).
      { destruct (ring_in_range _ _ _ i (proj1 Hfree) Hil) as [fe Hfe%zget_range]. lia. }
      destruct (rows_lookup P _ rows i Hall Hi) as (r & Hr & [_ H2]).
      by rewrite Hr, (H2 Hil).
Qed.

(** ** The LRU frames table *)

Lemma for_rows_lines (P : Z → line → Prop) l body S :
  (∀ i, i ∈ l → ∃ ln, body i S = Some (tt, [ln]) ∧ P i ln) →
  ∃ lines, for_rows l body S = Some (tt, lines) ∧ Forall2 P l lines.
Proof.
  induction l as [|i l IH]; intros Hbody.
  - exists []. split; [done|constructor].
  - destruct (Hbody i) as (ln & Hln & HP); [set_solver|].
    destruct IH as (lines & Hlines & Hall); [intros; apply Hbody; set_solver|].
    exists (ln :: lines). split; [|by constructor].
    cbn. rewrite (report_bind_eq _ _ S tt [ln] Hln), Hlines. done.
Qed.

Lemma truthy_true z : z ≠ 0 → truthy z = true.
Proof. intros H. unfold truthy. apply negb_true_iff, Z.eqb_neq, H. Qed.

Lemma truthy_false z : truthy z = false → z = 0.
Proof. unfold truthy. intros H%negb_false_iff. by apply Z.eqb_eq. Qed.

(** X16. In every state of an LRU run [print_frames_table] prints the
    heading and one line per frame, and never the line that ends in
    [ERROR!]: the line of a free frame shows dashes, the line of a frame
    holding a page shows that page, which is present. *)
Theorem lru_frames_table_consistent S :
  lru_reachable S →
  ∃ rows,
    LRU.print_frames_table S = Some (tt, fl_heading :: rows) ∧
    Z.of_nat (length rows) = numframes S ∧
    (∀ f p pr, fl_error f p pr ∉ rows) ∧
    (∀ f, f ∈ free_frames S → rows !! Z.to_nat f = Some (fl_free f)) ∧
    (∀ f, f ∈ occupied_frames S →
       ∃ q e,
         page_at (frt S) f = Some q ∧ zget (pgt S) q = Some e ∧ present e ≠ 0 ∧
         rows !! Z.to_nat f = Some (fl_loaded f q (present e) (modified e))).
Proof.
  intros (l & Hst)%lru_reachable_state.
  pose proof Hst as (Hc & Hres & Hfree).
  destruct (frames_partition S l Hc Hres Hfree) as (Hl & _ & _ & _ & Hin & _).
  rewrite Hl in *.
  pose proof (cfg_numframes S Hc) as Hnf. pose proof (cfg_frt S Hc) as Hlen.
  set (P := λ (f : Z) (ln : line),
    (page_at (frt S) f = Some (-1) ∧ ln = fl_free f) ∨
    (∃ q e, page_at (frt S) f = Some q ∧ q ≠ -1 ∧ zget (pgt S) q = Some e ∧
            present e ≠ 0 ∧ ln = fl_loaded f q (present e) (modified e))).
  destruct (for_rows_lines P (seqZ 0 (numframes S))
    (λ f,
       ff ← read_frt f ;
       let p := page ff in
       if p =? -1 then say (fl_free f)
       else
         e ← read_pgt p ;
         if truthy (present e)
         then say (fl_loaded f p (present e) (modified e))
         else say (fl_error f p (present e))) S) as (rows & Hrows & Hall).
  { intros f Hf%elem_of_seqZ.
    destruct (zget_is_Some (frt S) f) as [ff Hff]; [lia|].
    assert (Hpage : page_at (frt S) f = Some (page ff)).
    { unfold page_at. by rewrite Hff. }
    report_unfold. rewrite Hff.
    destruct (decide (page ff = -1)) as [Hfree'|Hheld].
    - rewrite Hfree'. cbn. eexists. split; [reflexivity|]. left.
      by rewrite Hpage, Hfree'.
    - destruct (proj2 Hres f _ Hpage Hheld) as (e & He & Hpr & Hfr).
      replace (page ff =? -1) with false by lia. rewrite He. cbn.
      rewrite (truthy_true _ Hpr).
      eexists. split; [reflexivity|]. right. by exists (page ff), e. }
  exists rows. split; [|split; [|split; [|split]]].
  - unfold LRU.print_frames_table.
    rewrite (report_bind_eq _ _ S tt [fl_heading] eq_refl).
    rewrite (report_bind_eq _ _ S (numframes S) [] eq_refl).
    cbv zeta in Hrows. rewrite Hrows. done.
  - apply Forall2_length in Hall. rewrite length_seqZ in Hall. lia.
  - intros f p pr [k Hk]%list_elem_of_lookup.
    destruct (Forall2_lookup_r _ _ _ _ _ Hall Hk) as (i & _ & [[_ ?]|(q & e & _ & _ & _ & _ & ?)]);
      done.
  - intros f Hfl.
    assert (Hf : 0 ≤ f < numframes S) by (apply Hin; by left).
    assert (Hlk : seqZ 0 (numframes S) !! Z.to_nat f = Some f).
    { apply lookup_seqZ. lia. }
    destruct (Forall2_lookup_l _ _ _ _ _ Hall Hlk)
      as (ln & Hln & [[_ ->]|(q & e & Hq & Hne & _)]); [done|].
    apply (proj2 Hfree f q Hq) in Hfl. done.
  - intros f Hocc.
    assert (Hf : 0 ≤ f < numframes S) by (apply Hin; by right).
    assert (Hlk : seqZ 0 (numframes S) !! Z.to_nat f = Some f).
    { apply lookup_seqZ. lia. }
    apply list_elem_of_filter in Hocc as [Hheld _].
    apply (holds_page_spec S f Hc Hres) in Hheld as (q0 & Hq0 & Hne0).
    destruct (Forall2_lookup_l _ _ _ _ _ Hall Hlk)
      as (ln & Hln & [[Hq _]|(q & e & Hq & Hne & He & Hpr & ->)]); [congruence|].
    by exists q, e.
Qed.

(** ** The LRU report *)

Lemma lru_run_latest n S :
  lru_run n S → Z.of_nat n ≤ UINT_MAX →
  clock S = 0 ∨
  ∃ p e, zget (pgt S) p = Some e ∧ present e ≠ 0 ∧ timestamp e = clock S - 1.
Proof.
  induction 1 as [S0 S out Hc Hinit|n S va op pa S' out Hprev IH Hva Hrun];
    intros Hn.
  - left. destruct (lru_start S0 Hc) as (S1 & Hinit' & _ & _ & _ & Hclock & _).
    unfold LRU.init_tables, FIFO.init_tables in *.
    rewrite Hinit in Hinit'. by injection Hinit' as <- _.
  - destruct (lru_run_ordered n S Hprev ltac:(lia)) as [Hclock _].
    pose proof (lru_run_reachable n S Hprev) as (l & Hst)%lru_reachable_state.
    pose proof Hst as (Hc & _).
    destruct (decide (0 ≤ va / pagsz S < numpags S)) as [Hlegal|Hill].
    + right.
      destruct (lru_access S l va op pa S' out Hst Hva Hlegal Hrun)
        as (pgt0 & e0 & l' & _ & Hpgt & Hpr0 & Hlen & Hc' & _).
      destruct (lru_touch_fields (clock S) op e0) as (Hpr & _ & Hts).
      exists (va / pagsz S), (lru_touch (clock S) op e0).
      rewrite Hpgt, Hc', to_unsigned_small by lia.
      split; [apply zget_zset_same; rewrite Hlen; destruct Hc; lia|].
      split; [congruence|lia].
    + destruct (lru_sim_mmu_illegal S l va op Hst Hva Hill) as [Hrun' _].
      rewrite Hrun in Hrun'. injection Hrun' as -> -> ->.
      apply IH. lia.
Qed.

Lemma span_spec S l :
  ∀ m M,
  (∀ i, i ∈ l → is_Some (zget (pgt S) i)) →
  ∃ m' M',
    LRU.span l m M S = Some ((m', M'), []) ∧
    m' ≤ m ∧ M ≤ M' ∧
    (∀ i e, i ∈ l → zget (pgt S) i = Some e → present e ≠ 0 →
            m' ≤ timestamp e ≤ M') ∧
    (m' = m ∨ ∃ i e, i ∈ l ∧ zget (pgt S) i = Some e ∧ present e ≠ 0 ∧
                     timestamp e = m') ∧
    (M' = M ∨ ∃ i e, i ∈ l ∧ zget (pgt S) i = Some e ∧ present e ≠ 0 ∧
                     timestamp e = M').
Proof.
  induction l as [|i l IH]; intros m M Hl.
  - exists m, M. split; [done|]. split; [lia|]. split; [lia|].
    split; [|split; by left]. intros i e Hi. set_solver.
  - destruct (Hl i) as [e He]; [set_solver|].
    cbn [LRU.span]. report_unfold. rewrite He.
    destruct (truthy (present e)) eqn:Hpr.
    + destruct (IH (if timestamp e <? m then timestamp e else m)
                   (if timestamp e >? M then timestamp e else M))
        as (m' & M' & Hrun & Hm & HM & Hall & Hmin & Hmax);
        [intros; apply Hl; set_solver|].
      assert (Hpr' : present e ≠ 0).
      { intros H0. rewrite H0 in Hpr. done. }
      exists m', M'. rewrite Hrun. split; [done|].
      split; [destruct (timestamp e <? m) eqn:?; lia|].
      split; [destruct (timestamp e >? M) eqn:?; lia|].
      split; [|split].
      * intros j ej [->|Hj]%elem_of_cons Hej Hprj; [|by eauto].
        assert (ej = e) as -> by congruence.
        destruct (timestamp e <? m) eqn:?; destruct (timestamp e >? M) eqn:?; lia.
      * destruct Hmin as [->|(j & ej & Hj & Hej & Hprj & Htj)].
        -- destruct (timestamp e <? m) eqn:?; [|by left].
           right. exists i, e. split; [set_solver|done].
        -- right. exists j, ej. split; [set_solver|done].
      * destruct Hmax as [->|(j & ej & Hj & Hej & Hprj & Htj)].
        -- destruct (timestamp e >? M) eqn:?; [|by left].
           right. exists i, e. split; [set_solver|done].
        -- right. exists j, ej. split; [set_solver|done].
    + apply truthy_false in Hpr.
      destruct (IH m M) as (m' & M' & Hrun & Hm & HM & Hall & Hmin & Hmax);
        [intros; apply Hl; set_solver|].
      exists m', M'. rewrite Hrun. split; [done|]. split; [done|]. split; [done|].
      split; [|split].
      * intros j ej [->|Hj]%elem_of_cons Hej Hprj; [|by eauto]. congruence.
      * destruct Hmin as [->|(j & ej & Hj & Hej & Hprj & Htj)]; [by left|].
        right. exists j, ej. split; [set_solver|done].
      * destruct Hmax as [->|(j & ej & Hj & Hej & Hprj & Htj)]; [by left|].
        right. exists j, ej. split; [set_solver|done].
Qed.

(** X17. In an LRU run of at most 2^32 - 1 translations the report prints
    the clock; while no reference has been recorded it prints neither
    minimum nor maximum; afterwards it prints as minimum the timestamp of
    the page [choose_page_to_be_replaced] returns and as maximum the clock
    less one. *)
Theorem lru_report_min_max n S :
  lru_run n S → Z.of_nat n ≤ UINT_MAX →
  (clock S = 0 →
   LRU.print_replacement_report S =
     Some (tt, [rr_title; rr_policy_lru; rr_clock 0; rr_rule;
                rr_faults (numpagefaults S)])) ∧
  (0 < clock S →
   ∃ v ev out,
     LRU.choose_page_to_be_replaced S = Some (v, S, out) ∧
     zget (pgt S) v = Some ev ∧ present ev ≠ 0 ∧
     LRU.print_replacement_report S =
       Some (tt, [rr_title; rr_policy_lru; rr_clock (clock S);
                  rr_min (timestamp ev); rr_max (clock S - 1); rr_rule;
                  rr_faults (numpagefaults S)])).
Proof.
  intros Hrun Hn.
  destruct (lru_run_ordered n S Hrun Hn) as [Hclock [Hlt _]].
  pose proof (lru_run_latest n S Hrun Hn) as Hlatest.
  pose proof (lru_run_reachable n S Hrun) as (l & Hc & _)%lru_reachable_state.
  destruct (span_spec S (seqZ 0 (numpags S)) UINT_MAX 0)
    as (m & M & Hspan & Hm & HM & Hall & Hmin & Hmax).
  { intros i Hi%elem_of_seqZ. apply zget_is_Some. destruct Hc. lia. }
  assert (Hin : ∀ i e, zget (pgt S) i = Some e → i ∈ seqZ 0 (numpags S)).
  { intros i e Hi%zget_range. apply elem_of_seqZ. destruct Hc. lia. }
  assert (Hrep : LRU.print_replacement_report S =
    Some (tt, [rr_title; rr_policy_lru; rr_clock (clock S)] ++
              (if negb (m =? UINT_MAX) then [rr_min m; rr_max M] else []) ++
              [rr_rule; rr_faults (numpagefaults S)])).
  { unfold LRU.print_replacement_report.
    rewrite (report_bind_eq _ _ S tt [rr_title] eq_refl).
    rewrite (report_bind_eq _ _ S tt [rr_policy_lru] eq_refl).
    rewrite (report_bind_eq _ _ S (clock S) [] eq_refl).
    rewrite (report_bind_eq _ _ S tt [rr_clock (clock S)] eq_refl).
    rewrite (report_bind_eq _ _ S (numpags S) [] eq_refl).
    rewrite (report_bind_eq _ _ S (m, M) [] Hspan).
    cbn [fst snd]. destruct (negb (m =? UINT_MAX)); report_unfold; done. }
  split.
  - intros H0. rewrite Hrep, H0.
    destruct Hmin as [->|(i & e & _ & He & Hpr & _)]; [done|].
    specialize (Hlt i e He Hpr). lia.
  - intros Hpos.
    destruct Hlatest as [?|(p0 & e0 & He0 & Hpr0 & Hts0)]; [lia|].
    pose proof (Hall p0 e0 (Hin _ _ He0) He0 Hpr0) as Hb0.
    destruct (lru_choose_spec S (cfg_pgt S Hc)) as (v & ev & out & Hch & Hev & Hprv & _ & Hleast & _).
    { exists p0, e0. split_and!; try done. lia. }
    exists v, ev, out. split; [done|]. split; [done|]. split; [done|].
    rewrite Hrep.
    assert (Hmv : m = timestamp ev).
    { destruct Hmin as [->|(i & e & _ & He & Hpr & <-)]; [lia|].
      pose proof (Hleast i e He Hpr).
      pose proof (Hall v ev (Hin _ _ Hev) Hev Hprv). lia. }
    assert (HMc : M = clock S - 1).
    { destruct Hmax as [->|(i & e & _ & He & Hpr & <-)]; [lia|].
      specialize (Hlt i e He Hpr). lia. }
    rewrite Hmv, HMc.
    replace (timestamp ev =? UINT_MAX) with false; [done|].
    specialize (Hlt v ev Hev Hprv). lia.
Qed.

Lemma lru_run_trace l :
  ∀ n S S' out,
  lru_run n S → Forall (λ a, 0 ≤ a.1 ≤ UINT_MAX) l →
  trace LRU.sim_mmu l S = Some (tt, S', out) →
  lru_run (length l + n) S'.
Proof.
  induction l as [|[va op] l IH]; intros n S S' out Hrun Hall Htr.
  - injection Htr as <- _. done.
  - apply Forall_cons in Hall as [Hva Hall].
    cbn [trace] in Htr.
    apply sim_bind_Some in Htr as (pa & S1 & o1 & o2 & Hmmu & Htr & _).
    replace (length ((va, op) :: l) + n)%nat with (length l + Datatypes.S n)%nat
      by (cbn; lia).
    apply (IH _ S1 S' o2); [|done|done].
    by eapply run_step.
Qed.

Lemma lru_busy_steps : lru_run 3 lru_busy.
Proof.
  pose proof lru_busy_run as Hrun.
  apply sim_bind_Some in Hrun as ([] & S1 & o1 & o2 & Hinit & Htr & _).
  apply (lru_run_trace [(0, "R"%char); (150, "W"%char); (20, "R"%char)]
           0 S1 lru_busy o2);
    [|repeat constructor; cbn; unfold UINT_MAX; lia|done].
  by eapply run_init; [exact small_system_ok|].
Qed.

Lemma fifo_report_lists_queue_witness :
  FIFO.print_replacement_report fifo_full =
    Some (tt, [rr_title; rr_policy_fifo; rr_occupied; rr_frame 0 0 true;
               rr_frame 1 1 false; rr_rule; rr_faults 2]).
Proof. apply (fifo_report_lists_queue fifo_full fifo_full_reachable). Defined.

Lemma fifo_frames_table_order_witness :
  ∃ rows,
    FIFO.print_frames_table fifo_full =
      Some (tt, [ft_title; ft_heading] ++ concat rows ++ [ft_rule]) ∧
    Z.of_nat (length rows) = numframes fifo_full ∧
    (∀ k i, circular_list (frt fifo_full) (listoccupied fifo_full) !! k = Some i →
       ∃ q e,
         page_at (frt fifo_full) i = Some q ∧ zget (pgt fifo_full) q = Some e ∧
         rows !! Z.to_nat i =
           Some [ft_number i; ft_loaded q (present e) (modified e);
                 ft_order (Z.of_nat k + 1)]) ∧
    (∀ i, i ∈ free_frames fifo_full →
       rows !! Z.to_nat i = Some [ft_number i; ft_empty]).
Proof. apply (fifo_frames_table_order fifo_full fifo_full_reachable). Defined.

Lemma lru_frames_table_consistent_witness :
  ∃ rows,
    LRU.print_frames_table lru_busy = Some (tt, fl_heading :: rows) ∧
    Z.of_nat (length rows) = numframes lru_busy ∧
    (∀ f p pr, fl_error f p pr ∉ rows) ∧
    (∀ f, f ∈ free_frames lru_busy → rows !! Z.to_nat f = Some (fl_free f)) ∧
    (∀ f, f ∈ occupied_frames lru_busy →
       ∃ q e,
         page_at (frt lru_busy) f = Some q ∧ zget (pgt lru_busy) q = Some e ∧
         present e ≠ 0 ∧
         rows !! Z.to_nat f = Some (fl_loaded f q (present e) (modified e))).
Proof.
  apply (lru_frames_table_consistent lru_busy).
  exact (lru_run_reachable 3 lru_busy lru_busy_steps).
Defined.

Lemma lru_report_min_max_witness :
  ∃ v ev out,
    LRU.choose_page_to_be_replaced lru_busy = Some (v, lru_busy, out) ∧
    zget (pgt lru_busy) v = Some ev ∧ present ev ≠ 0 ∧
    LRU.print_replacement_report lru_busy =
      Some (tt, [rr_title; rr_policy_lru; rr_clock 3; rr_min (timestamp ev);
                 rr_max 2; rr_rule; rr_faults 2]).
Proof.
  apply (lru_report_min_max 3 lru_busy lru_busy_steps).
  - unfold UINT_MAX. cbn. lia.
  - cbn. lia.
Defined.

(** ** The page table report *)

Lemma loaded_frames S :
  config_ok S → resident (pgt S) (frt S) →
  (frame_of (pgt S) <$> filter (λ p, is_loaded (pgt S) p) (seqZ 0 (numpags S)))
    ≡ₚ occupied_frames S.
Proof.
  intros Hc Hres.
  assert (Hload : ∀ p, is_loaded (pgt S) p →
            ∃ e, zget (pgt S) p = Some e ∧ present e ≠ 0 ∧
                 frame_of (pgt S) p = frame e).
  { intros p Hp. unfold is_loaded, frame_of in *.
    destruct (zget (pgt S) p) as [e|]; [|done]. exists e.
    split; [done|]. split; [|done]. intros H0. rewrite H0 in Hp. done. }
  apply NoDup_Permutation.
  - apply NoDup_fmap_2_strong; [|apply NoDup_filter, NoDup_seqZ].
    intros p1 p2 [Hp1 _]%list_elem_of_filter [Hp2 _]%list_elem_of_filter Heq.
    destruct (Hload p1 Hp1) as (e1 & He1 & Hpr1 & Hf1).
    destruct (Hload p2 Hp2) as (e2 & He2 & Hpr2 & Hf2).
    pose proof (proj1 Hres _ _ He1 Hpr1) as H1.
    pose proof (proj1 Hres _ _ He2 Hpr2) as H2.
    rewrite <- Hf1, Heq, Hf2 in H1. congruence.
  - apply NoDup_filter, NoDup_seqZ.
  - intros f. unfold occupied_frames.
    rewrite list_elem_of_fmap, list_elem_of_filter, elem_of_seqZ. split.
    + intros (p & -> & [Hp _]%list_elem_of_filter).
      destruct (Hload p Hp) as (e & He & Hpr & ->).
      destruct (resident_frame S p e Hc Hres He Hpr) as [Hrange Hpage].
      split; [|lia]. apply (holds_page_spec S _ Hc Hres).
      exists p. split; [done|]. apply zget_range in He. lia.
    + intros [Hheld Hf].
      apply (holds_page_spec S f Hc Hres) in Hheld as (q & Hq & Hne).
      destruct (proj2 Hres f q Hq Hne) as (e & He & Hpr & Hfr).
      exists q. split.
      * unfold frame_of. by rewrite He.
      * apply list_elem_of_filter. split.
        -- unfold is_loaded. rewrite He. by rewrite (truthy_true _ Hpr).
        -- apply elem_of_seqZ. apply zget_range in He. destruct Hc. lia.
Qed.

(** The rows of the page table, for either format [mk] of the second
    [printf] of a row. *)
Lemma page_rows (mk : spage → line) S body :
  Z.of_nat (length (pgt S)) = numpags S →
  (∀ e, shows_frame (mk e) = truthy (present e)) →
  (∀ i e, zget (pgt S) i = Some e → body i S = Some (tt, [pt_number i; mk e])) →
  ∃ rows,
    for_rows (seqZ 0 (numpags S)) body S = Some (tt, concat rows) ∧
    length (concat rows) = (2 * length (pgt S))%nat ∧
    (∀ p e, zget (pgt S) p = Some e →
       concat rows !! (2 * Z.to_nat p)%nat = Some (pt_number p) ∧
       concat rows !! (2 * Z.to_nat p + 1)%nat = Some (mk e)) ∧
    length (filter (λ ln, shows_frame ln) (concat rows)) =
      length (filter (λ p, is_loaded (pgt S) p) (seqZ 0 (numpags S))).
Proof.
  intros Hlen Hmk Hbody. rewrite <- Hlen.
  assert (Hgen : ∀ a k, Z.of_nat (a + k) = Z.of_nat (length (pgt S)) →
    ∃ rows,
      for_rows (seqZ (Z.of_nat a) (Z.of_nat k)) body S = Some (tt, concat rows) ∧
      length (concat rows) = (2 * k)%nat ∧
      (∀ j e, (j < k)%nat → zget (pgt S) (Z.of_nat (a + j)) = Some e →
         concat rows !! (2 * j)%nat = Some (pt_number (Z.of_nat (a + j))) ∧
         concat rows !! (2 * j + 1)%nat = Some (mk e)) ∧
      length (filter (λ ln, shows_frame ln) (concat rows)) =
        length (filter (λ p, is_loaded (pgt S) p)
                  (seqZ (Z.of_nat a) (Z.of_nat k)))).
  { intros a k. revert a. induction k as [|k IH]; intros a Hak.
    - exists []. split; [done|]. split; [done|]. split; [intros; lia|]. reflexivity.
    - destruct (zget_is_Some (pgt S) (Z.of_nat a)) as [e He]; [lia|].
      destruct (IH (Datatypes.S a)) as (rows & Hrows & Hl & Hget & Hcount); [lia|].
      exists ([pt_number (Z.of_nat a); mk e] :: rows).
      rewrite seqZ_cons by lia.
      replace (Z.succ (Z.of_nat a)) with (Z.of_nat (Datatypes.S a)) by lia.
      replace (Z.pred (Z.of_nat (Datatypes.S k))) with (Z.of_nat k) by lia.
      split; [|split; [|split]].
      + cbn [for_rows].
        rewrite (report_bind_eq _ _ S tt _ (Hbody _ _ He)), Hrows. done.
      + cbn. rewrite Hl. lia.
      + intros j ej Hj Hej. destruct j as [|j].
        * rewrite Nat.add_0_r in Hej. assert (ej = e) as -> by congruence.
          rewrite Nat.add_0_r. done.
        * replace (a + Datatypes.S j)%nat with (Datatypes.S a + j)%nat in * by lia.
          destruct (Hget j ej ltac:(lia) Hej) as [H1 H2].
          cbn [concat]. rewrite !lookup_app_r by (cbn; lia). cbn [length].
          replace (2 * Datatypes.S j - 2)%nat with (2 * j)%nat by lia.
          replace (2 * Datatypes.S j + 1 - 2)%nat with (2 * j + 1)%nat by lia.
          done.
      + assert (Hil : is_loaded (pgt S) (Z.of_nat a) = truthy (present e)).
        { unfold is_loaded. by rewrite He. }
        cbn [concat app].
        rewrite (filter_cons_False _ (pt_number (Z.of_nat a))) by (intros []).
        destruct (truthy (present e)) eqn:Hpr.
        * rewrite (filter_cons_True _ (mk e)) by (by rewrite Hmk, Hpr).
          rewrite (filter_cons_True _ (Z.of_nat a)) by (by rewrite Hil).
          cbn. by rewrite Hcount.
        * rewrite (filter_cons_False _ (mk e)) by (rewrite Hmk, Hpr; intros []).
          rewrite (filter_cons_False _ (Z.of_nat a)) by (rewrite Hil; intros []).
          done. }
  destruct (Hgen O (length (pgt S)) ltac:(lia)) as (rows & Hrows & Hl & Hget & Hcount).
  exists rows. split; [exact Hrows|]. split; [exact Hl|]. split; [|exact Hcount].
  intros p e He. pose proof (zget_range _ _ _ He) as Hr.
  destruct (Hget (Z.to_nat p) e ltac:(lia)) as [H1 H2].
  - cbn. by rewrite Z2Nat.id by lia.
  - cbn in H1. rewrite Z2Nat.id in H1 by lia. done.
Qed.

(** X18. In every state of a run [print_page_table] prints, in either
    format, the two title lines, two lines per page in index order (the
    number, then the entry: with its frame when the page is present, with
    dashes when not) and the rule; and it shows a frame on exactly as many
    rows as there are occupied frames. *)
Theorem page_table_report S :
  fifo_reachable S ∨ lru_reachable S →
  ∃ rows_fifo rows_lru,
    FIFO.print_page_table S =
      Some (tt, [pt_title; pt_heading_fifo] ++ rows_fifo ++ [pt_rule]) ∧
    LRU.print_page_table S =
      Some (tt, [pt_title; pt_heading_lru] ++ rows_lru ++ [pt_rule]) ∧
    Z.of_nat (length rows_fifo) = 2 * numpags S ∧
    Z.of_nat (length rows_lru) = 2 * numpags S ∧
    (∀ p e, zget (pgt S) p = Some e →
       rows_fifo !! (2 * Z.to_nat p)%nat = Some (pt_number p) ∧
       rows_fifo !! (2 * Z.to_nat p + 1)%nat =
         Some (if truthy (present e)
               then pt_loaded (present e) (frame e) (modified e)
               else pt_absent_fifo (present e)) ∧
       rows_lru !! (2 * Z.to_nat p)%nat = Some (pt_number p) ∧
       rows_lru !! (2 * Z.to_nat p + 1)%nat =
         Some (if truthy (present e)
               then pt_loaded_stamp (present e) (frame e) (modified e) (timestamp e)
               else pt_absent_lru (present e))) ∧
    length (filter (λ ln, shows_frame ln) rows_fifo) = length (occupied_frames S) ∧
    length (filter (λ ln, shows_frame ln) rows_lru) = length (occupied_frames S).
Proof.
  intros Hreach.
  assert (Hst : config_ok S ∧ resident (pgt S) (frt S)).
  { destruct Hreach as [(l & o & Hc & Hres & _)%fifo_reachable_state
                       |(l & Hc & Hres & _)%lru_reachable_state]; eauto. }
  destruct Hst as [Hc Hres]. pose proof (cfg_pgt S Hc) as Hlen.
  pose proof (Permutation_length (loaded_frames S Hc Hres)) as Hcount.
  rewrite length_fmap in Hcount.
  destruct (page_rows
    (λ e, if truthy (present e)
          then pt_loaded (present e) (frame e) (modified e)
          else pt_absent_fifo (present e)) S
    (λ i, say (pt_number i) ;;
          e ← read_pgt i ;
          if truthy (present e)
          then say (pt_loaded (present e) (frame e) (modified e))
          else say (pt_absent_fifo (present e))) Hlen)
    as (rf & Hrf & Hlf & Hgf & Hcf).
  { intros e. by destruct (truthy (present e)). }
  { intros i e He. report_unfold. rewrite He. by destruct (truthy (present e)). }
  destruct (page_rows
    (λ e, if truthy (present e)
          then pt_loaded_stamp (present e) (frame e) (modified e) (timestamp e)
          else pt_absent_lru (present e)) S
    (λ i, say (pt_number i) ;;
          e ← read_pgt i ;
          if truthy (present e)
          then say (pt_loaded_stamp (present e) (frame e) (modified e) (timestamp e))
          else say (pt_absent_lru (present e))) Hlen)
    as (rl & Hrl & Hll & Hgl & Hcl).
  { intros e. by destruct (truthy (present e)). }
  { intros i e He. report_unfold. rewrite He. by destruct (truthy (present e)). }
  exists (concat rf), (concat rl). split_and!.
  - unfold FIFO.print_page_table.
    rewrite (report_bind_eq _ _ S tt [pt_title] eq_refl).
    rewrite (report_bind_eq _ _ S tt [pt_heading_fifo] eq_refl).
    rewrite (report_bind_eq _ _ S (numpags S) [] eq_refl).
    rewrite (report_bind_eq _ _ S tt _ Hrf). done.
  - unfold LRU.print_page_table.
    rewrite (report_bind_eq _ _ S tt [pt_title] eq_refl).
    rewrite (report_bind_eq _ _ S tt [pt_heading_lru] eq_refl).
    rewrite (report_bind_eq _ _ S (numpags S) [] eq_refl).
    rewrite (report_bind_eq _ _ S tt _ Hrl). done.
  - lia.
  - lia.
  - intros p e He. destruct (Hgf p e He) as [? ?]. destruct (Hgl p e He) as [? ?].
    done.
  - congruence.
  - congruence.
Qed.

Lemma page_table_report_witness :
  ∃ rows_fifo rows_lru,
    FIFO.print_page_table lru_busy =
      Some (tt, [pt_title; pt_heading_fifo] ++ rows_fifo ++ [pt_rule]) ∧
    LRU.print_page_table lru_busy =
      Some (tt, [pt_title; pt_heading_lru] ++ rows_lru ++ [pt_rule]) ∧
    Z.of_nat (length rows_fifo) = 2 * numpags lru_busy ∧
    Z.of_nat (length rows_lru) = 2 * numpags lru_busy ∧
    (∀ p e, zget (pgt lru_busy) p = Some e →
       rows_fifo !! (2 * Z.to_nat p)%nat = Some (pt_number p) ∧
       rows_fifo !! (2 * Z.to_nat p + 1)%nat =
         Some (if truthy (present e)
               then pt_loaded (present e) (frame e) (modified e)
               else pt_absent_fifo (present e)) ∧
       rows_lru !! (2 * Z.to_nat p)%nat = Some (pt_number p) ∧
       rows_lru !! (2 * Z.to_nat p + 1)%nat =
         Some (if truthy (present e)
               then pt_loaded_stamp (present e) (frame e) (modified e) (timestamp e)
               else pt_absent_lru (present e))) ∧
    length (filter (λ ln, shows_frame ln) rows_fifo) =
      length (occupied_frames lru_busy) ∧
    length (filter (λ ln, shows_frame ln) rows_lru) =
      length (occupied_frames lru_busy).
Proof.
  apply (page_table_report lru_busy). right.
  exact (lru_run_reachable 3 lru_busy lru_busy_steps).
Defined.

(** ** Counters and flags under LRU *)

Lemma lru_referenced_counters S p op e :
  numrefsread (lru_referenced S p op e) =
    (if Ascii.eqb op "R" then to_int (numrefsread S + 1) else numrefsread S) ∧
  numrefswrite (lru_referenced S p op e) =
    (if Ascii.eqb op "R" then numrefswrite S else to_int (numrefswrite S + 1)) ∧
  numpagefaults (lru_referenced S p op e) = numpagefaults S ∧
  numpgwriteback (lru_referenced S p op e) = numpgwriteback S ∧
  numillegalrefs (lru_referenced S p op e) = numillegalrefs S ∧
  clock (lru_referenced S p op e) = to_unsigned (clock S + 1).
Proof. unfold lru_referenced. by destruct (Ascii.eqb op "R"). Qed.

(** X19. What one completed LRU translation of a legal address adds to
    the counters: one read for ['R'] and one write for anything else, one
    page fault exactly when the page was absent, no write-back on a hit or
    when a frame was free, never an illegal reference, and one tick of the
    clock modulo 2^32. *)
Theorem lru_counter_accounting S va op pa S' out :
  lru_reachable S → 0 ≤ va ≤ UINT_MAX → 0 ≤ va / pagsz S < numpags S →
  LRU.sim_mmu va op S = Some (pa, S', out) →
  ∃ e,
    zget (pgt S) (va / pagsz S) = Some e ∧
    numrefsread S' =
      (if Ascii.eqb op "R" then to_int (numrefsread S + 1) else numrefsread S) ∧
    numrefswrite S' =
      (if Ascii.eqb op "R" then numrefswrite S else to_int (numrefswrite S + 1)) ∧
    numpagefaults S' =
      (if decide (present e = 0) then to_int (numpagefaults S + 1)
       else numpagefaults S) ∧
    (present e ≠ 0 ∨ listfree S ≠ -1 → numpgwriteback S' = numpgwriteback S) ∧
    numillegalrefs S' = numillegalrefs S ∧
    clock S' = (clock S + 1) mod 2 ^ 32.
Proof.
  intros (l & Hst)%lru_reachable_state Hva Hlegal Hmmu.
  pose proof Hst as (Hc & Hres & Hfree).
  destruct (legal_page S va Hc Hva Hlegal) as [Hp [e He]].
  pose proof (zget_range _ _ _ He) as Hr.
  exists e. rewrite <- Hp. split; [done|].
  change ((clock S + 1) mod 2 ^ 32) with (to_unsigned (clock S + 1)).
  destruct (decide (present e = 0)) as [Hpr|Hpr].
  - assert (Hfault : ∃ S1 o1 e1,
      LRU.handle_page_fault va S = Some (tt, S1, o1) ∧
      pagsz S1 = pagsz S ∧ zget (pgt S1) (page_index S va) = Some e1 ∧
      numrefsread S1 = numrefsread S ∧ numrefswrite S1 = numrefswrite S ∧
      numpagefaults S1 = to_int (numpagefaults S + 1) ∧
      numillegalrefs S1 = numillegalrefs S ∧ clock S1 = clock S ∧
      (listfree S ≠ -1 → numpgwriteback S1 = numpgwriteback S)).
    { destruct l as [|h t].
      - destruct (lru_candidate_cases S (cfg_pgt S Hc)) as [Hcand|Hno];
          [|by rewrite (lru_stuck S va op e Hst Hva He Hpr Hno) in Hmmu].
        destruct (lru_fault_evict S va e Hst Hva He Hpr Hcand)
          as (v & ev & fh & S1 & o1 & Hev & _ & _ & _ & _ & _ & Hrun & HS1 & _).
        pose proof (zget_range _ _ _ Hev).
        eexists S1, o1, _. subst S1. cbn.
        split_and!; try done.
        + apply zget_zset_same. rewrite length_zset. lia.
        + intros Hlf. by destruct Hfree as [Hring _].
      - destruct (lru_fault_free S va h t e Hst Hva He Hpr)
          as (S1 & o1 & Hrun & _ & Hsame & Hpgt & _ & Hclock & _ & Hcnt).
        unfold counters in Hcnt. injection Hcnt as ? ? ? ? ?.
        exists S1, o1, (mk_spage 1 h 0 0 0).
        split_and!; try done; [apply Hsame|].
        rewrite Hpgt. by apply zget_zset_same. }
    destruct Hfault as (S1 & o1 & e1 & Hrun & Hsz & He1 & H1 & H2 & H3 & H4 & H5 & H6).
    destruct (lru_translate_miss S va op e S1 o1 e1 Hc Hva He Hpr Hrun Hsz He1)
      as [out' Hmmu'].
    rewrite Hmmu in Hmmu'. injection Hmmu' as -> -> ->.
    destruct (lru_referenced_counters S1 (page_index S va) op e1)
      as (-> & -> & -> & -> & -> & ->).
    rewrite H1, H2, H3, H4, H5. split_and!; try done.
    intros [?|Hlf]; [done|]. by apply H6.
  - destruct (lru_translate_hit S va op e Hc Hva He Hpr) as [out' Hmmu'].
    rewrite Hmmu in Hmmu'. injection Hmmu' as -> -> ->.
    destruct (lru_referenced_counters S (page_index S va) op e)
      as (-> & -> & -> & -> & -> & ->).
    done.
Qed.

Lemma lru_counter_accounting_witness :
  ∃ e,
    zget (pgt (after_reads 1)) (0 / pagsz (after_reads 1)) = Some e ∧
    numrefsread (after_reads 2) =
      (if Ascii.eqb "R" "R" then to_int (numrefsread (after_reads 1) + 1)
       else numrefsread (after_reads 1)) ∧
    numrefswrite (after_reads 2) =
      (if Ascii.eqb "R" "R" then numrefswrite (after_reads 1)
       else to_int (numrefswrite (after_reads 1) + 1)) ∧
    numpagefaults (after_reads 2) =
      (if decide (present e = 0) then to_int (numpagefaults (after_reads 1) + 1)
       else numpagefaults (after_reads 1)) ∧
    (present e ≠ 0 ∨ listfree (after_reads 1) ≠ -1 →
     numpgwriteback (after_reads 2) = numpgwriteback (after_reads 1)) ∧
    numillegalrefs (after_reads 2) = numillegalrefs (after_reads 1) ∧
    clock (after_reads 2) = (clock (after_reads 1) + 1) mod 2 ^ 32.
Proof.
  apply (lru_counter_accounting (after_reads 1) 0 "R" 0 (after_reads 2) []).
  - exact (proj1 after_one_read).
  - unfold UINT_MAX. lia.
  - vm_compute. split; discriminate || reflexivity.
  - reflexivity.
Defined.

(** ** The [modified] flag *)

Lemma touch_modified_flag op e c :
  modified (fifo_touch op e) = (if Ascii.eqb op "W" then 1 else modified e) ∧
  present (fifo_touch op e) = present e ∧
  modified (lru_touch c op e) = (if Ascii.eqb op "W" then 1 else modified e).
Proof.
  unfold fifo_touch, lru_touch.
  destruct (Ascii.eqb_spec op "R") as [->|]; [done|].
  by destruct (Ascii.eqb op "W").
Qed.

Lemma settled_hit pgt p e e' :
  zget pgt p = Some e → present e ≠ 0 →
  settled pgt (zset pgt p e') p e e' e.
Proof.
  intros He Hpr. pose proof (zget_range _ _ _ He).
  split; [by apply zget_zset_same|]. split; [done|].
  split; [by rewrite decide_False|].
  intros q eq Hq Heq _. rewrite zget_zset_in, decide_False in Heq; done.
Qed.

Lemma settled_free pgt p e e' h :
  zget pgt p = Some e → present e = 0 →
  settled pgt (zset pgt p e') p e e' (mk_spage 1 h 0 0 0).
Proof.
  intros He Hpr. pose proof (zget_range _ _ _ He).
  split; [by apply zget_zset_same|]. split; [done|].
  split; [by rewrite decide_True|].
  intros q eq Hq Heq _. rewrite zget_zset_in, decide_False in Heq; done.
Qed.

Lemma settled_evict pgt p e e' v ev ev' e0 :
  zget pgt p = Some e → present e = 0 → zget pgt v = Some ev →
  present ev' = 0 → present e0 ≠ 0 → modified e0 = 0 →
  settled pgt (zset (zset pgt v ev') p e') p e e' e0.
Proof.
  intros He Hpr Hev Hpv Hp0 Hm0.
  pose proof (zget_range _ _ _ He). pose proof (zget_range _ _ _ Hev).
  split; [apply zget_zset_same; by rewrite length_zset|]. split; [done|].
  split; [by rewrite decide_True|].
  intros q eq Hq Heq Hpq.
  rewrite zget_zset_in, decide_False in Heq by (rewrite ?length_zset; done).
  rewrite zget_zset_in in Heq by done.
  case_decide; [|done]. injection Heq as <-. done.
Qed.

(** X20. After a translation the [modified] flag of its page tells whether
    the page was written since it was loaded: it is 1 after a ['W']; after
    any other operation it is what it was when the page was present, and 0
    when the page has just been brought in.  Every other page that is
    present afterwards has the entry it had. *)
Theorem modified_tracks_writes S va op :
  0 ≤ va ≤ UINT_MAX → 0 ≤ va / pagsz S < numpags S →
  (fifo_reachable S →
   ∃ e pa S' out e',
     zget (pgt S) (va / pagsz S) = Some e ∧
     FIFO.sim_mmu va op S = Some (pa, S', out) ∧
     zget (pgt S') (va / pagsz S) = Some e' ∧ present e' ≠ 0 ∧
     modified e' =
       (if Ascii.eqb op "W" then 1
        else if decide (present e = 0) then 0 else modified e) ∧
     ∀ q eq, q ≠ va / pagsz S → zget (pgt S') q = Some eq → present eq ≠ 0 →
             zget (pgt S) q = Some eq) ∧
  (lru_reachable S →
   ∀ pa S' out,
     LRU.sim_mmu va op S = Some (pa, S', out) →
     ∃ e e',
       zget (pgt S) (va / pagsz S) = Some e ∧
       zget (pgt S') (va / pagsz S) = Some e' ∧ present e' ≠ 0 ∧
       modified e' =
         (if Ascii.eqb op "W" then 1
          else if decide (present e = 0) then 0 else modified e) ∧
       ∀ q eq, q ≠ va / pagsz S → zget (pgt S') q = Some eq → present eq ≠ 0 →
               zget (pgt S) q = Some eq).
Proof.
  intros Hva Hlegal. split.
  - intros (l & o & Hst)%fifo_reachable_state. pose proof Hst as (Hc & _).
    destruct (legal_page S va Hc Hva Hlegal) as [Hp [e He]]. rewrite <- Hp.
    assert (Hacc : ∃ pa S' out e0,
      FIFO.sim_mmu va op S = Some (pa, S', out) ∧
      settled (pgt S) (pgt S') (page_index S va) e (fifo_touch op e0) e0).
    { destruct (decide (present e = 0)) as [Hpr|Hpr].
      - destruct l as [|h t].
        + pose proof (fifo_state_occupied S o Hst) as Hne.
          destruct o as [|h t]; [done|].
          destruct (fifo_access_evict S va op h t e Hst Hva He Hpr)
            as (v & ev & pa & S' & out & _ & Hev & Hrun & _ & _ & Hpgt & _).
          exists pa, S', out, (mk_spage 1 h 0 0 0). split; [done|].
          rewrite Hpgt. by apply (settled_evict _ _ e _ v ev).
        + destruct (fifo_access_free S va op h t o e Hst Hva He Hpr)
            as (pa & S' & out & Hrun & _ & _ & Hpgt & _).
          exists pa, S', out, (mk_spage 1 h 0 0 0). split; [done|].
          rewrite Hpgt. by apply settled_free.
      - destruct (fifo_access_hit S l o va op e Hst Hva He Hpr)
          as (pa & S' & out & Hrun & _ & _ & Hpgt & _).
        exists pa, S', out, e. split; [done|].
        rewrite Hpgt. by apply settled_hit. }
    destruct Hacc as (pa & S' & out & e0 & Hrun & He' & Hp0 & Hm0 & Hold).
    destruct (touch_modified_flag op e0 0) as (Hm & Hpr' & _).
    exists e, pa, S', out, (fifo_touch op e0).
    split_and!; try done; [congruence|].
    rewrite Hm, Hm0. done.
  - intros (l & Hst)%lru_reachable_state pa S' out Hrun.
    pose proof Hst as (Hc & _).
    destruct (legal_page S va Hc Hva Hlegal) as [Hp [e He]]. rewrite <- Hp.
    assert (Hacc : ∃ e0,
      settled (pgt S) (pgt S') (page_index S va) e
        (lru_touch (clock S) op e0) e0).
    { destruct (decide (present e = 0)) as [Hpr|Hpr].
      - destruct l as [|h t].
        + destruct (lru_candidate_cases S (cfg_pgt S Hc)) as [Hcand|Hno];
            [|by rewrite (lru_stuck S va op e Hst Hva He Hpr Hno) in Hrun].
          destruct (lru_access_evict S va op e Hst Hva He Hpr Hcand)
            as (v & ev & pa' & S'' & out' & Hev & _ & _ & _ & Hrun' & _ & _
                & Hpgt & _).
          rewrite Hrun in Hrun'. injection Hrun' as <- <- <-.
          eexists. rewrite Hpgt. by apply (settled_evict _ _ e _ v ev).
        + destruct (lru_access_free S va op h t e Hst Hva He Hpr)
            as (pa' & S'' & out' & Hrun' & _ & _ & Hpgt & _).
          rewrite Hrun in Hrun'. injection Hrun' as <- <- <-.
          eexists. rewrite Hpgt. by apply settled_free.
      - destruct (lru_access_hit S l va op e Hst Hva He Hpr)
          as (pa' & S'' & out' & Hrun' & _ & _ & Hpgt & _).
        rewrite Hrun in Hrun'. injection Hrun' as <- <- <-.
        exists e. rewrite Hpgt. by apply settled_hit. }
    destruct Hacc as (e0 & He' & Hp0 & Hm0 & Hold).
    destruct (touch_modified_flag op e0 (clock S)) as (_ & _ & Hm).
    destruct (lru_touch_fields (clock S) op e0) as (Hpr' & _).
    exists e, (lru_touch (clock S) op e0).
    split_and!; try done; [congruence|].
    rewrite Hm, Hm0. done.
Qed.

Lemma modified_tracks_writes_witness :
  ∃ e pa S' out e',
    zget (pgt fifo_one) (150 / pagsz fifo_one) = Some e ∧
    FIFO.sim_mmu 150 "W" fifo_one = Some (pa, S', out) ∧
    zget (pgt S') (150 / pagsz fifo_one) = Some e' ∧ present e' ≠ 0 ∧
    modified e' =
      (if Ascii.eqb "W" "W" then 1
       else if decide (present e = 0) then 0 else modified e) ∧
    ∀ q eq, q ≠ 150 / pagsz fifo_one → zget (pgt S') q = Some eq →
            present eq ≠ 0 → zget (pgt fifo_one) q = Some eq.
Proof.
  apply (modified_tracks_writes fifo_one 150 "W").
  - unfold UINT_MAX. lia.
  - vm_compute. split; discriminate || reflexivity.
  - eapply (reach_step _ _ _ 0 "R");
      [eapply reach_init; [exact small_system_ok|exact (proj1 fifo_full_run)]
      |unfold UINT_MAX; lia|exact (proj1 (proj2 fifo_full_run))].
Defined.

(** ** What LRU evicts *)

(** X21. In an LRU run of at most 2^32 - 1 translations, a fault with no
    free frame evicts the one present page whose timestamp is below that of
    every other present page, gives its frame to the new page, and leaves
    the entries of all other pages as they were. *)
Theorem lru_evicts_least_recent n S va op e :
  lru_run n S → Z.of_nat n ≤ UINT_MAX →
  0 ≤ va ≤ UINT_MAX → 0 ≤ va / pagsz S < numpags S →
  zget (pgt S) (va / pagsz S) = Some e → present e = 0 → listfree S = -1 →
  ∃ v ev pa S' out,
    zget (pgt S) v = Some ev ∧ present ev ≠ 0 ∧
    (∀ i ei, i ≠ v → zget (pgt S) i = Some ei → present ei ≠ 0 →
             timestamp ev < timestamp ei) ∧
    LRU.sim_mmu va op S = Some (pa, S', out) ∧
    (∃ ev', zget (pgt S') v = Some ev' ∧ present ev' = 0) ∧
    (∃ e', zget (pgt S') (va / pagsz S) = Some e' ∧
           present e' = 1 ∧ frame e' = frame ev) ∧
    (∀ q, q ≠ v → q ≠ va / pagsz S → zget (pgt S') q = zget (pgt S) q).
Proof.
  intros Hrun Hn Hva Hlegal He Hpr Hlf.
  destruct (lru_run_ordered n S Hrun Hn) as [_ [_ Hinj]].
  pose proof (lru_run_candidate n S Hrun Hn Hlf) as Hcand.
  pose proof (lru_run_reachable n S Hrun) as (l & Hst)%lru_reachable_state.
  pose proof Hst as (Hc & _ & Hfree).
  rewrite Hlf in Hfree. pose proof (free_is_empty _ _ Hfree) as ->.
  destruct (legal_page S va Hc Hva Hlegal) as [Hp _]. rewrite <- Hp in *.
  destruct (lru_access_evict S va op e Hst Hva He Hpr Hcand)
    as (v & ev & pa & S' & out & Hev & Hprv & Hleast & _ & Hmmu & _ & _ & Hpgt & _).
  pose proof (zget_range _ _ _ He) as Hr. pose proof (zget_range _ _ _ Hev) as Hrv.
  assert (Hvp : v ≠ page_index S va) by (intros ->; congruence).
  exists v, ev, pa, S', out. split; [done|]. split; [done|]. split; [|split; [done|]].
  - intros i ei Hi Hei Hpri. pose proof (Hleast i ei Hei Hpri) as Hle.
    destruct (decide (timestamp ev = timestamp ei)) as [Heq|]; [|lia].
    exfalso. apply Hi. symmetry. by apply (Hinj v i ev ei).
  - rewrite Hpgt. split; [|split].
    + exists (set_present 0 ev). split; [|done].
      rewrite zget_zset_in, decide_False by (rewrite ?length_zset; done).
      by apply zget_zset_same.
    + eexists. split; [apply zget_zset_same; by rewrite length_zset|].
      destruct (lru_touch_fields (clock S) op
                  (mk_spage 1 (frame ev) 0 (referenced e) (timestamp e)))
        as (-> & -> & _). done.
    + intros q Hqv Hqp.
      rewrite zget_zset_in, decide_False by (rewrite ?length_zset; done).
      by rewrite zget_zset_in, decide_False.
Qed.

Lemma lru_evicts_least_recent_witness :
  ∃ v ev pa S' out,
    zget (pgt lru_busy) v = Some ev ∧ present ev ≠ 0 ∧
    (∀ i ei, i ≠ v → zget (pgt lru_busy) i = Some ei → present ei ≠ 0 →
             timestamp ev < timestamp ei) ∧
    LRU.sim_mmu 250 "R" lru_busy = Some (pa, S', out) ∧
    (∃ ev', zget (pgt S') v = Some ev' ∧ present ev' = 0) ∧
    (∃ e', zget (pgt S') (250 / pagsz lru_busy) = Some e' ∧
           present e' = 1 ∧ frame e' = frame ev) ∧
    (∀ q, q ≠ v → q ≠ 250 / pagsz lru_busy →
          zget (pgt S') q = zget (pgt lru_busy) q).
Proof.
  apply (lru_evicts_least_recent 3 lru_busy 250 "R" Header.zero_page).
  - exact lru_busy_steps.
  - unfold UINT_MAX. cbn. lia.
  - unfold UINT_MAX. lia.
  - vm_compute. split; discriminate || reflexivity.
  - reflexivity.
  - reflexivity.
  - reflexivity.
Defined.


(** ** Quiet mode *)

Section Silent.
Variable ok : event → Prop.

Lemma silent_ret {A} (a : A) : silent ok (mret a).
Proof. intros S b S' out Hd [= <- <- <-]. by split. Qed.

Lemma silent_bind {A B} (m : Sim A) (k : A → Sim B) :
  silent ok m → (∀ a, silent ok (k a)) → silent ok (m ≫= k).
Proof.
  intros Hm Hk S b S' out Hd (a & S1 & o1 & o2 & H1 & H2 & ->)%sim_bind_Some.
  destruct (Hm _ _ _ _ Hd H1) as [Hd1 Ho1].
  destruct (Hk a _ _ _ _ Hd1 H2) as [Hd2 Ho2].
  split; [done|]. by apply Forall_app.
Qed.

Lemma silent_detailed {B} (k : Z → Sim B) :
  silent ok (k 0) → silent ok (gets detailed ≫= k).
Proof.
  intros Hk S b S' out Hd (a & S1 & o1 & o2 & H1 & H2 & ->)%sim_bind_Some.
  injection H1 as <- <- <-. rewrite Hd in H2. exact (Hk S b S' o2 Hd H2).
Qed.

Lemma silent_gets {A} (f : ssystem → A) : silent ok (gets f).
Proof. intros S b S' out Hd [= <- <- <-]. by split. Qed.

Lemma silent_modify (f : ssystem → ssystem) :
  (∀ S, detailed (f S) = detailed S) → silent ok (modify f).
Proof. intros Hf S b S' out Hd [= <- <- <-]. by rewrite Hf. Qed.

Lemma silent_emit e : ok e → silent ok (emit e).
Proof. intros He S b S' out Hd [= <- <- <-]. split; [done|]. by repeat constructor. Qed.

Lemma silent_undefined {A} : silent ok (@undefined A).
Proof. by intros S b S' out Hd. Qed.

Lemma silent_when c m : silent ok m → silent ok (when c m).
Proof. intros Hm. destruct c; [done|exact (silent_ret tt)]. Qed.

Lemma silent_load_pgt i : silent ok (load_pgt i).
Proof.
  intros S b S' out Hd. unfold load_pgt. destruct (zget (pgt S) i); [|done].
  intros [= <- <- <-]. by split.
Qed.

Lemma silent_load_frt i : silent ok (load_frt i).
Proof.
  intros S b S' out Hd. unfold load_frt. destruct (zget (frt S) i); [|done].
  intros [= <- <- <-]. by split.
Qed.

Lemma silent_store_pgt i f : silent ok (store_pgt i f).
Proof.
  intros S b S' out Hd. unfold store_pgt. destruct (zget (pgt S) i); [|done].
  intros [= <- <- <-]. by split.
Qed.

Lemma silent_store_frt i f : silent ok (store_frt i f).
Proof.
  intros S b S' out Hd. unfold store_frt. destruct (zget (frt S) i); [|done].
  intros [= <- <- <-]. by split.
Qed.

Lemma silent_udiv x y : silent ok (udiv x y).
Proof. unfold udiv. destruct (y =? 0); [apply silent_undefined|apply silent_ret]. Qed.

Lemma silent_umod x y : silent ok (umod x y).
Proof. unfold umod. destruct (y =? 0); [apply silent_undefined|apply silent_ret]. Qed.

Lemma silent_for_each l body :
  (∀ i, silent ok (body i)) → silent ok (for_each l body).
Proof.
  intros Hbody. induction l as [|i l IH]; [apply silent_ret|].
  cbn [for_each]. apply silent_bind; [apply Hbody|by intros _].
Qed.

End Silent.

Ltac silent_step :=
  cbv zeta; cbn beta;
  first
    [ apply silent_detailed; change (truthy 0) with false; cbn [when]
    | apply silent_bind; [|intros ?]
    | apply silent_ret
    | apply silent_gets
    | apply silent_modify; by intros []
    | apply silent_emit; done
    | apply silent_undefined
    | apply silent_when
    | apply silent_load_pgt
    | apply silent_load_frt
    | apply silent_store_pgt
    | apply silent_store_frt
    | apply silent_udiv
    | apply silent_umod
    | match goal with
      | |- silent _ (if ?c then _ else _) => destruct c
      end ].

Ltac silent_run := repeat silent_step.

Lemma silent_scan ok l : ∀ v m, silent ok (LRU.scan l v m).
Proof.
  induction l as [|i l IH]; intros v m; cbn [LRU.scan]; [apply silent_ret|].
  silent_run; apply IH.
Qed.

Lemma silent_fifo_reference ok p op : silent ok (FIFO.reference_page p op).
Proof. unfold FIFO.reference_page. silent_run. Qed.

Lemma silent_fifo_choose ok : silent ok FIFO.choose_page_to_be_replaced.
Proof. unfold FIFO.choose_page_to_be_replaced. silent_run. Qed.

Lemma silent_fifo_replace ok v p : silent ok (FIFO.replace_page v p).
Proof. unfold FIFO.replace_page. silent_run. Qed.

Lemma silent_fifo_occupy ok f p : silent ok (FIFO.occupy_free_frame f p).
Proof. unfold FIFO.occupy_free_frame. silent_run. Qed.

Lemma silent_lru_reference p op :
  silent (λ ev, ev = err_clock_overflow) (LRU.reference_page p op).
Proof. unfold LRU.reference_page. silent_run. Qed.

Lemma silent_lru_choose ok : silent ok LRU.choose_page_to_be_replaced.
Proof. unfold LRU.choose_page_to_be_replaced. silent_run. apply silent_scan. Qed.

Lemma silent_lru_replace ok v p : silent ok (LRU.replace_page v p).
Proof. unfold LRU.replace_page. silent_run. Qed.

Lemma silent_lru_occupy ok f p : silent ok (LRU.occupy_free_frame f p).
Proof. unfold LRU.occupy_free_frame. silent_run. Qed.

Lemma silent_handle_page_fault ok choose replace occupy va :
  silent ok choose → (∀ v p, silent ok (replace v p)) →
  (∀ f p, silent ok (occupy f p)) →
  silent ok (Header.handle_page_fault choose replace occupy va).
Proof.
  intros Hch Hre Hoc. unfold Header.handle_page_fault. silent_run; auto.
Qed.

Lemma silent_sim_mmu ok reference choose replace occupy va op :
  (∀ p o, silent ok (reference p o)) →
  silent ok choose → (∀ v p, silent ok (replace v p)) →
  (∀ f p, silent ok (occupy f p)) →
  silent ok (Header.sim_mmu reference choose replace occupy va op).
Proof.
  intros Href Hch Hre Hoc. unfold Header.sim_mmu. silent_run; auto.
Qed.

Lemma silent_init_tables ok : silent ok Header.init_tables.
Proof.
  unfold Header.init_tables. silent_run.
  - intros S b S' out Hd. unfold Header.memset_pgt. destruct (_ && _); [|done].
    intros [= <- <- <-]. by split.
  - apply silent_for_each. intros i. silent_run.
Qed.

(** X22. With [detailed = 0] nothing is printed on [stdout], whatever the
    state of the tables: [init_tables], both fault handlers and the FIFO
    [sim_mmu] emit nothing, the LRU [sim_mmu] at most the clock warning on
    [stderr]; and none of them changes [detailed]. *)
Theorem quiet_mode_prints_nothing S :
  detailed S = 0 →
  (∀ S' out, FIFO.init_tables S = Some (tt, S', out) → out = [] ∧ detailed S' = 0) ∧
  (∀ va S' out,
     FIFO.handle_page_fault va S = Some (tt, S', out) → out = [] ∧ detailed S' = 0) ∧
  (∀ va S' out,
     LRU.handle_page_fault va S = Some (tt, S', out) → out = [] ∧ detailed S' = 0) ∧
  (∀ va op pa S' out,
     FIFO.sim_mmu va op S = Some (pa, S', out) → out = [] ∧ detailed S' = 0) ∧
  (∀ va op pa S' out,
     LRU.sim_mmu va op S = Some (pa, S', out) →
     Forall (λ ev, ev = err_clock_overflow) out ∧ detailed S' = 0).
Proof.
  intros Hd.
  assert (Hnil : ∀ out : list event, Forall (λ _, False) out → out = []).
  { intros [|ev out] H; [done|]. by apply Forall_cons in H as [[] _]. }
  split_and!.
  - intros S' out Hrun.
    destruct (silent_init_tables (λ _, False) S tt S' out Hd Hrun). auto.
  - intros va S' out Hrun.
    destruct (silent_handle_page_fault (λ _, False)
                FIFO.choose_page_to_be_replaced FIFO.replace_page
                FIFO.occupy_free_frame va
                (silent_fifo_choose _) (silent_fifo_replace _)
                (silent_fifo_occupy _) S tt S' out Hd Hrun). auto.
  - intros va S' out Hrun.
    destruct (silent_handle_page_fault (λ _, False)
                LRU.choose_page_to_be_replaced LRU.replace_page
                LRU.occupy_free_frame va
                (silent_lru_choose _) (silent_lru_replace _)
                (silent_lru_occupy _) S tt S' out Hd Hrun). auto.
  - intros va op pa S' out Hrun.
    destruct (silent_sim_mmu (λ _, False) FIFO.reference_page
                FIFO.choose_page_to_be_replaced FIFO.replace_page
                FIFO.occupy_free_frame va op
                (silent_fifo_reference _)
                (silent_fifo_choose _) (silent_fifo_replace _)
                (silent_fifo_occupy _) S pa S' out Hd Hrun). auto.
  - intros va op pa S' out Hrun.
    destruct (silent_sim_mmu _ LRU.reference_page
                LRU.choose_page_to_be_replaced LRU.replace_page
                LRU.occupy_free_frame va op
                silent_lru_reference
                (silent_lru_choose _) (silent_lru_replace _)
                (silent_lru_occupy _) S pa S' out Hd Hrun). auto.
Qed.

Lemma quiet_mode_prints_nothing_witness :
  (∀ S' out,
     FIFO.init_tables fifo_started = Some (tt, S', out) →
     out = [] ∧ detailed S' = 0) ∧
  (∀ va S' out,
     FIFO.handle_page_fault va fifo_started = Some (tt, S', out) →
     out = [] ∧ detailed S' = 0) ∧
  (∀ va S' out,
     LRU.handle_page_fault va fifo_started = Some (tt, S', out) →
     out = [] ∧ detailed S' = 0) ∧
  (∀ va op pa S' out,
     FIFO.sim_mmu va op fifo_started = Some (pa, S', out) →
     out = [] ∧ detailed S' = 0) ∧
  (∀ va op pa S' out,
     LRU.sim_mmu va op fifo_started = Some (pa, S', out) →
     Forall (λ ev, ev = err_clock_overflow) out ∧ detailed S' = 0).
Proof. apply (quiet_mode_prints_nothing fifo_started). reflexivity. Defined.

(** ** When an LRU translation does not complete *)

(** X23. In a state of an LRU run the translation of a legal address has no
    defined result in one case only: the page is absent, no frame is free,
    and no present page has a timestamp below [UINT_MAX]. *)
Theorem lru_translation_fails_exactly S va op :
  lru_reachable S → 0 ≤ va ≤ UINT_MAX → 0 ≤ va / pagsz S < numpags S →
  ∃ e,
    zget (pgt S) (va / pagsz S) = Some e ∧
    (LRU.sim_mmu va op S = None ↔
     present e = 0 ∧ listfree S = -1 ∧ ¬ lru_candidate S).
Proof.
  intros (l & Hst)%lru_reachable_state Hva Hlegal.
  pose proof Hst as (Hc & _ & Hfree).
  destruct (legal_page S va Hc Hva Hlegal) as [Hp [e He]].
  exists e. rewrite <- Hp. split; [done|]. split.
  - intros Hnone.
    destruct (lru_sim_mmu_legal S l va op Hst Hva Hlegal)
      as [(_ & -> & Hno)|(pa & S' & out & l' & Hmmu & _)]; [|congruence].
    split; [|split; [by destruct Hfree as [Hring _]|done]].
    destruct (decide (present e = 0)) as [|Hpr]; [done|].
    destruct (lru_access_hit S [] va op e Hst Hva He Hpr) as (pa & S' & out & Hmmu & _).
    congruence.
  - intros (Hpr & Hlf & Hno).
    rewrite Hlf in Hfree. pose proof (free_is_empty _ _ Hfree) as ->.
    by apply (lru_stuck S va op e).
Qed.

Lemma lru_translation_fails_exactly_witness :
  ∃ e,
    zget (pgt saturated) (100 / pagsz saturated) = Some e ∧
    (LRU.sim_mmu 100 "R" saturated = None ↔
     present e = 0 ∧ listfree saturated = -1 ∧ ¬ lru_candidate saturated).
Proof.
  apply (lru_translation_fails_exactly saturated 100 "R").
  - exact saturated_reachable.
  - unfold UINT_MAX. lia.
  - vm_compute. split; discriminate || reflexivity.
Defined.

(** ** Translating twice when the scan has no candidate *)

Lemma saturated_no_candidate : ¬ lru_candidate saturated.
Proof.
  intros (p & e & He & Hpr & Hts).
  apply zget_Some in He as [Hp He].
  destruct (Z.to_nat p) as [|[|[|[|k]]]]; cbn in He; try done;
    injection He as <-;
    first [by vm_compute in Hts|by exfalso; apply Hpr].
Qed.

(** C8.  In the reachable LRU state [saturated] address 100 is legal, yet
    its translation has no defined result, whatever the operation: there is
    no first physical address for a second translation to repeat.  The
    cause is that of C2, the scan that finds no candidate. *)
Theorem translation_undefined_when_saturated :
  lru_reachable saturated ∧
  0 ≤ 100 ≤ UINT_MAX ∧ 0 ≤ 100 / pagsz saturated < numpags saturated ∧
  (∀ op, LRU.sim_mmu 100 op saturated = None) ∧
  ¬ (∃ op pa S1 out1 S2 out2,
       LRU.sim_mmu 100 op saturated = Some (pa, S1, out1) ∧
       LRU.sim_mmu 100 op S1 = Some (pa, S2, out2)).
Proof.
  assert (Hnone : ∀ op, LRU.sim_mmu 100 op saturated = None).
  { intros op.
    pose proof saturated_reachable as (l & Hst)%lru_reachable_state.
    assert (l = []) as ->.
    { destruct Hst as (_ & _ & Hfree). by apply (free_is_empty (frt saturated)). }
    apply (lru_stuck saturated 100 op Header.zero_page Hst);
      [unfold UINT_MAX; lia|reflexivity|reflexivity|exact saturated_no_candidate]. }
  split; [exact saturated_reachable|].
  split; [unfold UINT_MAX; lia|].
  split; [vm_compute; split; discriminate || reflexivity|].
  split; [exact Hnone|].
  intros (op & pa & S1 & out1 & S2 & out2 & H1 & _). by rewrite Hnone in H1.
Qed.
